(** * KenoNumberPicker: the draw-history analytics and the combinatorics engine

    A shallow embedding of the JavaScript that computes over keno draws:
    the page script (the analyzers [getNumberCounts], [analyzeNumberGaps],
    [generatePredictions], ..., the loader [processKenoData] and the payout
    probabilities with their nested [combinations]) and [MathUtils.js]
    (the exported [combinations], [probabilityOfHitting] and
    [probabilityAcrossGames]).

    Numbers.  JavaScript has one number type, IEEE 754 binary64.
    - The combinatorics engine is embedded bit for bit on Rocq's primitive
      binary64 floats: its properties are about exact values (an exact
      binomial, an exact zero, an exact round trip), and its inputs that
      reach the arithmetic form a finite set.
    - Counters of the analyzers (occurrences, gaps, weights, game ids) are
      integers far below 2^53, where binary64 is exact: they are in [Z].
    - Quotients of the analyzers (averages, ratios, normalised scores) are
      kept as exact rationals extended with NaN and the two infinities
      ([num]); the rounding of a binary64 quotient to 53 bits is not
      modelled there.

    Draws.  The analyzers are embedded on draws of integers, the numbers
    of the specification's data model. The data files hold each number as
    a string, and the page script does not convert the draws; where that
    decides a claim, the keys of [currentGaps] in [analyzeNumberGaps], the
    function is embedded again on draws whose elements are a Number or a
    string ([Values]). *)

From Stdlib Require Import Bool ZArith QArith Qabs Qround List String Ascii.
From Stdlib Require Import Floats Uint63 Lia Lqa Permutation Sorted Finite.
Import ListNotations.

Local Open Scope bool_scope.
Local Open Scope Z_scope.

(* ================================================================== *)
(** * The JavaScript runtime the program relies on *)
(* ================================================================== *)

(** ** binary64 numbers *)
Module Binary64.

(** An integer as a Number: the binary64 value nearest to it (ties to
    even), which is the integer itself for magnitudes up to 2^53. Below
    2^63 the conversion is the primitive one. *)
Definition Z2float (z : Z) : float :=
  if Z.abs z <? 9223372036854775808 then
    if z <? 0 then PrimFloat.opp (PrimFloat.of_uint63 (Uint63.of_Z (- z)))
    else PrimFloat.of_uint63 (Uint63.of_Z z)
  else SF2Prim (SpecFloat.binary_normalize FloatOps.prec FloatOps.emax z 0 false).

(** The rational a finite Number denotes; [None] for NaN and infinities. *)
Definition float_value (x : float) : option Q :=
  match Prim2SF x with
  | S754_zero _ => Some 0%Q
  | S754_finite s m e =>
      Some ((if s then (-1) else 1) * inject_Z (Zpos m) * Qpower 2 e)%Q
  | _ => None
  end.

(** [denotes x v]: the Number [x] is finite and its value is exactly the
    integer [v]. *)
Definition denotes (x : float) (v : Z) : bool :=
  match float_value x with
  | Some q => Qeq_bool q (inject_Z v)
  | None => false
  end.

(** [within x v eps]: [x] is finite and |x - v| <= eps * v. *)
Definition within (x : float) (v : Z) (eps : Q) : bool :=
  match float_value x with
  | Some q => Qle_bool (Qabs (q - inject_Z v)) (eps * inject_Z v)
  | None => false
  end.

(** [close x y eps]: both finite and |x - y| <= eps. *)
Definition close (x y : float) (eps : Q) : bool :=
  match float_value x, float_value y with
  | Some p, Some q => Qle_bool (Qabs (p - q)) eps
  | _, _ => false
  end.

(** [Math.round]: the nearest integer, halves towards +Infinity; an
    integral, infinite or NaN argument is returned as it is, and an
    argument in [-0.5, 0) gives -0. *)
Definition Math_round (x : float) : float :=
  match Prim2SF x with
  | S754_finite s m e =>
      if 0 <=? e then x
      else
        let v := if s then Zneg m else Zpos m in
        let r := (2 * v + 2 ^ (- e)) / 2 ^ (- e + 1) in
        if (r =? 0) && s then (-0)%float else Z2float r
  | _ => x
  end.

(** A probability: [0 <= x <= 1] (which excludes NaN). *)
Definition in_unit_interval (x : float) : bool :=
  PrimFloat.leb 0 x && PrimFloat.leb x 1.

End Binary64.

(* ================================================================== *)
(** * The combinatorics engine *)
(* ================================================================== *)

(** The loop shared by both versions of [combinations]:
    [for (let i = 1; i <= k; i++) result *= (n - i + 1) / i].
    [steps] is the number of iterations left, [i] the loop index. *)
Fixpoint running_product (n : Z) (steps : nat) (i : Z) (result : float) : float :=
  match steps with
  | O => result
  | S steps' =>
      running_product n steps' (i + 1)
        (result * ((Binary64.Z2float n - Binary64.Z2float i + 1) / Binary64.Z2float i))%float
  end.

(** ** The page script: [probabilityOfHitting] with its nested [combinations] *)
Module Script.

(** The function nested in [probabilityOfHitting]: two guards, then the
    loop; the product is returned as it is. *)
Definition combinations (n k : Z) : float :=
  if k >? n then 0%float
  else if (k =? 0) || (k =? n) then 1%float
  else running_product n (Z.to_nat k) 1 1%float.

Definition totalNumbers : Z := 80.
Definition numbersDrawn : Z := 20.

Definition probabilityOfHitting (matches spotCount : Z) : float :=
  let numerator :=
    (combinations numbersDrawn matches
     * combinations (totalNumbers - numbersDrawn) (spotCount - matches))%float in
  let denominator := combinations totalNumbers spotCount in
  if PrimFloat.eqb denominator 0 then 0%float
  else if matches >? spotCount then 0%float
  else if matches >? numbersDrawn then 0%float
  else if spotCount >? totalNumbers then 0%float
  else (numerator / denominator)%float.

Section Across.
(** [Math.pow] is left implementation-approximated by ECMAScript, so it
    is a parameter here; the exponent is the integer [numGames]. *)
Variable Math_pow : float -> Z -> float.

Definition probabilityAcrossGames (matches spotCount numGames : Z) : float :=
  let singleGameProb := probabilityOfHitting matches spotCount in
  let probNone := Math_pow (1 - singleGameProb)%float numGames in
  (1 - probNone)%float.
End Across.

End Script.

(** ** MathUtils.js *)
Module MathUtils.

Definition combinations (n k : Z) : float :=
  if k >? n then 0%float
  else if (k =? 0) || (k =? n) then 1%float
  else if k <? 0 then 0%float
  else Binary64.Math_round (running_product n (Z.to_nat k) 1 1%float).

(** [totalNumbers] and [numbersDrawn] default to [KENO_CONFIG.totalNumbers]
    = 80 and [KENO_CONFIG.numbersDrawn] = 20. *)
Definition probabilityOfHitting_with
    (matches spotCount totalNumbers numbersDrawn : Z) : float :=
  if matches >? spotCount then 0%float
  else if matches >? numbersDrawn then 0%float
  else if spotCount >? totalNumbers then 0%float
  else if spotCount - matches >? totalNumbers - numbersDrawn then 0%float
  else
    let numerator :=
      (combinations numbersDrawn matches
       * combinations (totalNumbers - numbersDrawn) (spotCount - matches))%float in
    let denominator := combinations totalNumbers spotCount in
    if PrimFloat.eqb denominator 0 then 0%float
    else (numerator / denominator)%float.

Definition probabilityOfHitting (matches spotCount : Z) : float :=
  probabilityOfHitting_with matches spotCount 80 20.

Section Across.
Variable Math_pow : float -> Z -> float.

Definition probabilityAcrossGames (matches spotCount numGames : Z) : float :=
  let singleGameProb := probabilityOfHitting matches spotCount in
  let probNone := Math_pow (1 - singleGameProb)%float numGames in
  (1 - probNone)%float.
End Across.

End MathUtils.

(* ================================================================== *)
(** * Runtime of the analyzers: numbers, maps, arrays, objects *)
(* ================================================================== *)

(** ** Numbers: exact rationals with NaN and the infinities *)
Inductive num : Type :=
| Fin (q : Q)
| PInf
| NInf
| NaN.

(** What [toFixed] prints, as a numeral rather than its characters:
    [Digits d n] is the decimal string of [n / 10^d] with [d] fraction
    digits, [Plain q] the number [q] printed as it is. *)
Inductive numeral : Type :=
| Digits (fractionDigits : nat) (n : Z)
| Plain (q : Q)
| Str_Infinity (negative : bool)
| Str_NaN.

Module Num.

Definition of_Z (z : Z) : num := Fin (inject_Z z).

Definition Qpositive (q : Q) : bool := negb (Qle_bool q 0).
Definition Qnegative (q : Q) : bool := negb (Qle_bool 0 q).

(** Finite results are kept in lowest terms. There is no signed zero: a
  zero divisor counts as +0. *)
Definition add (x y : num) : num :=
match x, y with
| NaN, _ | _, NaN => NaN
| Fin a, Fin b => Fin (Qred (a + b))
| PInf, NInf | NInf, PInf => NaN
| PInf, _ | _, PInf => PInf
| NInf, _ | _, NInf => NInf
end.

Definition neg (x : num) : num :=
match x with
| Fin a => Fin (Qred (- a))
| PInf => NInf
| NInf => PInf
| NaN => NaN
end.

Definition sub (x y : num) : num := add x (neg y).

Definition infinity (negative : bool) : num := if negative then NInf else PInf.

Definition mul (x y : num) : num :=
match x, y with
| NaN, _ | _, NaN => NaN
| Fin a, Fin b => Fin (Qred (a * b))
| Fin a, PInf | PInf, Fin a =>
    if Qeq_bool a 0 then NaN else infinity (Qnegative a)
| Fin a, NInf | NInf, Fin a =>
    if Qeq_bool a 0 then NaN else infinity (Qpositive a)
| PInf, PInf | NInf, NInf => PInf
| PInf, NInf | NInf, PInf => NInf
end.

Definition div (x y : num) : num :=
match x, y with
| NaN, _ | _, NaN => NaN
| Fin a, Fin b =>
    if Qeq_bool b 0
    then (if Qeq_bool a 0 then NaN else infinity (Qnegative a))
    else Fin (Qred (a / b))
| Fin _, _ => Fin 0
| PInf, Fin b => infinity (Qnegative b)
| NInf, Fin b => infinity (Qpositive b)
| _, _ => NaN
end.

(** [x > 0], as a sort comparator's result is read. *)
Definition positive (x : num) : bool :=
match x with
| Fin q => Qpositive q
| PInf => true
| _ => false
end.

(** [x || 0]: 0 and NaN are falsy. *)
Definition or_zero (x : num) : num :=
match x with
| Fin q => if Qeq_bool q 0 then of_Z 0 else x
| NaN => of_Z 0
| _ => x
end.

Definition max2 (x y : num) : num :=
match x, y with
| NaN, _ | _, NaN => NaN
| PInf, _ | _, PInf => PInf
| NInf, z | z, NInf => z
| Fin a, Fin b => if Qle_bool a b then Fin b else Fin a
end.

(** The Number a printed numeral converts back to. *)
Definition Number (s : numeral) : num :=
match s with
| Digits d n => Fin (Qred (inject_Z n / inject_Z (10 ^ Z.of_nat d)))
| Plain q => Fin q
| Str_Infinity negative => infinity negative
| Str_NaN => NaN
end.

End Num.

(** [Math.max(...values)]: -Infinity for no argument, NaN if one is NaN. *)
Definition Math_max (values : list num) : num := fold_left Num.max2 values NInf.

(** [x.toFixed(fractionDigits)]: the integer [n] with [n / 10^f] nearest to
    [x], the larger on a tie, applied to |x| and signed afterwards; from
    10^21 on [toFixed] prints the number itself. *)
Definition toFixed (fractionDigits : nat) (x : num) : numeral :=
  match x with
  | NaN => Str_NaN
  | PInf => Str_Infinity false
  | NInf => Str_Infinity true
  | Fin q =>
      if Qle_bool (inject_Z (10 ^ 21)) (Qabs q) then Plain q
      else
        let n := Qfloor (Qabs q * inject_Z (10 ^ Z.of_nat fractionDigits) + (1 # 2)) in
        Digits fractionDigits (if Num.Qnegative q then - n else n)
  end.

(** ** [Map]: insertion-ordered, keys compared with SameValueZero *)
Class Key (K : Type) := key_eq_dec : forall x y : K, {x = y} + {x <> y}.

#[global] Instance Key_Z : Key Z := Z.eq_dec.
#[global] Instance Key_list_Z : Key (list Z) := list_eq_dec Z.eq_dec.

Definition Map (K V : Type) : Type := list (K * V).

Fixpoint Map_get {K V : Type} `{Key K} (m : Map K V) (k : K) : option V :=
  match m with
  | [] => None
  | (k', v) :: m' => if key_eq_dec k k' then Some v else Map_get m' k
  end.

(** [set] overwrites the value of a present key in place and appends a new
    key at the end. *)
Fixpoint Map_set {K V : Type} `{Key K} (m : Map K V) (k : K) (v : V) : Map K V :=
  match m with
  | [] => [(k, v)]
  | (k', v') :: m' =>
      if key_eq_dec k k' then (k', v) :: m' else (k', v') :: Map_set m' k v
  end.

(** [(m.get(k) || 0)] for integer values. *)
Definition get_or_0 {K : Type} `{Key K} (m : Map K Z) (k : K) : Z :=
  match Map_get m k with
  | Some v => v
  | None => 0
  end.

(** ** Arrays *)

(** [Zrange lo len] = [lo; lo+1; ...; lo+len-1]. *)
Definition Zrange (lo : Z) (len : nat) : list Z :=
  map (fun i => lo + Z.of_nat i) (seq 0 len).

(** [Array.prototype.sort(compareFn)]: a stable sort; [compareFn a b > 0]
    puts [a] after [b], a NaN result counts as 0. Stable insertion, which for
    a consistent comparator is the one order the language allows. *)
Section Sorting.
Context {A : Type} (compareFn : A -> A -> num).

Fixpoint insert_sorted (x : A) (l : list A) : list A :=
  match l with
  | [] => [x]
  | y :: l' =>
      if Num.positive (compareFn x y) then y :: insert_sorted x l'
      else x :: l
  end.

Definition Array_sort (l : list A) : list A := fold_right insert_sorted [] l.
End Sorting.

(** [array.slice(0, n)] and [array.slice(n)] for [n >= 0]. *)
Definition slice_to {A : Type} (n : nat) (l : list A) : list A := firstn n l.
Definition slice_from {A : Type} (n : nat) (l : list A) : list A := skipn n l.

(** [array.find(p)?.field || 0] on an integer field. *)
Definition find_or_0 {A : Type} (p : A -> bool) (field : A -> Z) (l : list A) : Z :=
  match find p l with
  | Some item => field item
  | None => 0
  end.

(** ** Objects *)

(** A property key: an array index (a canonical integer such as "37") or any
    other string. *)
Inductive key : Type :=
| Index (n : Z)
| Name (s : string).

(** An object: its own properties in creation order. *)
Definition object (V : Type) : Type := list (key * V).

Definition indices {V : Type} (o : object V) : list (Z * V) :=
  flat_map (fun kv => match fst kv with Index n => [(n, snd kv)] | Name _ => [] end) o.

Definition names {V : Type} (o : object V) : list (key * V) :=
  filter (fun kv => match fst kv with Index _ => false | Name _ => true end) o.

Definition ascending {V : Type} (l : list (Z * V)) : list (Z * V) :=
  Array_sort (fun a b => Num.of_Z (fst a - fst b)) l.

(** [Object.entries]: index keys in ascending numeric order, then the other
    keys in creation order. *)
Definition Object_entries {V : Type} (o : object V) : list (key * V) :=
  map (fun kv => (Index (fst kv), snd kv)) (ascending (indices o)) ++ names o.

Definition Object_keys {V : Type} (o : object V) : list key := map fst (Object_entries o).
Definition Object_values {V : Type} (o : object V) : list V := map snd (Object_entries o).

(** [o[k]] for an own key. *)
Definition key_eqb (a b : key) : bool :=
  match a, b with
  | Index m, Index n => m =? n
  | Name s, Name t => String.eqb s t
  | _, _ => false
  end.

Fixpoint property {V : Type} (o : object V) (k : key) : option V :=
  match o with
  | [] => None
  | (k', v) :: o' => if key_eqb k k' then Some v else property o' k
  end.

(* ================================================================== *)
(** * Draw histories *)
(* ================================================================== *)

(** The numbers of one game, in the order of the data, as integers. *)
Definition draw : Type := list Z.

(** The data of one location: an object from game number (or re-assigned
    id) to draw. Its keys are array indices, the integers from 0 to
    2^32 - 2, which [Object.entries] and [Object.values] list in ascending
    order; it is kept as the list of its (key, draw) properties in creation
    order. *)
Definition history : Type := list (Z * draw).

Definition entries (locationData : history) : list (Z * draw) := ascending locationData.
Definition values (locationData : history) : list draw := map snd (entries locationData).

(** [Object.entries(locationData).sort((a, b) => Number(b[0]) - Number(a[0]))] *)
Definition games_newest_first (locationData : history) : list (Z * draw) :=
  Array_sort (fun a b => Num.of_Z (fst b - fst a)) (entries locationData).

(** ** [processKenoData] *)
Record flattened := { kenoGameNumber : key; kenoGameStats : draw }.

(** [jsonData] is what [readData] returned: [None] for null, else the object
    from date to (object from game number to draw). [kenoGameNumber] holds
    the key that the source passes through [parseInt]; it is never read. *)
Definition processKenoData (jsonData : option (object (object draw))) : option history :=
  match jsonData with
  | None => None
  | Some jsonData =>
      let flattenedData :=
        flat_map
          (fun date =>
             match property jsonData date with
             | Some games =>
                 flat_map
                   (fun gameNumber =>
                      match property games gameNumber with
                      | Some stats =>
                          [{| kenoGameNumber := gameNumber; kenoGameStats := stats |}]
                      | None => []
                      end)
                   (Object_keys games)
             | None => []
             end)
          (rev (Object_keys jsonData)) in
      Some (combine (Zrange 1 (List.length flattenedData)) (map kenoGameStats flattenedData))
  end.

(* ================================================================== *)
(** * The analyzers of the page script *)
(* ================================================================== *)

(** An uncaught [TypeError] (a property read on [null]) ends a call. *)
Inductive outcome (A : Type) : Type :=
| Returned (a : A)
| Threw_TypeError.
Arguments Returned {A} a.
Arguments Threw_TypeError {A}.

(** ** [getNumberCounts] *)
Module NumberStat.
Record t := { number : Z; count : Z }.
End NumberStat.

(** [numberCounts.set(number, (numberCounts.get(number) || 0) + 1)] *)
Definition tally (numberCounts : Map Z Z) (number : Z) : Map Z Z :=
  Map_set numberCounts number (get_or_0 numberCounts number + 1).

Definition numberCounts_of (locationData : history) : Map Z Z :=
  fold_left (fun m gameData => fold_left tally gameData m) (values locationData) [].

Definition getNumberCounts (locationData : option history) : option (list NumberStat.t) :=
  match locationData with
  | None => None
  | Some locationData =>
      let sortedCounts :=
        Array_sort (fun a b => Num.of_Z (snd b - snd a)) (numberCounts_of locationData) in
      Some (map (fun e => {| NumberStat.number := fst e; NumberStat.count := snd e |})
                sortedCounts)
  end.

(** ** What [loadData] leaves in the globals for one location:
    [locationsData[location]], [locationsData[location + 'Counts']] and
    [allDataFromLocations[location]]. *)
Record loaded := {
  current : option history;
  Counts : option (list NumberStat.t);
  allData : option history
}.

Definition loadData (currentJson : option history)
    (allJson : option (object (object draw))) : loaded :=
  {| current := currentJson;
     Counts := getNumberCounts currentJson;
     allData := processKenoData allJson |}.

(** ** [analyzeNumberCombinations] and [analyzeNumberCombinationsOfAllData] *)

(** The index pairs [j < k] and triples [i < j < k] of an array, in the order
    of the nested loops. *)
Fixpoint pairs_after (l : list Z) : list (list Z) :=
  match l with
  | [] => []
  | b :: t => map (fun c => [b; c]) t ++ pairs_after t
  end.

Fixpoint triples (gameNumbers : list Z) : list (list Z) :=
  match gameNumbers with
  | [] => []
  | a :: t => map (cons a) (pairs_after t) ++ triples t
  end.

(** The map from combination to frequency. Its key is the joined string of
    the sorted triple, which for the non-negative numbers of a draw
    determines the triple: the key is kept as the triple. *)
Definition count_combo (m : Map (list Z) Z) (triple : list Z) : Map (list Z) Z :=
  let combo := Array_sort (fun a b => Num.of_Z (a - b)) triple in
  Map_set m combo (get_or_0 m combo + 1).

Definition combinationCounts (locationData : history) : Map (list Z) Z :=
  fold_left (fun m gameNumbers => fold_left count_combo (triples gameNumbers) m)
            (values locationData) [].

Module Scored.
Record t := { numbers : list Z; count : Z; individualScore : Z }.
End Scored.

Module Combination.
Record t := {
  numbers : list Z;
  occurrences : Z;
  confidence : numeral;
  avgIndividualFrequency : numeral
}.
End Combination.

(** [Counts.find(item => item.number === num)?.count || 0], summed over the
    three numbers. *)
Definition individualScore_of (Counts : list NumberStat.t) (combo : list Z) : Z :=
  fold_left
    (fun sum num =>
       sum + find_or_0 (fun item => NumberStat.number item =? num) NumberStat.count Counts)
    combo 0.

Definition by_count_then_score (a b : Scored.t) : num :=
  if negb (Scored.count b =? Scored.count a)
  then Num.of_Z (Scored.count b - Scored.count a)
  else Num.of_Z (Scored.individualScore b - Scored.individualScore a).

Definition sortedCombinations (locationData : history) (Counts : list NumberStat.t)
  : list Scored.t :=
  Array_sort by_count_then_score
    (map (fun e => {| Scored.numbers := fst e;
                      Scored.count := snd e;
                      Scored.individualScore := individualScore_of Counts (fst e) |})
         (combinationCounts locationData)).

Definition topCombinations (locationData : history) (Counts : list NumberStat.t)
  : list Combination.t :=
  let totalGames := Z.of_nat (List.length (entries locationData)) in
  map (fun combo =>
         {| Combination.numbers := Scored.numbers combo;
            Combination.occurrences := Scored.count combo;
            Combination.confidence :=
              toFixed 2 (Num.mul (Num.div (Num.of_Z (Scored.count combo))
                                          (Num.of_Z totalGames))
                                 (Num.of_Z 100));
            Combination.avgIndividualFrequency :=
              toFixed 2 (Num.div (Num.of_Z (Scored.individualScore combo))
                                 (Num.of_Z 3)) |})
      (slice_to 10 (sortedCombinations locationData Counts)).

(** Both functions run the same text; they differ in the history they read.
    Both read the counts of [locationsData[location + 'Counts']], and a null
    there is dereferenced as soon as one combination exists. *)
Definition combination_analysis (locationData : option history)
    (Counts : option (list NumberStat.t)) : outcome (option (list Combination.t)) :=
  match locationData with
  | None => Returned None
  | Some locationData =>
      match Counts with
      | Some Counts => Returned (Some (topCombinations locationData Counts))
      | None =>
          match combinationCounts locationData with
          | [] => Returned (Some [])
          | _ :: _ => Threw_TypeError
          end
      end
  end.

Definition analyzeNumberCombinations (g : loaded) : outcome (option (list Combination.t)) :=
  combination_analysis (current g) (Counts g).

Definition analyzeNumberCombinationsOfAllData (g : loaded)
  : outcome (option (list Combination.t)) :=
  combination_analysis (allData g) (Counts g).

(** ** [analyzeRecentTrends] *)
Module Trend.
Record t := { number : Z; recentFrequency : Z; momentum : num }.
End Trend.

Definition by_momentum (a b : Trend.t) : num := Num.sub (Trend.momentum b) (Trend.momentum a).

(** [windowSize] defaults to 10 and is not negative. *)
Definition analyzeRecentTrends (locationData : option history) (windowSize : Z)
  : option (list Trend.t) :=
  match locationData with
  | None => None
  | Some locationData =>
      let games :=
        flat_map snd (slice_to (Z.to_nat windowSize) (games_newest_first locationData)) in
      let recentCounts := fold_left tally games [] in
      Some (Array_sort by_momentum
              (map (fun e => {| Trend.number := fst e;
                                Trend.recentFrequency := snd e;
                                Trend.momentum :=
                                  Num.div (Num.of_Z (snd e)) (Num.of_Z windowSize) |})
                   recentCounts))
  end.

(** ** [analyzeNumberGaps] *)
Module Gap.
Record t := {
  number : Z;
  currentGap : option Z;
  averageGap : num;
  gapRatio : num
}.
End Gap.

(** The two maps of the scan. A recorded gap is [None] when
    [currentGaps.get(num)] was [undefined]. *)
Record gapState := {
  gapAnalysis : Map Z (list (option Z));
  currentGaps : Map Z Z
}.

(** [for (let i = 1; i <= 80; i++) currentGaps.set(i, 0)] *)
Definition initialGaps : gapState :=
  {| gapAnalysis := []; currentGaps := map (fun i => (i, 0)) (Zrange 1 80) |}.

Definition gaps_so_far (st : gapState) (num : Z) : list (option Z) :=
  match Map_get (gapAnalysis st) num with
  | Some gaps => gaps
  | None => []
  end.

Definition recordAppearance (st : gapState) (num : Z) : gapState :=
  let gap := Map_get (currentGaps st) num in
  {| gapAnalysis := Map_set (gapAnalysis st) num (gaps_so_far st num ++ [gap]);
     currentGaps := Map_set (currentGaps st) num 0 |}.

Definition scanGame (st : gapState) (numbers : draw) : gapState :=
  fold_left recordAppearance numbers
    {| gapAnalysis := gapAnalysis st;
       currentGaps := map (fun e => (fst e, snd e + 1)) (currentGaps st) |}.

Definition scanGames (locationData : history) : gapState :=
  fold_left scanGame (map snd (games_newest_first locationData)) initialGaps.

(** A value used as a Number: [undefined] converts to NaN. *)
Definition to_num (v : option Z) : num :=
  match v with
  | Some z => Num.of_Z z
  | None => NaN
  end.

Definition by_gapRatio (a b : Gap.t) : num := Num.sub (Gap.gapRatio b) (Gap.gapRatio a).

Definition gapRecord (st : gapState) (e : Z * list (option Z)) : Gap.t :=
  let avgGap :=
    Num.div (fold_left (fun sum gap => Num.add sum (to_num gap)) (snd e) (Num.of_Z 0))
            (Num.of_Z (Z.of_nat (List.length (snd e)))) in
  {| Gap.number := fst e;
     Gap.currentGap := Map_get (currentGaps st) (fst e);
     Gap.averageGap := avgGap;
     Gap.gapRatio := Num.div (to_num (Map_get (currentGaps st) (fst e))) avgGap |}.

Definition analyzeNumberGaps (locationData : option history) : option (list Gap.t) :=
  match locationData with
  | None => None
  | Some locationData =>
      let st := scanGames locationData in
      Some (Array_sort by_gapRatio (map (gapRecord st) (gapAnalysis st)))
  end.

(** ** [analyzeNumberGaps] on the draws as the data files hold them *)

(** An element of a draw in the JSON data: a Number (an integer) or a
    string. The scrapers write the text of the table cells, so the files
    hold each number as a string such as "5", and the page script never
    converts the draws. *)
Inductive value : Type :=
| JNumber (z : Z)
| JString (s : string).

(** SameValueZero, the equality of [Map] keys: a Number and a string are
    never the same key. *)
#[global] Instance Key_value : Key value.
Proof.
  intros x y. unfold Decidable.decidable. decide equality; [apply Z.eq_dec | apply string_dec].
Defined.

(** [Number(s)] on a string of decimal digits, the form of the data. *)
Definition digit_of (c : ascii) : option Z :=
  let n := Z.of_nat (nat_of_ascii c) in
  if (48 <=? n) && (n <=? 57) then Some (n - 48) else None.

Fixpoint digits_from (acc : Z) (s : string) : option Z :=
  match s with
  | EmptyString => Some acc
  | String c s' =>
      match digit_of c with
      | Some d => digits_from (10 * acc + d) s'
      | None => None
      end
  end.

Definition decimal (s : string) : num :=
  match digits_from 0 s with
  | Some z => Num.of_Z z
  | None => NaN
  end.

Module Values.

Definition draw : Type := list value.
Definition history : Type := list (Z * draw).

(** [Object.entries(locationData).sort((a, b) => Number(b[0]) - Number(a[0]))] *)
Definition games_newest_first (locationData : history) : list (Z * draw) :=
  Array_sort (fun a b => Num.of_Z (fst b - fst a)) (ascending locationData).

Module Gap.
Record t := {
  number : num;
  currentGap : option Z;
  averageGap : num;
  gapRatio : num
}.
End Gap.

Record gapState := {
  gapAnalysis : Map value (list (option Z));
  currentGaps : Map value Z
}.

(** [for (let i = 1; i <= 80; i++) currentGaps.set(i, 0)]: the keys are
    Numbers. *)
Definition initialGaps : gapState :=
  {| gapAnalysis := []; currentGaps := map (fun i => (JNumber i, 0)) (Zrange 1 80) |}.

Definition gaps_so_far (st : gapState) (num : value) : list (option Z) :=
  match Map_get (gapAnalysis st) num with
  | Some gaps => gaps
  | None => []
  end.

(** [num] is the element of the draw as it is. *)
Definition recordAppearance (st : gapState) (num : value) : gapState :=
  let gap := Map_get (currentGaps st) num in
  {| gapAnalysis := Map_set (gapAnalysis st) num (gaps_so_far st num ++ [gap]);
     currentGaps := Map_set (currentGaps st) num 0 |}.

Definition scanGame (st : gapState) (numbers : draw) : gapState :=
  fold_left recordAppearance numbers
    {| gapAnalysis := gapAnalysis st;
       currentGaps := map (fun e => (fst e, snd e + 1)) (currentGaps st) |}.

Definition scanGames (locationData : history) : gapState :=
  fold_left scanGame (map snd (games_newest_first locationData)) initialGaps.

Definition by_gapRatio (a b : Gap.t) : num := Num.sub (Gap.gapRatio b) (Gap.gapRatio a).

Section Conversion.
(** [Number(s)] for a string [s]. *)
Variable StringToNumber : string -> num.

Definition Number (v : value) : num :=
  match v with
  | JNumber z => Num.of_Z z
  | JString s => StringToNumber s
  end.

(** The key that a Number is in a [Map] of draw elements: an integer is
    the key [JNumber]; no draw element is another Number. *)
Definition number_key (x : num) : option value :=
  match x with
  | Fin q => if Qeq_bool (inject_Z (Qfloor q)) q then Some (JNumber (Qfloor q)) else None
  | _ => None
  end.

(** [currentGaps.get(Number(number))] *)
Definition current_of (st : gapState) (number : value) : option Z :=
  match number_key (Number number) with
  | Some k => Map_get (currentGaps st) k
  | None => None
  end.

Definition gapRecord (st : gapState) (e : value * list (option Z)) : Gap.t :=
  let avgGap :=
    Num.div (fold_left (fun sum gap => Num.add sum (to_num gap)) (snd e) (Num.of_Z 0))
            (Num.of_Z (Z.of_nat (List.length (snd e)))) in
  {| Gap.number := Number (fst e);
     Gap.currentGap := current_of st (fst e);
     Gap.averageGap := avgGap;
     Gap.gapRatio := Num.div (to_num (current_of st (fst e))) avgGap |}.

Definition analyzeNumberGaps (locationData : option history) : option (list Gap.t) :=
  match locationData with
  | None => None
  | Some locationData =>
      let st := scanGames locationData in
      Some (Array_sort by_gapRatio (map (gapRecord st) (gapAnalysis st)))
  end.
End Conversion.

End Values.

(** ** [analyzeHotColdPatterns] *)
Module HotCold.
Record t := { number : Z; weightedScore : Z; recentPerformance : num }.
End HotCold.

Definition by_weightedScore (a b : HotCold.t) : num :=
  Num.of_Z (HotCold.weightedScore b - HotCold.weightedScore a).

Definition weigh (weight : Z) (numberAnalysis : Map Z Z) (num : Z) : Map Z Z :=
  Map_set numberAnalysis num (get_or_0 numberAnalysis num + weight).

(** [recentWeight] defaults to 2. *)
Definition analyzeHotColdPatterns (locationData : option history) (recentWeight : Z)
  : option (list HotCold.t) :=
  match locationData with
  | None => None
  | Some locationData =>
      let games := games_newest_first locationData in
      let recentGames := slice_to 20 games in
      let olderGames := slice_from 20 games in
      let afterRecent :=
        fold_left (fun m game => fold_left (weigh recentWeight) (snd game) m) recentGames [] in
      let numberAnalysis :=
        fold_left (fun m game => fold_left (weigh 1) (snd game) m) olderGames afterRecent in
      Some (Array_sort by_weightedScore
              (map (fun e =>
                      {| HotCold.number := fst e;
                         HotCold.weightedScore := snd e;
                         HotCold.recentPerformance :=
                           Num.div
                             (Num.of_Z
                                (Z.of_nat
                                   (List.length
                                      (filter (fun game => existsb (Z.eqb (fst e)) (snd game))
                                              recentGames))))
                             (Num.of_Z 20) |})
                   numberAnalysis))
  end.

(** ** [generatePredictions] *)
(** [confidence] is the numeral before the '%' that the source appends. *)
Module Prediction.
Record t := {
  number : Z;
  score : numeral;
  confidence : numeral;
  recentTrend : num;
  gapAnalysis : num;
  hotColdScore : num
}.
End Prediction.

(** [normalizeScores(array, scoreKey)], with the records read through their
    [number] and [scoreKey] fields. *)
Definition normalizeScores {A : Type} (number : A -> Z) (scoreKey : A -> num)
    (array : list A) : list (Z * num) :=
  let max := Math_max (map scoreKey array) in
  map (fun item => (number item, Num.div (scoreKey item) max)) array.

(** [combinedScores.set(number, (combinedScores.get(number) || 0) + score * weight)] *)
Definition accumulate (weight : num) (combinedScores : Map Z num) (item : Z * num)
  : Map Z num :=
  let previous :=
    match Map_get combinedScores (fst item) with
    | Some v => Num.or_zero v
    | None => Num.of_Z 0
    end in
  Map_set combinedScores (fst item) (Num.add previous (Num.mul (snd item) weight)).

Definition weight_trends : num := Fin (2 # 5).
Definition weight_gaps : num := Fin (3 # 10).
Definition weight_hotCold : num := Fin (3 # 10).

Definition combinedScores_of (recentTrends : list Trend.t) (gapAnalysis : list Gap.t)
    (hotCold : list HotCold.t) : Map Z num :=
  let normalizedTrends := normalizeScores Trend.number Trend.momentum recentTrends in
  let normalizedGaps := normalizeScores Gap.number Gap.gapRatio gapAnalysis in
  let normalizedHotCold :=
    normalizeScores HotCold.number (fun h => Num.of_Z (HotCold.weightedScore h)) hotCold in
  fold_left (accumulate weight_hotCold) normalizedHotCold
    (fold_left (accumulate weight_gaps) normalizedGaps
       (fold_left (accumulate weight_trends) normalizedTrends [])).

Definition by_score (a b : Prediction.t) : num :=
  Num.sub (Num.Number (Prediction.score b)) (Num.Number (Prediction.score a)).

(** [array.find(p)?.field || 0] on a Number field. *)
Definition find_num_or_0 {A : Type} (p : A -> bool) (field : A -> num) (l : list A) : num :=
  match find p l with
  | Some item => Num.or_zero (field item)
  | None => Num.of_Z 0
  end.

Definition predictions_of (recentTrends : list Trend.t) (gapAnalysis : list Gap.t)
    (hotCold : list HotCold.t) : list Prediction.t :=
  slice_to 10
    (Array_sort by_score
       (map (fun e =>
               {| Prediction.number := fst e;
                  Prediction.score := toFixed 3 (snd e);
                  Prediction.confidence := toFixed 1 (Num.mul (snd e) (Num.of_Z 100));
                  Prediction.recentTrend :=
                    find_num_or_0 (fun t => Trend.number t =? fst e) Trend.momentum
                                  recentTrends;
                  Prediction.gapAnalysis :=
                    find_num_or_0 (fun g => Gap.number g =? fst e) Gap.gapRatio gapAnalysis;
                  Prediction.hotColdScore :=
                    find_num_or_0 (fun h => HotCold.number h =? fst e)
                                  (fun h => Num.of_Z (HotCold.weightedScore h)) hotCold |})
            (combinedScores_of recentTrends gapAnalysis hotCold))).

(** The three analyzers return null for a location without data, and
    [normalizeScores] then reads [null.map]. *)
Definition generatePredictions (locationData : option history)
  : outcome (list Prediction.t) :=
  match analyzeRecentTrends locationData 10,
        analyzeNumberGaps locationData,
        analyzeHotColdPatterns locationData 2 with
  | Some recentTrends, Some gapAnalysis, Some hotCold =>
      Returned (predictions_of recentTrends gapAnalysis hotCold)
  | _, _, _ => Threw_TypeError
  end.

(* ================================================================== *)
(** * Further functions of the page script and of the utility modules *)
(* ================================================================== *)

(** ** [analyzeStreaks] *)
Module Streak.
Record t := { current : Z; max : Z }.
End Streak.

Module StreakStat.
Record t := { number : Z; maxStreak : Z }.
End StreakStat.

(** [if (!streaks.has(num)) streaks.set(num, { current: 0, max: 0 });
     streaks.get(num).current += 1;
     streaks.get(num).max = Math.max(streaks.get(num).current, streaks.get(num).max)]:
    the object of a present key is updated where it is, a new key goes to
    the end. *)
Definition extendStreak (streaks : Map Z Streak.t) (num : Z) : Map Z Streak.t :=
  let streak :=
    match Map_get streaks num with
    | Some streak => streak
    | None => {| Streak.current := 0; Streak.max := 0 |}
    end in
  let current := Streak.current streak + 1 in
  Map_set streaks num
    {| Streak.current := current; Streak.max := Z.max current (Streak.max streak) |}.

(** [streaks.forEach((streak, num) => { if (!numbers.includes(num)) streak.current = 0; })] *)
Definition resetMissing (numbers : draw) (streaks : Map Z Streak.t) : Map Z Streak.t :=
  map (fun e =>
         if existsb (Z.eqb (fst e)) numbers then e
         else (fst e, {| Streak.current := 0; Streak.max := Streak.max (snd e) |}))
      streaks.

Definition streakGame (streaks : Map Z Streak.t) (numbers : draw) : Map Z Streak.t :=
  resetMissing numbers (fold_left extendStreak numbers streaks).

Definition by_maxStreak (a b : StreakStat.t) : num :=
  Num.of_Z (StreakStat.maxStreak b - StreakStat.maxStreak a).

(** [analyzeStreaksOfAllData] has the same text and reads the same
    [locationsData[location]]. *)
Definition analyzeStreaks (locationData : option history) : option (list StreakStat.t) :=
  match locationData with
  | None => None
  | Some locationData =>
      let streaks := fold_left streakGame (values locationData) [] in
      Some (Array_sort by_maxStreak
              (map (fun e => {| StreakStat.number := fst e;
                                StreakStat.maxStreak := Streak.max (snd e) |})
                   streaks))
  end.

(** ** [getCombinations] and [generateNumberCombinations] of MathUtils.js *)

(** What the nested [combine(start, combo)] pushes, as the parts added to [combo]:
    [arr] is what is left of the array from [start] on and [missing] is
    [size - combo.length]. A full [combo] is pushed as it is; otherwise
    each element left is taken in turn, followed by the combinations of the
    elements after it. (The name [combine] is taken by the lists.) *)
Fixpoint combine_from {A : Type} (arr : list A) (missing : nat) : list (list A) :=
  match arr, missing with
  | _, O => [[]]
  | [], S _ => []
  | x :: rest, S missing' => map (cons x) (combine_from rest missing') ++ combine_from rest missing
  end.

(** A negative [size] is never reached by [combo.length]: nothing is
    pushed. *)
Definition getCombinations {A : Type} (arr : list A) (size : Z) : list (list A) :=
  if size <? 0 then [] else combine_from arr (Z.to_nat size).

(** [Array.from({ length: n }, (_, i) => i + 1)] is empty for [n <= 0]. *)
Definition generateNumberCombinations (n k : Z) : list (list Z) :=
  getCombinations (Zrange 1 (Z.to_nat n)) k.

(** ** [analyzeNumberCoOccurrence] *)
Module CoOccurrence.
Record t := { pair : list Z; frequency : Z }.
End CoOccurrence.

(** [coOccurrenceMap.set(key, (coOccurrenceMap.get(key) || 0) + 1)] for the
    sorted pair; as with the triples, the joined key is kept as the pair,
    which it determines when no number is negative. *)
Definition count_pair (m : Map (list Z) Z) (numbers : list Z) : Map (list Z) Z :=
  let key := Array_sort (fun a b => Num.of_Z (a - b)) numbers in
  Map_set m key (get_or_0 m key + 1).

Definition coOccurrenceMap (locationData : history) : Map (list Z) Z :=
  fold_left (fun m numbers => fold_left count_pair (pairs_after numbers) m)
            (values locationData) [].

Definition by_frequency (a b : CoOccurrence.t) : num :=
  Num.of_Z (CoOccurrence.frequency b - CoOccurrence.frequency a).

Definition analyzeNumberCoOccurrence (locationData : option history)
  : option (list CoOccurrence.t) :=
  match locationData with
  | None => None
  | Some locationData =>
      Some (Array_sort by_frequency
              (map (fun e => {| CoOccurrence.pair := fst e; CoOccurrence.frequency := snd e |})
                   (coOccurrenceMap locationData)))
  end.

(** ** [analyzeNumberCoOccurrenceOfAllData], as the page script has it now *)

(** [game.numbers] for a game that is an array of numbers: an array has no
    property of that name, the read gives [undefined]. *)
Definition numbers_property (game : draw) : option draw := None.

(** [if (!game || !Array.isArray(game.numbers)) return;] skips the game; an
    array, even an empty one, is truthy. *)
Definition analyzeNumberCoOccurrenceOfAllData (g : loaded) : option (list CoOccurrence.t) :=
  match allData g with
  | None => None
  | Some locationData =>
      let coOccurrenceMap :=
        fold_left
          (fun m game =>
             match numbers_property game with
             | Some numbers => fold_left count_pair (pairs_after numbers) m
             | None => m
             end)
          (values locationData) [] in
      Some (Array_sort by_frequency
              (map (fun e => {| CoOccurrence.pair := fst e; CoOccurrence.frequency := snd e |})
                   coOccurrenceMap))
  end.

(** ** [DataLoader.processKenoData] of DataLoader.js *)
Module DataLoader.

Record game := { date : key; gameNumber : key; numbers : draw }.

(** [x !== y] on Numbers: NaN differs from everything. *)
Definition differs (x y : num) : bool :=
  match x, y with
  | Fin a, Fin b => negb (Qeq_bool a b)
  | PInf, PInf | NInf, NInf => false
  | _, _ => true
  end.

Section Parsing.
(** [new Date(string).getTime()] is left to the engine for strings that are
    not in the ISO format, and gives NaN for the ones it rejects; [parseInt]
    of a key that is not an array index is a parameter as well. *)
Variable Date_getTime : key -> num.
Variable parseInt_name : string -> num.

(** [parseInt(gameNumber)]: an array index is its own value. *)
Definition parseInt (k : key) : num :=
  match k with
  | Index n => Num.of_Z n
  | Name s => parseInt_name s
  end.

Definition newest_first (a b : game) : num :=
  let dateA := Date_getTime (date a) in
  let dateB := Date_getTime (date b) in
  if differs dateA dateB then Num.sub dateB dateA
  else Num.sub (parseInt (gameNumber b)) (parseInt (gameNumber a)).

(** The games of all dates, in the order of [Object.keys(jsonData)] and
    [Object.entries(gamesForDate)]. The numbers of a draw are integers, which
    [parseInt(num, 10)] gives back. *)
Definition flattened (jsonData : object (object draw)) : list game :=
  flat_map
    (fun date =>
       match property jsonData date with
       | Some gamesForDate =>
           map (fun e => {| date := date; gameNumber := fst e; numbers := snd e |})
               (Object_entries gamesForDate)
       | None => []
       end)
    (Object_keys jsonData).

Definition processKenoData (jsonData : option (object (object draw))) : list game :=
  match jsonData with
  | None => []
  | Some jsonData => Array_sort newest_first (flattened jsonData)
  end.
End Parsing.

(** The time of a date that parses, and the number of a game whose key is
    an array index. *)
Definition time_of (Date_getTime : key -> num) (g : game) : Q :=
  match Date_getTime (date g) with
  | Fin t => t
  | _ => 0
  end.

Definition number_of (g : game) : Z :=
  match gameNumber g with
  | Index n => n
  | Name _ => 0
  end.

Definition well_dated (Date_getTime : key -> num) (g : game) : Prop :=
  (exists t, Date_getTime (date g) = Fin t) /\ exists n, gameNumber g = Index n.

(** [a] is listed before [b]: a later date, or the same date and a game
    number that is not lower. *)
Definition not_older (Date_getTime : key -> num) (a b : game) : Prop :=
  (time_of Date_getTime b < time_of Date_getTime a)%Q \/
  ((time_of Date_getTime a == time_of Date_getTime b)%Q /\ number_of a >= number_of b).

End DataLoader.

(** ** ArrayUtils.js *)

(** [arr.slice(start, end)] for integer bounds: a negative bound counts from
    the end, and both are clamped to the array. *)
Definition slice_index (len k : Z) : Z :=
  if k <? 0 then Z.max (len + k) 0 else Z.min k len.

Definition Array_slice {A : Type} (arr : list A) (start stop : Z) : list A :=
  let len := Z.of_nat (List.length arr) in
  let from := slice_index len start in
  let to := slice_index len stop in
  firstn (Z.to_nat (to - from)) (skipn (Z.to_nat from) arr).

Module ArrayUtils.

(** The records [{ value, count }] of [frequencyDistribution]. *)
Module Frequency.
Record t (A : Type) := { value : A; count : Z }.
Arguments value {A} _.
Arguments count {A} _.
End Frequency.

Section Elements.
(** The elements are values that [Set] and [includes] compare with
    SameValueZero. *)
Context {A : Type} `{Key A}.

(** [set.add(x)]: a [Set] keeps insertion order. *)
Definition Set_add (set : list A) (x : A) : list A :=
  if in_dec key_eq_dec x set then set else set ++ [x].

(** [new Set(arr)]; [set.has(x)] and [arr.includes(x)] *)
Definition Set_of (arr : list A) : list A := fold_left Set_add arr [].
Definition has (set : list A) (x : A) : bool :=
  if in_dec key_eq_dec x set then true else false.

Definition unique (arr : list A) : list A := Set_of arr.

(** [intersection(...arrays)] *)
Definition intersection (arrays : list (list A)) : list A :=
  match arrays with
  | [] => []
  | [first] => unique first
  | first :: rest => filter (fun value => forallb (fun arr => has arr value) rest) (unique first)
  end.

Definition difference (arr1 arr2 : list A) : list A :=
  let set2 := Set_of arr2 in
  filter (fun item => negb (has set2 item)) arr1.

Definition symmetricDifference (arr1 arr2 : list A) : list A :=
  difference arr1 arr2 ++ difference arr2 arr1.

(** [{ matches: unique(matches), count: matches.length }] *)
Record matched := { matches : list A; count : Z }.

Definition findMatches (arr1 arr2 : list A) : matched :=
  let set2 := Set_of arr2 in
  let matches := filter (fun item => has set2 item) arr1 in
  {| matches := unique matches; count := Z.of_nat (List.length matches) |}.

(** [counts.set(item, (counts.get(item) || 0) + 1)] for each item. *)
Definition countOccurrences (arr : list A) : Map A Z :=
  fold_left (fun counts item => Map_set counts item (get_or_0 counts item + 1)) arr [].

(** [counts.get(item) >= minCount]: for a missing key [get] gives
    [undefined], and the test is false. *)
Definition filterByFrequency (arr : list A) (minCount : Z) : list A :=
  let counts := countOccurrences arr in
  filter (fun item => match Map_get counts item with
                      | Some c => minCount <=? c
                      | None => false
                      end) arr.

Definition by_count (descending : bool) (a b : Frequency.t A) : num :=
  if descending then Num.of_Z (Frequency.count b - Frequency.count a)
  else Num.of_Z (Frequency.count a - Frequency.count b).

Definition frequencyDistribution (arr : list A) (descending : bool) : list (Frequency.t A) :=
  let counts := countOccurrences arr in
  let distribution :=
    map (fun e => {| Frequency.value := fst e; Frequency.count := snd e |}) counts in
  Array_sort (by_count descending) distribution.
End Elements.

(** [chunk(arr, size)] for an integer [size]. The loop
    [for (let i = 0; i < arr.length; i += size)] is run for at most [fuel]
    tests of its condition: [None] when it has not ended by then. *)
Fixpoint chunk_loop {A : Type} (fuel : nat) (arr : list A) (size i : Z)
    (chunks : list (list A)) : option (list (list A)) :=
  match fuel with
  | O => None
  | S fuel' =>
      if i <? Z.of_nat (List.length arr)
      then chunk_loop fuel' arr size (i + size) (chunks ++ [Array_slice arr i (i + size)])
      else Some chunks
  end.

Definition chunk {A : Type} (fuel : nat) (arr : list A) (size : Z) : option (list (list A)) :=
  chunk_loop fuel arr size 0 [].

(** [rotate(arr, n)] for an integer [n]; [%] is the remainder with the sign
    of the dividend. On an empty array [n % len] is NaN, and so is
    [offset], which [slice] reads as 0. [arr.slice(-offset)] runs to the
    end of the array. *)
Definition rotate {A : Type} (arr : list A) (n : Z) : list A :=
  let len := Z.of_nat (List.length arr) in
  let offset := if len =? 0 then 0 else Z.rem (Z.rem n len + len) len in
  Array_slice arr (- offset) len ++ Array_slice arr 0 (- offset).

(** [slidingWindow(arr, windowSize, step)] for integer arguments:
    [for (let i = 0; i <= arr.length - windowSize; i += step)]. *)
Fixpoint slidingWindow_loop {A : Type} (fuel : nat) (arr : list A) (windowSize step i : Z)
    (windows : list (list A)) : option (list (list A)) :=
  match fuel with
  | O => None
  | S fuel' =>
      if i <=? Z.of_nat (List.length arr) - windowSize
      then slidingWindow_loop fuel' arr windowSize step (i + step)
             (windows ++ [Array_slice arr i (i + windowSize)])
      else Some windows
  end.

Definition slidingWindow {A : Type} (fuel : nat) (arr : list A) (windowSize step : Z)
  : option (list (list A)) :=
  slidingWindow_loop fuel arr windowSize step 0 [].

(** [range(start, end, step)] for integer arguments. *)
Fixpoint range_up (fuel : nat) (i end_ step : Z) (result : list Z) : option (list Z) :=
  match fuel with
  | O => None
  | S fuel' =>
      if i <? end_ then range_up fuel' (i + step) end_ step (result ++ [i])
      else Some result
  end.

Fixpoint range_down (fuel : nat) (i end_ step : Z) (result : list Z) : option (list Z) :=
  match fuel with
  | O => None
  | S fuel' =>
      if i >? end_ then range_down fuel' (i + step) end_ step (result ++ [i])
      else Some result
  end.

Definition range (fuel : nat) (start end_ step : Z) : option (list Z) :=
  if step >? 0 then range_up fuel start end_ step []
  else range_down fuel start end_ step [].
End ArrayUtils.

(** ** MathUtils.js: [jaccardSimilarity] on two arrays (a [Set] argument is
    an array without duplicates). The sizes are integers; their quotient
    is kept as an exact rational. *)
Definition jaccardSimilarity {A : Type} `{Key A} (set1 set2 : list A) : num :=
  let s1 := ArrayUtils.Set_of set1 in
  let s2 := ArrayUtils.Set_of set2 in
  let intersection := ArrayUtils.Set_of (filter (fun x => ArrayUtils.has s2 x) s1) in
  let union := ArrayUtils.Set_of (s1 ++ s2) in
  if Z.of_nat (List.length union) =? 0 then Num.of_Z 0
  else Num.div (Num.of_Z (Z.of_nat (List.length intersection)))
               (Num.of_Z (Z.of_nat (List.length union))).

(* ================================================================== *)
(** * Notions used to state the properties *)
(* ================================================================== *)

(** ** Reference values for the combinatorics engine *)

(** A power function for integer exponents by repeated multiplication. At
    exponent 1 it returns its base, as every engine's [Math.pow] does; it
    instantiates the parameter of [probabilityAcrossGames] where a concrete
    one is wanted. *)
Definition pow_by_multiplication (x : float) (n : Z) : float :=
  if n =? 0 then 1%float
  else if 0 <? n then Z.iter (n - 1) (fun acc => (acc * x)%float) x
  else (1 / Z.iter (- n - 1) (fun acc => (acc * x)%float) x)%float.

(** The exact binomial coefficient, read off Pascal's triangle: row [n + 1]
    is row [n] shifted and added to itself. *)
Fixpoint add_rows (r1 r2 : list Z) : list Z :=
  match r1, r2 with
  | a :: r1', b :: r2' => (a + b) :: add_rows r1' r2'
  | _, _ => []
  end.

Fixpoint pascal_row (n : nat) : list Z :=
  match n with
  | O => [1]
  | S n' => let r := pascal_row n' in add_rows (0 :: r) (r ++ [0])
  end.

Definition binomial (n k : Z) : Z :=
  if (n <? 0) || (k <? 0) then 0
  else nth (Z.to_nat k) (pascal_row (Z.to_nat n)) 0.

(** [1 - (1 - p)], what [probabilityAcrossGames] computes for one game. *)
Definition round_trip (p : float) : float := (1 - (1 - p))%float.

Definition all_numbers (locationData : history) : list Z := List.concat (values locationData).

Definition first_seen (l : list Z) : list Z :=
  fold_left (fun seen x => if in_dec Z.eq_dec x seen then seen else seen ++ [x]) l [].

Definition occurrences (l : list Z) (x : Z) : Z := Z.of_nat (count_occ Z.eq_dec l x).

Definition two_dates : object (object draw) :=
  [ (Name "2025-01-01", [ (Index 1, [1; 2; 3]); (Index 2, [4; 5; 6]) ]);
    (Name "2025-01-02", [ (Index 1, [7; 8; 9]); (Index 2, [10; 11; 12]) ]) ].

Definition two_dates_listed_downwards : object (object draw) :=
  [ (Name "2025-01-01", [ (Index 2, [4; 5; 6]); (Index 1, [1; 2; 3]) ]);
    (Name "2025-01-02", [ (Index 2, [10; 11; 12]); (Index 1, [7; 8; 9]) ]) ].

Definition appears (locationData : history) (x : Z) : Prop :=
  exists game, In game locationData /\ In x (snd game).

Definition in_pool (x : Z) : Prop := 1 <= x <= 80.

(** A finite Number that is not negative, or positive. *)
Definition finite_nonneg (x : num) : Prop := exists q, x = Fin q /\ (0 <= q)%Q.
Definition finite_pos (x : num) : Prop := exists q, x = Fin q /\ (0 < q)%Q.

(** The gaps recorded for a pool number: the first is at least 1. *)
Definition good_gaps (gaps : list (option Z)) : Prop :=
  exists g0 rest,
    gaps = Some g0 :: rest /\ 1 <= g0 /\
    Forall (fun g => exists z, g = Some z /\ 0 <= z) rest.

Definition counters_ok (strict : bool) (st : gapState) : Prop :=
  forall x, in_pool x ->
    exists c, Map_get (currentGaps st) x = Some c /\ 0 <= c /\
      match Map_get (gapAnalysis st) x with
      | Some gaps => good_gaps gaps
      | None => if strict then 1 <= c else True
      end.

(** A printed score in [0, 1] and a printed percentage of at most 100. *)
Definition unit_score (s : numeral) : Prop :=
  exists n, s = Digits 3 n /\ 0 <= n <= 1000.

Definition at_most_100_percent (s : numeral) : Prop :=
  exists n, s = Digits 1 n /\ 0 <= n <= 1000.

Definition nonnegative (x : num) : bool :=
  match x with
  | Fin q => Qle_bool 0 q
  | _ => false
  end.

(** The values of a metric set: every one a non-negative Number, the largest
    positive (so the set is not empty). *)
Definition well_scaled (values : list num) : bool :=
  forallb nonnegative values && Num.positive (Math_max values).

(** Entries of [combinedScores] between 0 and [bound]; those whose key is
    still [pending] in the running pass are at most [before]. *)
Definition scores_within (before bound : Q) (pending : list Z) (m : Map Z num) : Prop :=
  forall k v, In (k, v) m ->
    exists q, v = Fin q /\ (0 <= q)%Q /\ (q <= bound)%Q /\
              (In k pending -> (q <= before)%Q).

(** The keys in [keys] hold no NaN in [m]. *)
Definition settled (keys : list Z) (m : Map Z num) : Prop :=
  forall k v, In k keys -> Map_get m k = Some v -> v <> NaN.

Definition ten_empty_games_after_one : history :=
  (1, [5]) :: map (fun id => (id, [])) (Zrange 2 10).

Definition two_games : history := [ (1, [2]); (2, [1]) ].

(** The mean of the occurrence counts of [numbers] over the history
    [locationData], as [toFixed(2)] prints it. *)
Definition mean_frequency (locationData : history) (numbers : list Z) : numeral :=
  toFixed 2
    (Num.div
       (Num.of_Z (fold_left (fun sum x => sum + occurrences (all_numbers locationData) x)
                            numbers 0))
       (Num.of_Z 3)).

Definition one_game_today : history := [ (1, [1; 2; 3]) ].
Definition one_game_before : object (object draw) :=
  [ (Name "2025-01-01", [ (Index 1, [4; 5; 6]) ]) ].

(** An object has one property per key. *)
Definition distinct_keys {V : Type} (o : object V) : Prop := NoDup (map fst o).

Definition well_formed (jsonData : object (object draw)) : Prop :=
  distinct_keys jsonData /\
  forall date games, In (date, games) jsonData -> distinct_keys games.

(** ** Notions for the further properties *)

(** The sum of a list of integers. *)
Definition total (l : list Z) : Z := fold_right Z.add 0 l.

(** How often a key occurs in a list of keys. *)
Definition key_count {K : Type} `{Key K} (l : list K) (k : K) : Z :=
  Z.of_nat (count_occ key_eq_dec l k).

(** [numbers.includes(x)] *)
Definition includes (numbers : draw) (x : Z) : bool := existsb (Z.eqb x) numbers.

(** The numbers of a list of games, one game after the other. *)
Definition numbers_of (games : list (Z * draw)) : list Z := List.concat (map snd games).

(** No game of the history lists a number twice. *)
Definition duplicate_free (locationData : history) : Prop :=
  forall game, In game locationData -> NoDup (snd game).

(** [m] games in a row, from index [i] on, hold [x]. *)
Definition streak_at (x : Z) (draws : list draw) (i m : nat) : Prop :=
  (i + m <= List.length draws)%nat /\
  forall j, (i <= j < i + m)%nat -> In x (nth j draws []).

(** [m] is the length of the longest run of games that hold [x]. *)
Definition longest_streak (x : Z) (draws : list draw) (m : Z) : Prop :=
  0 <= m /\
  (exists i, streak_at x draws i (Z.to_nat m)) /\
  forall i m', streak_at x draws i m' -> Z.of_nat m' <= m.

(** The streak of [x] after the games [draws]: [c] games at the end hold
    [x] and no more, and [b] is the longest run. *)
Definition streak_state (x : Z) (draws : list draw) (c b : Z) : Prop :=
  0 <= c <= Z.of_nat (List.length draws) /\
  streak_at x draws (List.length draws - Z.to_nat c) (Z.to_nat c) /\
  (forall i m, streak_at x draws i m -> (i + m)%nat = List.length draws -> Z.of_nat m <= c) /\
  longest_streak x draws b.

(** The streak object of [x], or the one it would start with. *)
Definition streak_of (streaks : Map Z Streak.t) (x : Z) : Streak.t :=
  match Map_get streaks x with
  | Some streak => streak
  | None => {| Streak.current := 0; Streak.max := 0 |}
  end.

(** [s] is [l] with some elements left out. *)
Inductive subsequence {A : Type} : list A -> list A -> Prop :=
| subsequence_nil : subsequence [] []
| subsequence_take (x : A) (s l : list A) : subsequence s l -> subsequence (x :: s) (x :: l)
| subsequence_skip (x : A) (s l : list A) : subsequence s l -> subsequence s (x :: l).

(** [combo.sort((a, b) => a - b)] *)
Definition sort_numbers (numbers : list Z) : list Z :=
  Array_sort (fun a b => Num.of_Z (a - b)) numbers.

(** A list of numbers in strictly ascending order. *)
Definition ascending_numbers (numbers : list Z) : Prop := StronglySorted Z.lt numbers.

(** The game holds every number of [key]. *)
Definition holds_all (key : list Z) (numbers : draw) : bool :=
  forallb (includes numbers) key.

(** In how many games all the numbers of [key] come together. *)
Definition games_with (locationData : history) (key : list Z) : Z :=
  Z.of_nat (List.length (filter (holds_all key) (values locationData))).

(** A Number that is NaN or lies between 0 and [bound]. *)
Definition NaN_or_within (bound : Q) (v : num) : Prop :=
  v = NaN \/ exists q, v = Fin q /\ (0 <= q <= bound)%Q.

(** A Number that is NaN or finite and not negative. *)
Definition NaN_or_nonneg (v : num) : Prop :=
  v = NaN \/ exists q, v = Fin q /\ (0 <= q)%Q.

(** Entries of [combinedScores] that are NaN or between 0 and [bound];
    those whose key is still [pending] in the running pass are at most
    [before]. *)
Definition scores_loose (before bound : Q) (pending : list Z) (m : Map Z num) : Prop :=
  forall k v, In (k, v) m ->
    v = NaN \/
    exists q, v = Fin q /\ (0 <= q)%Q /\ (q <= bound)%Q /\ (In k pending -> (q <= before)%Q).

(** The digits of a printed score, as an integer. *)
Definition digits_of (s : numeral) : Z :=
  match s with
  | Digits _ n => n
  | _ => 0
  end.

(** A number outside 1..80 has no counter until it appears, so the first
    gap recorded for it is [undefined]. *)
Definition outside_ok (st : gapState) (x : Z) : Prop :=
  (Map_get (gapAnalysis st) x = None /\ Map_get (currentGaps st) x = None) \/
  exists rest, Map_get (gapAnalysis st) x = Some (None :: rest).

(** A reading of the dates of [two_dates], in days. *)
Definition days_since_2025 (date : key) : num :=
  match date with
  | Name "2025-01-01" => Fin 1
  | Name "2025-01-02" => Fin 2
  | _ => NaN
  end.

(** [chunked n chunks]: every chunk but the last has [n] elements, and the
    last has between 1 and [n]. *)
Fixpoint chunked {A : Type} (n : nat) (chunks : list (list A)) : Prop :=
  match chunks with
  | [] => True
  | c :: rest =>
      match rest with
      | [] => (0 < List.length c <= n)%nat
      | _ :: _ => List.length c = n /\ chunked n rest
      end
  end.

(** [observed locationData v]: some draw of the history holds the value. *)
Definition observed (locationData : Values.history) (v : value) : Prop :=
  exists game, In game locationData /\ In v (snd game).

(** The draws hold strings only, as in the data files. *)
Definition strings_only (locationData : Values.history) : Prop :=
  forall game v, In game locationData -> In v (snd game) -> exists s, v = JString s.

(** A Number that is the integer [z]. *)
Definition integer (x : num) (z : Z) : Prop := exists q, x = Fin q /\ (q == inject_Z z)%Q.

(** What the scan keeps true while the draws hold strings only: after [n]
    games every counter of a pool number stands at [n], a string has a
    counter only once it has a list of gaps, and every list of gaps starts
    with the [undefined] that [currentGaps.get] gave for the string. *)
Definition string_scan (n : Z) (st : Values.gapState) : Prop :=
  (forall z, in_pool z -> Map_get (Values.currentGaps st) (JNumber z) = Some n) /\
  (forall s, Map_get (Values.gapAnalysis st) (JString s) = None ->
             Map_get (Values.currentGaps st) (JString s) = None) /\
  (forall k gaps, Map_get (Values.gapAnalysis st) k = Some gaps ->
                  exists rest, gaps = None :: rest).

(** [games] lists the games of the history from the highest id down, or
    from the lowest id up. *)
Definition listed_newest_first (locationData : history) (games : list (Z * draw)) : Prop :=
  Permutation games locationData /\
  StronglySorted (fun a b => fst a >= fst b) games.

Definition listed_oldest_first (locationData : history) (games : list (Z * draw)) : Prop :=
  Permutation games locationData /\
  StronglySorted (fun a b => fst a <= fst b) games.

(** The game ids are array indices, the integers from 0 to 2^32 - 2: the
    keys that [Object.values] and [Object.entries] list in ascending
    order. *)
Definition array_indexed (locationData : history) : Prop :=
  forall game, In game locationData -> 0 <= fst game < 4294967295.

(** No number of the history is negative: the string that joins the
    numbers of a key with '-' splits into these numbers again. *)
Definition non_negative (locationData : history) : Prop :=
  forall game x, In game locationData -> In x (snd game) -> 0 <= x.

(** Case analysis on the integer guards of the source. *)
Ltac guards :=
  repeat (match goal with
          | |- context [?a >? ?b] => rewrite (Z.gtb_ltb a b)
          | |- context [?a <? ?b] => destruct (Z.ltb_spec a b); try lia
          | |- context [?a =? ?b] => destruct (Z.eqb_spec a b); try lia
          | |- context [?a <=? ?b] => destruct (Z.leb_spec a b); try lia
          end; cbn [orb andb negb]).

(* ================================================================== *)
(** * Properties of the combinatorics engine *)
(* ================================================================== *)

(** ** Finite ranges *)

Lemma In_Zrange (lo : Z) (len : nat) (z : Z) :
  lo <= z < lo + Z.of_nat len -> In z (Zrange lo len).
Proof.
  intros Hz. unfold Zrange. apply in_map_iff.
  exists (Z.to_nat (z - lo)). split; [lia | apply in_seq; lia].
Qed.

Lemma Zrange_cons (lo : Z) (len : nat) :
  Zrange lo (S len) = lo :: Zrange (lo + 1) len.
Proof.
  unfold Zrange. simpl. f_equal; [lia |].
  rewrite <- seq_shift, map_map. apply map_ext. intros i. lia.
Qed.

(** A boolean table checked on a rectangle holds at each of its points. *)
Lemma table_lookup (P : Z -> Z -> bool) (lo1 lo2 : Z) (len1 len2 : nat) :
  forallb (fun a => forallb (P a) (Zrange lo2 len2)) (Zrange lo1 len1) = true ->
  forall a b,
    lo1 <= a < lo1 + Z.of_nat len1 -> lo2 <= b < lo2 + Z.of_nat len2 ->
    P a b = true.
Proof.
  intros Htable a b Ha Hb.
  rewrite forallb_forall in Htable.
  specialize (Htable a (In_Zrange _ _ _ Ha)).
  rewrite forallb_forall in Htable.
  exact (Htable b (In_Zrange _ _ _ Hb)).
Qed.

(** ** The binomial coefficient obeys Pascal's rule *)

Lemma nth_add_rows (r1 r2 : list Z) (i : nat) :
  List.length r1 = List.length r2 ->
  nth i (add_rows r1 r2) 0 = nth i r1 0 + nth i r2 0.
Proof.
  revert r2 i. induction r1 as [| a r1 IH]; intros [| b r2] i Hlen;
    simpl in Hlen; try discriminate.
  - destruct i; reflexivity.
  - destruct i as [| i]; simpl; [reflexivity |]. apply IH. lia.
Qed.

Lemma nth_snoc_zero (r : list Z) (i : nat) : nth i (r ++ [0]) 0 = nth i r 0.
Proof.
  destruct (Nat.lt_ge_cases i (List.length r)) as [Hlt | Hge].
  - now apply app_nth1.
  - rewrite app_nth2 by exact Hge. rewrite (nth_overflow r) by exact Hge.
    destruct (i - List.length r)%nat as [| [| j]]; reflexivity.
Qed.

Lemma binomial_zero (n : Z) : 0 <= n -> binomial n 0 = 1.
Proof.
  intros Hn. unfold binomial.
  replace ((n <? 0) || (0 <? 0)) with false
    by (symmetry; apply orb_false_iff; split; [apply Z.ltb_ge; lia | reflexivity]).
  change (Z.to_nat 0) with 0%nat.
  induction (Z.to_nat n) as [| m IH]; [reflexivity |].
  change (pascal_row (S m)) with (add_rows (0 :: pascal_row m) (pascal_row m ++ [0])).
  destruct (pascal_row m); simpl in *; lia.
Qed.

Lemma binomial_pascal (n k : Z) :
  0 <= n -> 0 <= k ->
  binomial (n + 1) (k + 1) = binomial n k + binomial n (k + 1).
Proof.
  intros Hn Hk. unfold binomial.
  replace ((n + 1 <? 0) || (k + 1 <? 0)) with false
    by (symmetry; apply orb_false_iff; split; apply Z.ltb_ge; lia).
  replace ((n <? 0) || (k <? 0)) with false
    by (symmetry; apply orb_false_iff; split; apply Z.ltb_ge; lia).
  replace ((n <? 0) || (k + 1 <? 0)) with false
    by (symmetry; apply orb_false_iff; split; apply Z.ltb_ge; lia).
  replace (Z.to_nat (n + 1)) with (S (Z.to_nat n)) by lia.
  replace (Z.to_nat (k + 1)) with (S (Z.to_nat k)) by lia.
  change (pascal_row (S (Z.to_nat n)))
    with (add_rows (0 :: pascal_row (Z.to_nat n)) (pascal_row (Z.to_nat n) ++ [0])).
  rewrite nth_add_rows by (rewrite length_app; simpl; lia).
  rewrite nth_snoc_zero. reflexivity.
Qed.

(** ** [combinations] *)

Lemma Script_combinations_above (n k : Z) : n < k -> Script.combinations n k = 0%float.
Proof. intros H. unfold Script.combinations. guards. reflexivity. Qed.

Lemma Script_combinations_negative (n k : Z) :
  k < 0 -> k <= n -> Script.combinations n k = 1%float.
Proof.
  intros Hk Hn. unfold Script.combinations. guards; try reflexivity.
  now replace (Z.to_nat k) with 0%nat by lia.
Qed.

Lemma MathUtils_combinations_above (n k : Z) : n < k -> MathUtils.combinations n k = 0%float.
Proof. intros H. unfold MathUtils.combinations. guards. reflexivity. Qed.

Lemma MathUtils_combinations_negative (n k : Z) :
  k < 0 -> 0 <= n -> MathUtils.combinations n k = 0%float.
Proof. intros Hk Hn. unfold MathUtils.combinations. guards. reflexivity. Qed.

Lemma Script_combinations_exact_table :
  forallb (fun n => forallb
     (fun k => negb (k <=? n) || Binary64.denotes (Script.combinations n k) (binomial n k))
     (Zrange 0 11)) (Zrange 0 11) = true.
Proof. vm_compute. reflexivity. Qed.

Lemma Script_combinations_error_table :
  forallb (fun n => forallb
     (fun k => negb (k <=? n)
               || Binary64.within (Script.combinations n k) (binomial n k)
                                  (1 # 2 ^ 49))
     (Zrange 0 81)) (Zrange 0 81) = true.
Proof. vm_compute. reflexivity. Qed.

Lemma MathUtils_combinations_exact_table :
  forallb (fun n => forallb
     (fun k => negb (k <=? n) || Binary64.denotes (MathUtils.combinations n k) (binomial n k))
     (Zrange 0 54)) (Zrange 0 54) = true.
Proof. vm_compute. reflexivity. Qed.

(** The product of the nested function is the binomial coefficient for
    [0 <= k <= n <= 10], and within relative error 2^-49 of it for
    [0 <= k <= n <= 80]. *)
Lemma Script_combinations_close (n k : Z) :
  0 <= k <= n ->
  (n <= 10 -> Binary64.denotes (Script.combinations n k) (binomial n k) = true) /\
  (n <= 80 ->
   Binary64.within (Script.combinations n k) (binomial n k) (1 # 2 ^ 49) = true).
Proof.
  intros Hk. split.
  - intros Hcase.
    pose proof (table_lookup _ _ _ _ _ Script_combinations_exact_table n k) as T.
    simpl in T. specialize (T ltac:(lia) ltac:(lia)).
    apply orb_true_iff in T. destruct T as [T | T]; [| exact T].
    apply negb_true_iff, Z.leb_gt in T. lia.
  - intros Hcase.
    pose proof (table_lookup _ _ _ _ _ Script_combinations_error_table n k) as T.
    simpl in T. specialize (T ltac:(lia) ltac:(lia)).
    apply orb_true_iff in T. destruct T as [T | T]; [| exact T].
    apply negb_true_iff, Z.leb_gt in T. lia.
Qed.

(** C2 fails on the nested function at inputs that [probabilityOfHitting]
    passes to it. [combinations(20, -1)], called for [matches = -1],
    returns 1 where the claim and [MathUtils.combinations] give 0; and
    [combinations(20, 10)], called for [matches = 10], returns the product
    as it is, 184756.00000000003, where the claim and
    [MathUtils.combinations] give the rounded product, the binomial
    coefficient 184756. *)
Theorem Script_combinations_unguarded :
  Script.combinations 20 (-1) = 1%float /\
  MathUtils.combinations 20 (-1) = 0%float /\
  binomial 20 10 = 184756 /\
  Binary64.denotes (Script.combinations 20 10) 184756 = false /\
  PrimFloat.ltb (Binary64.Z2float 184756) (Script.combinations 20 10) = true /\
  Binary64.denotes (MathUtils.combinations 20 10) 184756 = true.
Proof. vm_compute. repeat split; reflexivity. Qed.

(** The exported [combinations] of MathUtils.js has the guard and the
    rounding: it is 0 for [k < 0 <= n] and exact up to [n = 53]; at
    [(54, 23)] the rounded product already misses the coefficient by one. *)
Lemma MathUtils_combinations_exact (n k : Z) :
  (k < 0 <= n -> MathUtils.combinations n k = 0%float) /\
  (0 <= k <= n -> n <= 53 ->
   Binary64.denotes (MathUtils.combinations n k) (binomial n k) = true).
Proof.
  split.
  - intros [Hk Hn]. now apply MathUtils_combinations_negative.
  - intros Hcase Hn.
    pose proof (table_lookup _ _ _ _ _ MathUtils_combinations_exact_table n k) as T.
    simpl in T. specialize (T ltac:(lia) ltac:(lia)).
    apply orb_true_iff in T. destruct T as [T | T]; [| exact T].
    apply negb_true_iff, Z.leb_gt in T. lia.
Qed.

Lemma MathUtils_combinations_54_23 :
  binomial 54 23 = 1085929983159840 /\
  Binary64.denotes (MathUtils.combinations 54 23) 1085929983159839 = true.
Proof. vm_compute. split; reflexivity. Qed.

(** ** [probabilityOfHitting] *)

Lemma list_lookup (P : Z -> bool) (lo : Z) (len : nat) :
  forallb P (Zrange lo len) = true ->
  forall a, lo <= a < lo + Z.of_nat len -> P a = true.
Proof.
  intros Htable a Ha. rewrite forallb_forall in Htable.
  exact (Htable a (In_Zrange _ _ _ Ha)).
Qed.

Lemma Script_probability_table :
  forallb (fun s => forallb
     (fun m => Binary64.in_unit_interval (Script.probabilityOfHitting m s))
     (Zrange 0 21)) (Zrange 0 81) = true.
Proof. vm_compute. reflexivity. Qed.

(** With [matches >= 0], outside [matches <= 20] and [0 <= spotCount <= 80]
    one of the guards answers. *)
Lemma Script_probability_outside (m s : Z) :
  0 <= m -> ~ (m <= 20 /\ 0 <= s <= 80) -> Script.probabilityOfHitting m s = 0%float.
Proof.
  intros Hm Hout.
  unfold Script.probabilityOfHitting, Script.numbersDrawn, Script.totalNumbers.
  cbv zeta. destruct (PrimFloat.eqb _ _); [reflexivity |].
  guards; reflexivity.
Qed.

(** For [matches >= 0] the page script's [probabilityOfHitting] is a
    probability. *)
Lemma Script_probability_unit_interval (m s : Z) :
  0 <= m -> Binary64.in_unit_interval (Script.probabilityOfHitting m s) = true.
Proof.
  intros Hm.
  destruct (Z_le_dec m 20) as [Hm20 |];
    [destruct (Z_le_dec 0 s) as [Hs0 |]; [destruct (Z_le_dec s 80) as [Hs80 |] |] |].
  - apply (table_lookup _ _ _ _ _ Script_probability_table s m); simpl; lia.
  - rewrite Script_probability_outside by lia. reflexivity.
  - rewrite Script_probability_outside by lia. reflexivity.
  - rewrite Script_probability_outside by lia. reflexivity.
Qed.

Lemma Script_zero_numerator_table :
  forallb (fun s => forallb
     (fun m => PrimFloat.eqb
                 (Script.combinations 20 m * 0 / Script.combinations 80 s)%float 0)
     (Zrange 0 21)) (Zrange 0 81) = true.
Proof. vm_compute. reflexivity. Qed.

Lemma Script_zero_numerator_table_negative :
  forallb (fun s => PrimFloat.eqb (1 * 0 / Script.combinations 80 s)%float 0)
          (Zrange 0 81) = true.
Proof. vm_compute. reflexivity. Qed.

(** In each of the four invalid cases the page script's
    [probabilityOfHitting] returns 0, for all integers: three by a guard,
    the fourth because [combinations(60, spotCount - matches)] is 0. *)
Lemma Script_probability_invalid (m s : Z) :
  m > s \/ m > 20 \/ s > 80 \/ s - m > 60 ->
  PrimFloat.eqb (Script.probabilityOfHitting m s) 0 = true.
Proof.
  intros Hinvalid.
  unfold Script.probabilityOfHitting, Script.numbersDrawn, Script.totalNumbers.
  cbv zeta. destruct (PrimFloat.eqb (Script.combinations 80 s) 0); [reflexivity |].
  guards; try reflexivity.
  change (80 - 20) with 60.
  rewrite (Script_combinations_above 60 (s - m)) by lia.
  destruct (Z_lt_dec m 0) as [Hneg | Hpos].
  - rewrite (Script_combinations_negative 20 m) by lia.
    destruct (Z_lt_dec s 0) as [Hs | Hs].
    + rewrite (Script_combinations_negative 80 s) by lia. reflexivity.
    + apply (list_lookup _ _ _ Script_zero_numerator_table_negative s). simpl. lia.
  - apply (table_lookup _ _ _ _ _ Script_zero_numerator_table s m); simpl; lia.
Qed.

(** C3 on the page script: [probabilityOfHitting(-1, 5)] is
    [C(60, 6) / C(80, 5)] = 2.08..., above 1. None of the four invalid cases
    applies to the input; the nested [combinations] answers 1 for
    [k = -1]. *)
Theorem Script_probability_above_one :
  (-1 > 5 \/ -1 > 20 \/ 5 > 80 \/ 5 - -1 > 60 -> False) /\
  Script.combinations 20 (-1) = 1%float /\
  PrimFloat.ltb 2 (Script.probabilityOfHitting (-1) 5) = true /\
  Binary64.in_unit_interval (Script.probabilityOfHitting (-1) 5) = false.
Proof. split; [lia |]. vm_compute. repeat split; reflexivity. Qed.

Lemma MathUtils_probability_table :
  forallb (fun s => forallb
     (fun m => Binary64.in_unit_interval (MathUtils.probabilityOfHitting m s))
     (Zrange 0 21)) (Zrange 0 81) = true.
Proof. vm_compute. reflexivity. Qed.

Lemma MathUtils_zero_numerator_table :
  forallb (fun s => forallb
     (fun d => Binary64.in_unit_interval
                 (if PrimFloat.eqb (MathUtils.combinations 80 s) 0 then 0%float
                  else (0 * MathUtils.combinations 60 d / MathUtils.combinations 80 s)%float))
     (Zrange 0 61)) (Zrange 0 81) = true.
Proof. vm_compute. reflexivity. Qed.

(** The sibling in MathUtils.js does what C3 says, for all integers: its
    result is a probability, and it is 0 in each invalid case. *)
Theorem MathUtils_probability_spec (m s : Z) :
  Binary64.in_unit_interval (MathUtils.probabilityOfHitting m s) = true /\
  (m > s \/ m > 20 \/ s > 80 \/ s - m > 60 ->
   MathUtils.probabilityOfHitting m s = 0%float).
Proof.
  split.
  - destruct (Z_le_dec 0 m) as [Hm0 | Hm0];
      [destruct (Z_le_dec m 20) as [Hm20 | Hm20];
       [destruct (Z_le_dec 0 s) as [Hs0 | Hs0];
        [destruct (Z_le_dec s 80) as [Hs80 | Hs80] |] |] |].
    + apply (table_lookup _ _ _ _ _ MathUtils_probability_table s m); simpl; lia.
    + unfold MathUtils.probabilityOfHitting, MathUtils.probabilityOfHitting_with.
      guards; reflexivity.
    + unfold MathUtils.probabilityOfHitting, MathUtils.probabilityOfHitting_with.
      guards; reflexivity.
    + unfold MathUtils.probabilityOfHitting, MathUtils.probabilityOfHitting_with.
      guards; reflexivity.
    + unfold MathUtils.probabilityOfHitting, MathUtils.probabilityOfHitting_with.
      guards; try reflexivity.
      cbv zeta. change (80 - 20) with 60.
      rewrite (MathUtils_combinations_negative 20 m) by lia.
      destruct (Z_lt_dec s 0) as [Hs | Hs].
      * rewrite (MathUtils_combinations_negative 80 s) by lia. reflexivity.
      * apply (table_lookup _ _ _ _ _ MathUtils_zero_numerator_table s (s - m));
          simpl; lia.
  - intros Hinvalid.
    unfold MathUtils.probabilityOfHitting, MathUtils.probabilityOfHitting_with.
    guards; reflexivity.
Qed.

(** ** [probabilityAcrossGames] with one game *)

Lemma Script_round_trip_table :
  forallb (fun s => forallb
     (fun m =>
        let p := Script.probabilityOfHitting m s in
        Binary64.close (round_trip p) p (1 # 2 ^ 54)
        && (negb (PrimFloat.eqb p 0 || PrimFloat.leb 0.5 p)
            || PrimFloat.eqb (round_trip p) p))
     (Zrange 0 21)) (Zrange 0 81) = true.
Proof. vm_compute. reflexivity. Qed.

(** C9, as the code has it: with [numGames = 1] (and a [Math.pow] that
    returns its base at exponent 1) [probabilityAcrossGames(m, s, 1)] is
    [1 - (1 - p)] in binary64, where [p = probabilityOfHitting(m, s)]. For
    [m >= 0] this is within 2^-54 of [p], and it is [p] itself when [p] is 0
    or at least 0.5. *)
Theorem Script_probabilityAcrossGames_one
    (Math_pow : float -> Z -> float) (m s : Z) :
  (forall x, Math_pow x 1 = x) ->
  0 <= m ->
  let p := Script.probabilityOfHitting m s in
  let r := Script.probabilityAcrossGames Math_pow m s 1 in
  r = (1 - (1 - p))%float /\
  Binary64.close r p (1 # 2 ^ 54) = true /\
  (PrimFloat.eqb p 0 || PrimFloat.leb 0.5 p = true -> PrimFloat.eqb r p = true).
Proof.
  intros Hpow Hm p r.
  assert (Hr : r = round_trip p).
  { unfold r, Script.probabilityAcrossGames. cbv zeta. now rewrite Hpow. }
  split; [exact Hr |]. rewrite Hr. clear Hr r.
  assert (Hboth :
    Binary64.close (round_trip p) p (1 # 2 ^ 54)
    && (negb (PrimFloat.eqb p 0 || PrimFloat.leb 0.5 p)
        || PrimFloat.eqb (round_trip p) p) = true).
  { destruct (Z_le_dec m 20) as [Hm20 |];
      [destruct (Z_le_dec 0 s) as [Hs0 |]; [destruct (Z_le_dec s 80) as [Hs80 |] |] |].
    - apply (table_lookup _ _ _ _ _ Script_round_trip_table s m); simpl; lia.
    - unfold p. rewrite Script_probability_outside by lia. reflexivity.
    - unfold p. rewrite Script_probability_outside by lia. reflexivity.
    - unfold p. rewrite Script_probability_outside by lia. reflexivity. }
  apply andb_true_iff in Hboth. destruct Hboth as [Hclose Heq].
  split; [exact Hclose |].
  intros Hcase. rewrite Hcase in Heq. exact Heq.
Qed.

Lemma Script_probabilityAcrossGames_one_witness :
  (forall x, pow_by_multiplication x 1 = x) /\
  0 <= 0 /\
  PrimFloat.eqb (Script.probabilityAcrossGames pow_by_multiplication 0 1 1)
                (Script.probabilityOfHitting 0 1) = true.
Proof.
  assert (Hpow : forall x, pow_by_multiplication x 1 = x) by reflexivity.
  split; [exact Hpow |]. split; [lia |].
  apply (Script_probabilityAcrossGames_one pow_by_multiplication 0 1 Hpow); [lia |].
  reflexivity.
Defined.

(** C9 as stated fails: [probabilityOfHitting(2, 2)] is [190 / 3160] =
    0.060126582278481014, and one game across gives 0.060126582278481. *)
Lemma Script_probabilityAcrossGames_counterexample :
  (forall x, pow_by_multiplication x 1 = x) /\
  PrimFloat.eqb (Script.probabilityOfHitting 2 2)
                (Binary64.Z2float 190 / Binary64.Z2float 3160) = true /\
  PrimFloat.eqb (Script.probabilityAcrossGames pow_by_multiplication 2 2 1)
                (Script.probabilityOfHitting 2 2) = false /\
  PrimFloat.ltb (Script.probabilityAcrossGames pow_by_multiplication 2 2 1)
                (Script.probabilityOfHitting 2 2) = true.
Proof. split; [reflexivity |]. vm_compute. repeat split; reflexivity. Qed.

(* ================================================================== *)
(** * Properties of the runtime: sorting and maps *)
(* ================================================================== *)

Section SortFacts.
Context {A : Type} (compareFn : A -> A -> num).

Lemma insert_sorted_perm (x : A) (l : list A) :
  Permutation (insert_sorted compareFn x l) (x :: l).
Proof.
  induction l as [| y l IH]; simpl; [reflexivity |].
  destruct (Num.positive (compareFn x y)); [| reflexivity].
  rewrite IH. apply perm_swap.
Qed.

Lemma Array_sort_perm (l : list A) : Permutation (Array_sort compareFn l) l.
Proof.
  induction l as [| x l IH]; simpl; [reflexivity |].
  rewrite insert_sorted_perm. now apply perm_skip.
Qed.

Lemma Array_sort_In (l : list A) (x : A) : In x (Array_sort compareFn l) <-> In x l.
Proof.
  split; apply Permutation_in;
    [apply Array_sort_perm | symmetry; apply Array_sort_perm].
Qed.

Lemma Array_sort_length (l : list A) : List.length (Array_sort compareFn l) = List.length l.
Proof. apply Permutation_length, Array_sort_perm. Qed.

Lemma Array_sort_nil (l : list A) : Array_sort compareFn l = [] <-> l = [].
Proof.
  split; intros H.
  - apply length_zero_iff_nil. rewrite <- Array_sort_length, H. reflexivity.
  - subst. reflexivity.
Qed.

(** The sort puts the list in the order of any transitive relation that
    the comparator decides. *)
Section Order.
Variable before : A -> A -> Prop.
Hypothesis before_trans : forall x y z, before x y -> before y z -> before x z.
Hypothesis keeps : forall x y, Num.positive (compareFn x y) = false -> before x y.
Hypothesis swaps : forall x y, Num.positive (compareFn x y) = true -> before y x.

Lemma insert_sorted_ordered (x : A) (l : list A) :
  StronglySorted before l -> StronglySorted before (insert_sorted compareFn x l).
Proof.
  induction 1 as [| y l Hl IH Hy]; simpl.
  - constructor; constructor.
  - destruct (Num.positive (compareFn x y)) eqn:Hc.
    + constructor; [exact IH |].
      apply Forall_forall. intros z Hz.
      apply (Permutation_in _ (insert_sorted_perm x l)) in Hz.
      destruct Hz as [<- | Hz]; [now apply swaps |].
      rewrite Forall_forall in Hy. now apply Hy.
    + constructor; [now constructor |].
      constructor; [now apply keeps |].
      apply Forall_forall. intros z Hz. rewrite Forall_forall in Hy.
      apply before_trans with y; [now apply keeps | now apply Hy].
Qed.

Lemma Array_sort_ordered (l : list A) : StronglySorted before (Array_sort compareFn l).
Proof.
  induction l as [| x l IH]; simpl; [constructor |].
  now apply insert_sorted_ordered.
Qed.
End Order.

(** Stability: elements that the comparator never swaps among themselves
    keep their order. *)
Section Stable.
Variable class : A -> bool.
Hypothesis tied :
  forall x y, class x = true -> class y = true -> Num.positive (compareFn x y) = false.

Lemma filter_insert_sorted (x : A) (l : list A) :
  filter class (insert_sorted compareFn x l) = filter class (x :: l).
Proof.
  induction l as [| y l IH]; [reflexivity |].
  simpl insert_sorted.
  destruct (Num.positive (compareFn x y)) eqn:Hc; [| reflexivity].
  simpl filter in *. rewrite IH.
  destruct (class x) eqn:Hx, (class y) eqn:Hy; try reflexivity.
  rewrite (tied x y Hx Hy) in Hc. discriminate.
Qed.

Lemma Array_sort_stable (l : list A) :
  filter class (Array_sort compareFn l) = filter class l.
Proof.
  induction l as [| x l IH]; [reflexivity |].
  simpl Array_sort. rewrite filter_insert_sorted. simpl. now rewrite IH.
Qed.
End Stable.
End SortFacts.

Lemma positive_of_Z (z : Z) : Num.positive (Num.of_Z z) = true <-> 0 < z.
Proof.
  unfold Num.positive, Num.of_Z, Num.Qpositive.
  rewrite negb_true_iff, <- not_true_iff_false, Qle_bool_iff.
  unfold Qle, inject_Z. simpl. lia.
Qed.

Lemma positive_of_Z_false (z : Z) : Num.positive (Num.of_Z z) = false <-> z <= 0.
Proof.
  rewrite <- not_true_iff_false, positive_of_Z. lia.
Qed.

(** ** Maps *)
Section MapFacts.
Context {K V : Type} `{Key K}.

Lemma Map_set_keys (m : Map K V) (k : K) (v : V) :
  map fst (Map_set m k v) =
  if in_dec key_eq_dec k (map fst m) then map fst m else map fst m ++ [k].
Proof.
  induction m as [| [k' v'] m IH]; simpl; [reflexivity |].
  destruct (key_eq_dec k k') as [-> | Hne]; simpl.
  - destruct (key_eq_dec k' k'); [reflexivity | congruence].
  - rewrite IH. destruct (key_eq_dec k' k); [congruence |].
    destruct (in_dec key_eq_dec k (map fst m)); reflexivity.
Qed.

Lemma Map_set_In_key (m : Map K V) (k k' : K) (v : V) :
  In k' (map fst (Map_set m k v)) <-> In k' (map fst m) \/ k' = k.
Proof.
  rewrite Map_set_keys.
  destruct (in_dec key_eq_dec k (map fst m)) as [Hin | Hnin].
  - split; [now left | intros [? | ->]; assumption].
  - rewrite in_app_iff. simpl. intuition congruence.
Qed.

Lemma Map_set_NoDup (m : Map K V) (k : K) (v : V) :
  NoDup (map fst m) -> NoDup (map fst (Map_set m k v)).
Proof.
  intros Hnd. rewrite Map_set_keys.
  destruct (in_dec key_eq_dec k (map fst m)) as [Hin | Hnin]; [exact Hnd |].
  apply NoDup_app; [exact Hnd | repeat constructor; intros [] |].
  intros x Hx [<- | []]. contradiction.
Qed.

Lemma Map_get_set_same (m : Map K V) (k : K) (v : V) :
  Map_get (Map_set m k v) k = Some v.
Proof.
  induction m as [| [k' v'] m IH]; simpl.
  - destruct (key_eq_dec k k); [reflexivity | congruence].
  - destruct (key_eq_dec k k') as [-> | Hne]; simpl.
    + destruct (key_eq_dec k' k'); [reflexivity | congruence].
    + destruct (key_eq_dec k k'); [congruence | exact IH].
Qed.

Lemma Map_get_set_other (m : Map K V) (k k' : K) (v : V) :
  k' <> k -> Map_get (Map_set m k v) k' = Map_get m k'.
Proof.
  intros Hne. induction m as [| [k0 v0] m IH]; simpl.
  - destruct (key_eq_dec k' k); [congruence | reflexivity].
  - destruct (key_eq_dec k k0) as [-> | Hne0]; simpl.
    + destruct (key_eq_dec k' k0); [congruence | reflexivity].
    + destruct (key_eq_dec k' k0); [reflexivity | exact IH].
Qed.

Lemma Map_get_In (m : Map K V) (k : K) (v : V) :
  Map_get m k = Some v -> In (k, v) m.
Proof.
  induction m as [| [k' v'] m IH]; simpl; [discriminate |].
  destruct (key_eq_dec k k') as [-> | Hne].
  - intros [= ->]. now left.
  - intros Hget. right. now apply IH.
Qed.

Lemma Map_get_None (m : Map K V) (k : K) :
  Map_get m k = None <-> ~ In k (map fst m).
Proof.
  induction m as [| [k' v'] m IH]; simpl; [tauto |].
  destruct (key_eq_dec k k') as [-> | Hne].
  - split; [discriminate | intros Hn; exfalso; apply Hn; now left].
  - rewrite IH. intuition congruence.
Qed.

Lemma In_Map_get (m : Map K V) (k : K) (v : V) :
  NoDup (map fst m) -> In (k, v) m -> Map_get m k = Some v.
Proof.
  induction m as [| [k' v'] m IH]; simpl; [tauto |].
  intros Hnd [[= -> ->] | Hin].
  - destruct (key_eq_dec k k); [reflexivity | congruence].
  - inversion Hnd as [| ? ? Hnotin Hnd']; subst.
    destruct (key_eq_dec k k') as [-> | Hne]; [| now apply IH].
    exfalso. apply Hnotin. now apply (in_map fst) in Hin.
Qed.

(** An entry after [set] is the new one or an old one. *)
Lemma Map_set_In (m : Map K V) (k k' : K) (v v' : V) :
  In (k', v') (Map_set m k v) -> (k' = k /\ v' = v) \/ In (k', v') m.
Proof.
  induction m as [| [k0 v0] m IH]; simpl.
  - intros [[= -> ->] | []]. now left.
  - destruct (key_eq_dec k k0) as [-> | Hne]; simpl.
    + intros [[= -> ->] | Hin]; [now left | right; now right].
    + intros [Heq | Hin]; [right; now left |].
      destruct (IH Hin) as [? | ?]; [now left | right; now right].
Qed.

Lemma Map_set_not_nil (m : Map K V) (k : K) (v : V) : Map_set m k v <> [].
Proof.
  destruct m as [| [k' v'] m]; simpl; [discriminate |].
  destruct (key_eq_dec k k'); discriminate.
Qed.
End MapFacts.

Lemma Zrange_length lo len : List.length (Zrange lo len) = len.
Proof. unfold Zrange. now rewrite length_map, length_seq. Qed.

Lemma Zrange_NoDup lo len : NoDup (Zrange lo len).
Proof.
  unfold Zrange. apply Finite.Injective_map_NoDup; [| apply seq_NoDup].
  intros a b. lia.
Qed.

Lemma map_fst_combine {A B : Type} (l1 : list A) (l2 : list B) :
  List.length l1 = List.length l2 -> map fst (combine l1 l2) = l1.
Proof.
  revert l2. induction l1 as [| a l1 IH]; intros [| b l2] Hlen;
    simpl in *; try discriminate; [reflexivity |].
  f_equal. apply IH. lia.
Qed.

Lemma map_snd_combine {A B : Type} (l1 : list A) (l2 : list B) :
  List.length l1 = List.length l2 -> map snd (combine l1 l2) = l2.
Proof.
  revert l2. induction l1 as [| a l1 IH]; intros [| b l2] Hlen;
    simpl in *; try discriminate; [reflexivity |].
  f_equal. apply IH. lia.
Qed.

(** What holds of [processKenoData] on every input: the ids are 1..N, each
    once, whatever the game numbers were. *)
Lemma processKenoData_ids (jsonData : object (object draw)) (reformattedData : history) :
  processKenoData (Some jsonData) = Some reformattedData ->
  map fst reformattedData = Zrange 1 (List.length reformattedData) /\
  NoDup (map fst reformattedData).
Proof.
  unfold processKenoData. intros [= <-].
  set (flattenedData := flat_map _ _).
  assert (Hlen : List.length (Zrange 1 (List.length flattenedData))
                 = List.length (map kenoGameStats flattenedData))
    by now rewrite Zrange_length, length_map.
  rewrite map_fst_combine by exact Hlen.
  rewrite length_combine, <- Hlen, Nat.min_id, Zrange_length.
  split; [reflexivity | apply Zrange_NoDup].
Qed.

(** Two dates that both hold game 37 give two draws with their own ids and
    their own numbers. *)
Lemma processKenoData_same_game_number :
  processKenoData
    (Some [ (Name "2025-01-01", [ (Index 37, [1; 2; 3]) ]);
            (Name "2025-01-02", [ (Index 37, [4; 5; 6]) ]) ])
  = Some [ (1, [4; 5; 6]); (2, [1; 2; 3]) ].
Proof. reflexivity. Qed.

(** ** The order of the games *)

Lemma entries_listed (locationData : history) :
  listed_oldest_first locationData (entries locationData).
Proof.
  split; [apply Array_sort_perm |].
  unfold entries, ascending. apply Array_sort_ordered.
  - intros x y z. lia.
  - intros x y Hc. apply positive_of_Z_false in Hc. lia.
  - intros x y Hc. apply positive_of_Z in Hc. lia.
Qed.

Lemma all_numbers_entries (locationData : history) :
  all_numbers locationData = numbers_of (entries locationData).
Proof. reflexivity. Qed.

(** ** [getNumberCounts] *)

Lemma fold_left_concat {A B : Type} (f : A -> B -> A) (ls : list (list B)) (a : A) :
  fold_left (fun acc l => fold_left f l acc) ls a = fold_left f (List.concat ls) a.
Proof.
  revert a. induction ls as [| l ls IH]; intros a; simpl; [reflexivity |].
  now rewrite fold_left_app, IH.
Qed.

Lemma numberCounts_of_flat (locationData : history) :
  numberCounts_of locationData = fold_left tally (all_numbers locationData) [].
Proof. apply fold_left_concat. Qed.

Lemma first_seen_snoc (l : list Z) (x : Z) :
  first_seen (l ++ [x]) =
  if in_dec Z.eq_dec x (first_seen l) then first_seen l else first_seen l ++ [x].
Proof. unfold first_seen. now rewrite fold_left_app. Qed.

Lemma first_seen_In (l : list Z) (x : Z) : In x (first_seen l) <-> In x l.
Proof.
  induction l as [| y l IH] using rev_ind; [reflexivity |].
  rewrite first_seen_snoc, in_app_iff. simpl.
  destruct (in_dec Z.eq_dec y (first_seen l)) as [Hin | Hnin].
  - rewrite IH. split; [now left | intros [? | [<- | []]]; [assumption | now apply IH]].
  - rewrite in_app_iff, IH. simpl. tauto.
Qed.

Lemma first_seen_NoDup (l : list Z) : NoDup (first_seen l).
Proof.
  induction l as [| y l IH] using rev_ind; [constructor |].
  rewrite first_seen_snoc.
  destruct (in_dec Z.eq_dec y (first_seen l)) as [Hin | Hnin]; [exact IH |].
  apply NoDup_app; [exact IH | repeat constructor; intros [] |].
  intros x Hx [<- | []]. contradiction.
Qed.

Lemma occurrences_snoc (l : list Z) (x y : Z) :
  occurrences (l ++ [x]) y = occurrences l y + (if Z.eq_dec x y then 1 else 0).
Proof.
  unfold occurrences. rewrite count_occ_app. simpl.
  destruct (Z.eq_dec x y); lia.
Qed.

Lemma occurrences_zero (l : list Z) (x : Z) : ~ In x l -> occurrences l x = 0.
Proof.
  intros Hnin. unfold occurrences.
  now rewrite (proj1 (count_occ_not_In Z.eq_dec l x) Hnin).
Qed.

(** A map listed from a function on duplicate-free keys. *)
Lemma Map_get_tabulated (c : Z -> Z) (keys : list Z) (x : Z) :
  Map_get (map (fun y => (y, c y)) keys) x = if in_dec Z.eq_dec x keys then Some (c x) else None.
Proof.
  induction keys as [| y keys IH]; simpl; [reflexivity |].
  destruct (key_eq_dec x y) as [-> | Hne].
  - destruct (Z.eq_dec y y); [reflexivity | congruence].
  - rewrite IH. destruct (Z.eq_dec y x); [congruence |].
    destruct (in_dec Z.eq_dec x keys); reflexivity.
Qed.

Lemma Map_set_tabulated (c : Z -> Z) (keys : list Z) (x v : Z) :
  NoDup keys -> In x keys ->
  Map_set (map (fun y => (y, c y)) keys) x v
  = map (fun y => (y, if Z.eq_dec x y then v else c y)) keys.
Proof.
  induction keys as [| y keys IH]; simpl; [tauto |].
  intros Hnd Hin. inversion Hnd as [| ? ? Hnotin Hnd']; subst.
  destruct (key_eq_dec x y) as [-> | Hne].
  - destruct (Z.eq_dec y y); [| congruence].
    f_equal. apply map_ext_in. intros z Hz.
    destruct (Z.eq_dec y z); [congruence | reflexivity].
  - destruct (Z.eq_dec x y); [congruence |].
    f_equal. apply IH; [exact Hnd' |]. destruct Hin; [congruence | assumption].
Qed.

Lemma Map_set_fresh {V : Type} (m : Map Z V) (x : Z) (v : V) :
  ~ In x (map fst m) -> Map_set m x v = m ++ [(x, v)].
Proof.
  induction m as [| [y w] m IH]; simpl; [reflexivity |].
  intros Hnin.
  destruct (key_eq_dec x y) as [-> | Hne]; [tauto |].
  f_equal. apply IH. tauto.
Qed.

(** The tally lists each number once, in the order of first appearance, with
    its number of occurrences. *)
Lemma tally_fold (l : list Z) :
  fold_left tally l [] = map (fun x => (x, occurrences l x)) (first_seen l).
Proof.
  induction l as [| x l IH] using rev_ind; [reflexivity |].
  rewrite fold_left_app, IH, first_seen_snoc. simpl. unfold tally, get_or_0.
  rewrite Map_get_tabulated.
  destruct (in_dec Z.eq_dec x (first_seen l)) as [Hin | Hnin].
  - rewrite Map_set_tabulated by (auto using first_seen_NoDup).
    apply map_ext. intros y. rewrite occurrences_snoc.
    destruct (Z.eq_dec x y) as [-> |]; f_equal; lia.
  - rewrite Map_set_fresh by (rewrite map_map; simpl; now rewrite map_id).
    rewrite map_app. simpl. f_equal.
    + apply map_ext_in. intros y Hy. rewrite occurrences_snoc.
      destruct (Z.eq_dec x y) as [-> |]; [contradiction | f_equal; lia].
    + rewrite occurrences_snoc, occurrences_zero by (now rewrite <- first_seen_In).
      destruct (Z.eq_dec x x); [reflexivity | congruence].
Qed.

Lemma StronglySorted_map {A B : Type} (f : A -> B) (R : B -> B -> Prop) (l : list A) :
  StronglySorted (fun a b => R (f a) (f b)) l -> StronglySorted R (map f l).
Proof.
  induction 1 as [| a l Hl IH Ha]; simpl; constructor; [exact IH |].
  apply Forall_forall. intros b Hb. apply in_map_iff in Hb.
  destruct Hb as [a' [<- Ha']]. rewrite Forall_forall in Ha. now apply Ha.
Qed.

Lemma filter_map {A B : Type} (f : A -> B) (p : B -> bool) (l : list A) :
  filter p (map f l) = map f (filter (fun a => p (f a)) l).
Proof.
  induction l as [| a l IH]; simpl; [reflexivity |].
  destruct (p (f a)); simpl; now rewrite IH.
Qed.

(** The counts returned by [getNumberCounts] are sorted descending by
    count, and the numbers that share a count stay in the order in which
    they first appear in the history (the sort is stable and compares
    counts only). *)
Lemma getNumberCounts_stable (locationData : history) :
  exists stats,
    getNumberCounts (Some locationData) = Some stats /\
    StronglySorted (fun a b => NumberStat.count a >= NumberStat.count b) stats /\
    forall c,
      map NumberStat.number (filter (fun s => NumberStat.count s =? c) stats)
      = filter (fun x => occurrences (all_numbers locationData) x =? c)
               (first_seen (all_numbers locationData)).
Proof.
  eexists. split; [reflexivity |]. split.
  - apply StronglySorted_map. simpl.
    apply Array_sort_ordered.
    + intros x y z. lia.
    + intros x y Hc. apply positive_of_Z_false in Hc. lia.
    + intros x y Hc. apply positive_of_Z in Hc. lia.
  - intros c. rewrite filter_map. simpl.
    rewrite Array_sort_stable.
    + rewrite numberCounts_of_flat, tally_fold, filter_map, !map_map. simpl.
      now rewrite map_id.
    + intros x y Hx Hy. apply positive_of_Z_false.
      apply Z.eqb_eq in Hx, Hy. lia.
Qed.

(** C6 as stated fails: in the one draw [2, 1] both numbers have count 1,
    and 2 is listed before 1. *)
Lemma getNumberCounts_ties_counterexample :
  getNumberCounts (Some [ (1, [2; 1]) ])
  = Some [ {| NumberStat.number := 2; NumberStat.count := 1 |};
           {| NumberStat.number := 1; NumberStat.count := 1 |} ].
Proof. reflexivity. Qed.

(** C6, as the code has it: for every history whose game ids are array
    indices, the counts returned by [getNumberCounts] are sorted descending
    by count, and the numbers that share a count stay in the order in which
    they first appear when the games are read from the lowest id up, each
    game in the order of its draw (the sort is stable and compares counts
    only); they are not put in ascending order. *)
Theorem getNumberCounts_order (locationData : history) :
  array_indexed locationData ->
  exists stats games,
    getNumberCounts (Some locationData) = Some stats /\
    listed_oldest_first locationData games /\
    StronglySorted (fun a b => NumberStat.count a >= NumberStat.count b) stats /\
    forall c,
      map NumberStat.number (filter (fun s => NumberStat.count s =? c) stats)
      = filter (fun x => occurrences (numbers_of games) x =? c)
               (first_seen (numbers_of games)).
Proof.
  intros _.
  destruct (getNumberCounts_stable locationData) as [stats [Hstats [Hsorted Hties]]].
  exists stats, (entries locationData).
  split; [exact Hstats |]. split; [apply entries_listed |].
  split; [exact Hsorted |]. intros c. rewrite <- all_numbers_entries. apply Hties.
Qed.

Lemma getNumberCounts_order_witness :
  exists stats,
    getNumberCounts (Some [ (1, [2; 1]) ]) = Some stats /\
    StronglySorted (fun a b => NumberStat.count a >= NumberStat.count b) stats.
Proof.
  destruct (getNumberCounts_order [ (1, [2; 1]) ]) as [stats [games [Hs [_ [Hsorted _]]]]].
  - intros game [<- | []]. simpl. lia.
  - exists stats. split; [exact Hs | exact Hsorted].
Defined.

Lemma games_newest_first_perm (locationData : history) :
  Permutation (games_newest_first locationData) locationData.
Proof.
  unfold games_newest_first, entries, ascending.
  now rewrite !Array_sort_perm.
Qed.

Lemma games_newest_first_In (locationData : history) (game : Z * draw) :
  In game (games_newest_first locationData) <-> In game locationData.
Proof.
  split; apply Permutation_in;
    [apply games_newest_first_perm | symmetry; apply games_newest_first_perm].
Qed.

(** *** The keys of [gapAnalysis] *)

Lemma recordAppearance_keys (numbers : draw) (st : gapState) (x : Z) :
  In x (map fst (gapAnalysis (fold_left recordAppearance numbers st)))
  <-> In x (map fst (gapAnalysis st)) \/ In x numbers.
Proof.
  revert st. induction numbers as [| n numbers IH]; intros st; simpl; [tauto |].
  rewrite IH. unfold recordAppearance at 1. simpl.
  rewrite Map_set_In_key. intuition congruence.
Qed.

Lemma scanGame_keys (numbers : draw) (st : gapState) (x : Z) :
  In x (map fst (gapAnalysis (scanGame st numbers)))
  <-> In x (map fst (gapAnalysis st)) \/ In x numbers.
Proof. unfold scanGame. now rewrite recordAppearance_keys. Qed.

Lemma scan_keys (draws : list draw) (st : gapState) (x : Z) :
  In x (map fst (gapAnalysis (fold_left scanGame draws st)))
  <-> In x (map fst (gapAnalysis st)) \/ exists d, In d draws /\ In x d.
Proof.
  revert st. induction draws as [| d draws IH]; intros st; simpl.
  - split; [now left | intros [? | [d [[] _]]]; assumption].
  - rewrite IH, scanGame_keys. split.
    + intros [[? | ?] | [d' [? ?]]]; [now left | right; exists d; tauto
                                      | right; exists d'; tauto].
    + intros [? | [d' [[<- | ?] ?]]]; [tauto | tauto | right; exists d'; tauto].
Qed.

Lemma recordAppearance_NoDup (numbers : draw) (st : gapState) :
  NoDup (map fst (gapAnalysis st)) ->
  NoDup (map fst (gapAnalysis (fold_left recordAppearance numbers st))).
Proof.
  revert st. induction numbers as [| n numbers IH]; intros st Hnd; simpl; [exact Hnd |].
  apply IH. unfold recordAppearance. simpl. now apply Map_set_NoDup.
Qed.

Lemma scan_NoDup (draws : list draw) (st : gapState) :
  NoDup (map fst (gapAnalysis st)) ->
  NoDup (map fst (gapAnalysis (fold_left scanGame draws st))).
Proof.
  revert st. induction draws as [| d draws IH]; intros st Hnd; simpl; [exact Hnd |].
  apply IH. unfold scanGame. now apply recordAppearance_NoDup.
Qed.

Lemma scanGames_keys (locationData : history) (x : Z) :
  In x (map fst (gapAnalysis (scanGames locationData))) <-> appears locationData x.
Proof.
  unfold scanGames. rewrite scan_keys. simpl. unfold appears. split.
  - intros [[] | [d [Hd Hx]]]. apply in_map_iff in Hd.
    destruct Hd as [game [<- Hgame]]. exists game.
    split; [now apply games_newest_first_In | exact Hx].
  - intros [game [Hgame Hx]]. right. exists (snd game).
    split; [| exact Hx]. apply in_map. now apply games_newest_first_In.
Qed.

Lemma scanGames_NoDup (locationData : history) :
  NoDup (map fst (gapAnalysis (scanGames locationData))).
Proof. apply scan_NoDup. constructor. Qed.

Lemma gapRecord_number (st : gapState) (l : Map Z (list (option Z))) :
  map Gap.number (map (gapRecord st) l) = map fst l.
Proof. rewrite map_map. reflexivity. Qed.

(** *** The counters of the pool numbers *)

Lemma Map_get_increment (m : Map Z Z) (x : Z) :
  Map_get (map (fun e => (fst e, snd e + 1)) m) x
  = option_map (fun c => c + 1) (Map_get m x).
Proof.
  induction m as [| [k v] m IH]; simpl; [reflexivity |].
  destruct (key_eq_dec x k); [reflexivity | exact IH].
Qed.

Lemma good_gaps_snoc (gaps : list (option Z)) (c : Z) :
  good_gaps gaps -> 0 <= c -> good_gaps (gaps ++ [Some c]).
Proof.
  intros [g0 [rest [-> [Hg0 Hrest]]]] Hc.
  exists g0, (rest ++ [Some c]). repeat split; [exact Hg0 |].
  apply Forall_app. split; [exact Hrest |].
  constructor; [| constructor]. now exists c.
Qed.

Lemma counters_ok_initial : counters_ok false initialGaps.
Proof.
  intros x Hx. exists 0. unfold initialGaps. cbn [currentGaps gapAnalysis Map_get].
  rewrite (Map_get_tabulated (fun _ => 0)).
  destruct (in_dec Z.eq_dec x (Zrange 1 80)) as [_ | Hnin].
  - repeat split; lia.
  - exfalso. apply Hnin, In_Zrange. unfold in_pool in Hx. simpl. lia.
Qed.

Lemma counters_ok_increment (st : gapState) :
  counters_ok false st ->
  counters_ok true {| gapAnalysis := gapAnalysis st;
                      currentGaps := map (fun e => (fst e, snd e + 1)) (currentGaps st) |}.
Proof.
  intros Hok x Hx. destruct (Hok x Hx) as [c [Hget [Hc Hgaps]]].
  exists (c + 1). simpl. rewrite Map_get_increment, Hget. simpl.
  repeat split; [lia |].
  destruct (Map_get (gapAnalysis st) x); [exact Hgaps | lia].
Qed.

Lemma counters_ok_record (st : gapState) (num : Z) :
  counters_ok true st -> counters_ok true (recordAppearance st num).
Proof.
  intros Hok x Hx. destruct (Hok x Hx) as [c [Hget [Hc Hgaps]]].
  unfold recordAppearance. simpl.
  destruct (Z.eq_dec x num) as [-> | Hne].
  - exists 0. rewrite !Map_get_set_same. repeat split; [lia |].
    rewrite Hget. unfold gaps_so_far.
    destruct (Map_get (gapAnalysis st) num) as [gaps |].
    + now apply good_gaps_snoc.
    + exists c, []. repeat split; [exact Hgaps | constructor].
  - exists c. rewrite !Map_get_set_other by exact Hne.
    repeat split; assumption.
Qed.

Lemma counters_ok_weaken (st : gapState) : counters_ok true st -> counters_ok false st.
Proof.
  intros Hok x Hx. destruct (Hok x Hx) as [c [Hget [Hc Hgaps]]].
  exists c. repeat split; try assumption.
  destruct (Map_get (gapAnalysis st) x); [exact Hgaps | exact I].
Qed.

Lemma counters_ok_scanGame (st : gapState) (numbers : draw) :
  counters_ok false st -> counters_ok false (scanGame st numbers).
Proof.
  intros Hok. apply counters_ok_weaken. unfold scanGame.
  apply counters_ok_increment in Hok. revert Hok.
  generalize {| gapAnalysis := gapAnalysis st;
                currentGaps := map (fun e => (fst e, snd e + 1)) (currentGaps st) |}.
  induction numbers as [| n numbers IH]; intros st' Hok; simpl; [exact Hok |].
  apply IH. now apply counters_ok_record.
Qed.

Lemma counters_ok_scan (draws : list draw) (st : gapState) :
  counters_ok false st -> counters_ok false (fold_left scanGame draws st).
Proof.
  revert st. induction draws as [| d draws IH]; intros st Hok; simpl; [exact Hok |].
  apply IH. now apply counters_ok_scanGame.
Qed.

(** *** Sums and quotients of recorded gaps *)

Lemma Qred_eq (p q : Q) : (p == q)%Q -> Qred p = Qred q.
Proof. apply Qred_complete. Qed.

Lemma sum_of_gaps (gaps : list (option Z)) (a : Q) :
  Forall (fun g => exists z, g = Some z /\ 0 <= z) gaps ->
  exists s, fold_left (fun sum gap => Num.add sum (to_num gap)) gaps (Fin a) = Fin s
            /\ (a <= s)%Q.
Proof.
  revert a. induction gaps as [| g gaps IH]; intros a Hall; simpl.
  - exists a. split; [reflexivity | apply Qle_refl].
  - inversion Hall as [| ? ? [z [-> Hz]] Hall']; subst. simpl.
    destruct (IH (Qred (a + inject_Z z)) Hall') as [s [Hs Hle]].
    exists s. split; [exact Hs |].
    rewrite Qred_correct in Hle.
    assert (0 <= inject_Z z)%Q by (unfold Qle; simpl; lia). lra.
Qed.

Lemma average_of_good_gaps (gaps : list (option Z)) :
  good_gaps gaps ->
  finite_pos
    (Num.div (fold_left (fun sum gap => Num.add sum (to_num gap)) gaps (Num.of_Z 0))
             (Num.of_Z (Z.of_nat (List.length gaps)))).
Proof.
  intros [g0 [rest [-> [Hg0 Hrest]]]]. cbn [fold_left].
  change (Num.add (Num.of_Z 0) (to_num (Some g0)))
    with (Fin (Qred (inject_Z 0 + inject_Z g0))).
  destruct (sum_of_gaps rest (Qred (inject_Z 0 + inject_Z g0)) Hrest) as [s [Hs Hle]].
  rewrite Hs. rewrite Qred_correct in Hle. change (inject_Z 0) with 0%Q in Hle.
  assert (Hg : (1 <= inject_Z g0)%Q) by (unfold Qle; simpl; lia).
  assert (Hlen : (0 < inject_Z (Z.of_nat (List.length (Some g0 :: rest))))%Q)
    by (unfold Qlt; simpl; lia).
  unfold Num.of_Z, Num.div.
  destruct (Qeq_bool _ 0) eqn:Hz.
  - apply Qeq_bool_iff in Hz. rewrite Hz in Hlen. now apply Qlt_irrefl in Hlen.
  - eexists. split; [reflexivity |]. rewrite Qred_correct.
    apply Qlt_shift_div_l; [exact Hlen | lra].
Qed.

Lemma ratio_finite (c : Z) (avg : num) :
  0 <= c -> finite_pos avg -> finite_nonneg (Num.div (to_num (Some c)) avg).
Proof.
  intros Hc [a [-> Ha]]. unfold to_num, Num.div, Num.of_Z.
  destruct (Qeq_bool a 0) eqn:Hz.
  - apply Qeq_bool_iff in Hz. rewrite Hz in Ha. now apply Qlt_irrefl in Ha.
  - eexists. split; [reflexivity |]. rewrite Qred_correct.
    apply Qle_shift_div_l; [exact Ha |].
    assert (0 <= inject_Z c)%Q by (unfold Qle; simpl; lia). lra.
Qed.

(** The numbers of the records are the keys of [gapAnalysis], reordered. *)
Lemma analyzeNumberGaps_keys (locationData : history) (records : list Gap.t) :
  analyzeNumberGaps (Some locationData) = Some records ->
  Permutation (map Gap.number records) (map fst (gapAnalysis (scanGames locationData))).
Proof.
  unfold analyzeNumberGaps. intros [= <-].
  now rewrite Array_sort_perm, gapRecord_number.
Qed.

Lemma analyzeNumberGaps_NoDup (locationData : history) (records : list Gap.t) :
  analyzeNumberGaps (Some locationData) = Some records ->
  NoDup (map Gap.number records).
Proof.
  intros Hr.
  apply (Permutation_NoDup (Permutation_sym (analyzeNumberGaps_keys _ _ Hr))).
  apply scanGames_NoDup.
Qed.

Lemma analyzeNumberGaps_numbers (locationData : history) (records : list Gap.t) (x : Z) :
  analyzeNumberGaps (Some locationData) = Some records ->
  (In x (map Gap.number records) <-> appears locationData x).
Proof.
  intros Hr. rewrite <- scanGames_keys.
  pose proof (analyzeNumberGaps_keys _ _ Hr) as Hperm.
  split; apply Permutation_in; [exact Hperm | now symmetry].
Qed.

(** The record of a pool number: its counter started at 0, so every gap it
    recorded is a number and the first is at least 1. *)
Lemma analyzeNumberGaps_finite (locationData : history) (records : list Gap.t) (r : Gap.t) :
  analyzeNumberGaps (Some locationData) = Some records ->
  In r records -> in_pool (Gap.number r) ->
  finite_pos (Gap.averageGap r) /\ finite_nonneg (Gap.gapRatio r).
Proof.
  unfold analyzeNumberGaps. intros [= <-] Hr Hpool.
  set (st := scanGames locationData) in *.
  apply Array_sort_In, in_map_iff in Hr.
  destruct Hr as [[x gaps] [<- Hin]]. simpl in Hpool.
  pose proof (counters_ok_scan (map snd (games_newest_first locationData)) _
                counters_ok_initial x Hpool) as Hok.
  fold (scanGames locationData) in Hok. fold st in Hok.
  destruct Hok as [c [Hget [Hc Hgaps]]].
  rewrite (In_Map_get _ _ _ (scanGames_NoDup locationData) Hin) in Hgaps.
  unfold gapRecord. simpl. rewrite Hget.
  pose proof (average_of_good_gaps gaps Hgaps) as Havg.
  split; [exact Havg | now apply ratio_finite].
Qed.

(** *** A number that every draw holds once *)

Lemma recordAppearance_other (numbers : draw) (st : gapState) (x : Z) :
  ~ In x numbers ->
  Map_get (currentGaps (fold_left recordAppearance numbers st)) x
  = Map_get (currentGaps st) x /\
  Map_get (gapAnalysis (fold_left recordAppearance numbers st)) x
  = Map_get (gapAnalysis st) x.
Proof.
  revert st. induction numbers as [| n numbers IH]; intros st Hnin; simpl; [tauto |].
  simpl in Hnin.
  destruct (IH (recordAppearance st n)) as [Hcur Hgaps]; [tauto |].
  rewrite Hcur, Hgaps. unfold recordAppearance. simpl.
  rewrite !Map_get_set_other by (intros ->; tauto). tauto.
Qed.

Lemma once_split (numbers : draw) (x : Z) :
  count_occ Z.eq_dec numbers x = 1%nat ->
  exists before after,
    numbers = before ++ x :: after /\ ~ In x before /\ ~ In x after.
Proof.
  intros Hcount.
  assert (Hin : In x numbers) by (apply (count_occ_In Z.eq_dec); lia).
  destruct (in_split _ _ Hin) as [before [after ->]].
  exists before, after. split; [reflexivity |].
  rewrite count_occ_app in Hcount. simpl in Hcount.
  destruct (Z.eq_dec x x); [| congruence].
  split; apply (count_occ_not_In Z.eq_dec); lia.
Qed.

Lemma recordAppearance_same (st : gapState) (x : Z) :
  Map_get (currentGaps (recordAppearance st x)) x = Some 0 /\
  Map_get (gapAnalysis (recordAppearance st x)) x
  = Some (gaps_so_far st x ++ [Map_get (currentGaps st) x]).
Proof.
  unfold recordAppearance. cbn [currentGaps gapAnalysis].
  rewrite !Map_get_set_same. split; reflexivity.
Qed.

Lemma scanGame_once (st : gapState) (numbers : draw) (x c : Z) :
  Map_get (currentGaps st) x = Some c ->
  count_occ Z.eq_dec numbers x = 1%nat ->
  Map_get (currentGaps (scanGame st numbers)) x = Some 0 /\
  Map_get (gapAnalysis (scanGame st numbers)) x
  = Some (gaps_so_far st x ++ [Some (c + 1)]).
Proof.
  intros Hget Hcount.
  destruct (once_split numbers x Hcount) as [before [after [-> [Hb Ha]]]].
  unfold scanGame. rewrite fold_left_app. cbn [fold_left].
  set (st0 := {| gapAnalysis := gapAnalysis st;
                 currentGaps := map (fun e => (fst e, snd e + 1)) (currentGaps st) |}).
  set (st1 := fold_left recordAppearance before st0).
  destruct (recordAppearance_other before st0 x Hb) as [Hcur1 Hgaps1].
  fold st1 in Hcur1, Hgaps1.
  destruct (recordAppearance_other after (recordAppearance st1 x) x Ha) as [Hcur2 Hgaps2].
  destruct (recordAppearance_same st1 x) as [Hcur3 Hgaps3].
  rewrite Hcur2, Hgaps2, Hcur3, Hgaps3. split; [reflexivity |].
  unfold gaps_so_far. rewrite Hcur1, Hgaps1. unfold st0. cbn [currentGaps gapAnalysis].
  now rewrite Map_get_increment, Hget.
Qed.

Lemma scan_once (draws : list draw) (st : gapState) (x : Z) (k : nat) :
  Map_get (currentGaps st) x = Some 0 ->
  gaps_so_far st x = repeat (Some 1) k ->
  (forall d, In d draws -> count_occ Z.eq_dec d x = 1%nat) ->
  Map_get (currentGaps (fold_left scanGame draws st)) x = Some 0 /\
  gaps_so_far (fold_left scanGame draws st) x = repeat (Some 1) (k + List.length draws).
Proof.
  revert st k. induction draws as [| d draws IH]; intros st k Hcur Hgaps Hall; simpl.
  - now rewrite Nat.add_0_r.
  - destruct (scanGame_once st d x 0 Hcur (Hall d (or_introl eq_refl))) as [Hcur' Hgaps'].
    replace (k + S (List.length draws))%nat with (S k + List.length draws)%nat by lia.
    apply IH; [exact Hcur' | | intros d' Hd'; apply Hall; now right].
    unfold gaps_so_far at 1. rewrite Hgaps', Hgaps. simpl.
    now rewrite <- repeat_cons.
Qed.

Lemma sum_of_ones (k : nat) (a : Q) :
  exists s,
    fold_left (fun sum gap => Num.add sum (to_num gap)) (repeat (Some 1) k) (Fin a) = Fin s
    /\ (s == a + inject_Z (Z.of_nat k))%Q.
Proof.
  revert a. induction k as [| k IH]; intros a.
  - exists a. split; [reflexivity |]. simpl. ring.
  - cbn [repeat fold_left].
    change (Num.add (Fin a) (to_num (Some 1))) with (Fin (Qred (a + inject_Z 1))).
    destruct (IH (Qred (a + inject_Z 1))) as [s [Hs Heq]].
    exists s. split; [exact Hs |]. rewrite Heq, Qred_correct.
    rewrite Nat2Z.inj_succ. unfold Z.succ. rewrite inject_Z_plus. ring.
Qed.

(** On draws of Numbers: for every non-empty history and every pool
    number (1..80) that each draw holds exactly once, the record of
    [analyzeNumberGaps] for that number has [currentGap] 0, [averageGap] 1
    (every recorded gap is 1: the counter is incremented before the
    appearance is recorded) and [gapRatio] 0. *)
Lemma analyzeNumberGaps_numbers_every_draw (locationData : history) (x : Z) :
  locationData <> [] ->
  in_pool x ->
  (forall game, In game locationData -> count_occ Z.eq_dec (snd game) x = 1%nat) ->
  exists records r,
    analyzeNumberGaps (Some locationData) = Some records /\
    In r records /\
    Gap.number r = x /\
    Gap.currentGap r = Some 0 /\
    Gap.averageGap r = Fin 1 /\
    Gap.gapRatio r = Fin 0.
Proof.
  intros Hne Hpool Hall.
  set (st := scanGames locationData).
  set (draws := map snd (games_newest_first locationData)).
  assert (Hlen : List.length draws = List.length locationData).
  { unfold draws. rewrite length_map.
    apply Permutation_length, games_newest_first_perm. }
  assert (Hdraws : forall d, In d draws -> count_occ Z.eq_dec d x = 1%nat).
  { intros d Hd. apply in_map_iff in Hd. destruct Hd as [game [<- Hgame]].
    apply Hall. now apply games_newest_first_In. }
  assert (Hstart : Map_get (currentGaps initialGaps) x = Some 0).
  { destruct (counters_ok_initial x Hpool) as [c [Hget [_ _]]].
    unfold initialGaps in *. cbn [currentGaps] in *.
    rewrite (Map_get_tabulated (fun _ => 0)) in *.
    destruct (in_dec Z.eq_dec x (Zrange 1 80)); [reflexivity | discriminate]. }
  destruct (scan_once draws initialGaps x 0 Hstart eq_refl Hdraws) as [Hcur Hgaps].
  change (fold_left scanGame draws initialGaps) with st in Hcur, Hgaps.
  cbn [Nat.add] in Hgaps.
  set (n := List.length draws) in *.
  assert (Hn : (0 < n)%nat).
  { rewrite Hlen. destruct locationData; [congruence | simpl; lia]. }
  assert (Hentry : Map_get (gapAnalysis st) x = Some (repeat (Some 1) n)).
  { unfold gaps_so_far in Hgaps. destruct (Map_get (gapAnalysis st) x) as [gaps |].
    - now rewrite Hgaps.
    - destruct n; [lia | discriminate]. }
  exists (Array_sort by_gapRatio (map (gapRecord st) (gapAnalysis st))),
         (gapRecord st (x, repeat (Some 1) n)).
  split; [reflexivity |]. split.
  { apply Array_sort_In, in_map. now apply Map_get_In. }
  assert (Havg : Gap.averageGap (gapRecord st (x, repeat (Some 1) n)) = Fin 1).
  { unfold gapRecord. cbn [Gap.averageGap snd]. rewrite repeat_length.
    destruct (sum_of_ones n 0) as [s [Hs Heq]].
    unfold Num.of_Z at 1. change (inject_Z 0) with 0%Q. rewrite Hs.
    unfold Num.div, Num.of_Z.
    assert (Hpos : (0 < inject_Z (Z.of_nat n))%Q) by (unfold Qlt; simpl; lia).
    destruct (Qeq_bool _ 0) eqn:Hz.
    - apply Qeq_bool_iff in Hz. rewrite Hz in Hpos. now apply Qlt_irrefl in Hpos.
    - f_equal. change 1%Q with (Qred 1). apply Qred_complete.
      rewrite Heq. field. intros Hzero. rewrite Hzero in Hpos.
      now apply Qlt_irrefl in Hpos. }
  repeat split.
  - unfold gapRecord. cbn [Gap.currentGap fst]. exact Hcur.
  - exact Havg.
  - unfold gapRecord in *. cbn [Gap.gapRatio Gap.averageGap fst snd] in *.
    rewrite Havg, Hcur. reflexivity.
Qed.

(* ================================================================== *)
(** * [analyzeNumberGaps] on the draws as the data files hold them *)
(* ================================================================== *)

Lemma Map_get_incremented (m : Map value Z) (k : value) :
  Map_get (map (fun e => (fst e, snd e + 1)) m) k
  = option_map (fun c => c + 1) (Map_get m k).
Proof.
  induction m as [| [k' v] m IH]; simpl; [reflexivity |].
  destruct (key_eq_dec k k'); [reflexivity | exact IH].
Qed.

Lemma Map_get_pool (c : Z) (z : Z) :
  Map_get (map (fun i => (JNumber i, c)) (Zrange 1 80)) (JNumber z)
  = if in_dec Z.eq_dec z (Zrange 1 80) then Some c else None.
Proof.
  induction (Zrange 1 80) as [| y keys IH]; simpl; [reflexivity |].
  destruct (key_eq_dec (JNumber z) (JNumber y)) as [Heq | Hne].
  - injection Heq as Heq. subst y. destruct (Z.eq_dec z z); [reflexivity | congruence].
  - rewrite IH. destruct (Z.eq_dec y z) as [Heq | Hyz]; [subst; congruence |].
    destruct (in_dec Z.eq_dec z keys); reflexivity.
Qed.

Lemma Map_get_pool_string (c : Z) (s : string) :
  Map_get (map (fun i => (JNumber i, c)) (Zrange 1 80)) (JString s) = None.
Proof.
  induction (Zrange 1 80) as [| y keys IH]; simpl; [reflexivity |].
  destruct (key_eq_dec (JString s) (JNumber y)); [discriminate | exact IH].
Qed.

(** ** The keys of [gapAnalysis] *)

Lemma Values_record_keys (numbers : Values.draw) (st : Values.gapState) (x : value) :
  In x (map fst (Values.gapAnalysis (fold_left Values.recordAppearance numbers st)))
  <-> In x (map fst (Values.gapAnalysis st)) \/ In x numbers.
Proof.
  revert st. induction numbers as [| n numbers IH]; intros st; simpl; [tauto |].
  rewrite IH. unfold Values.recordAppearance at 1. simpl.
  rewrite Map_set_In_key. intuition congruence.
Qed.

Lemma Values_scan_keys (draws : list Values.draw) (st : Values.gapState) (x : value) :
  In x (map fst (Values.gapAnalysis (fold_left Values.scanGame draws st)))
  <-> In x (map fst (Values.gapAnalysis st)) \/ exists d, In d draws /\ In x d.
Proof.
  revert st. induction draws as [| d draws IH]; intros st; simpl.
  - split; [now left | intros [? | [d [[] _]]]; assumption].
  - rewrite IH. unfold Values.scanGame. rewrite Values_record_keys. simpl. split.
    + intros [[? | ?] | [d' [? ?]]]; [now left | right; exists d; tauto
                                      | right; exists d'; tauto].
    + intros [? | [d' [[<- | ?] ?]]]; [tauto | tauto | right; exists d'; tauto].
Qed.

Lemma Values_record_NoDup (numbers : Values.draw) (st : Values.gapState) :
  NoDup (map fst (Values.gapAnalysis st)) ->
  NoDup (map fst (Values.gapAnalysis (fold_left Values.recordAppearance numbers st))).
Proof.
  revert st. induction numbers as [| n numbers IH]; intros st Hnd; simpl; [exact Hnd |].
  apply IH. unfold Values.recordAppearance. simpl. now apply Map_set_NoDup.
Qed.

Lemma Values_scan_NoDup (draws : list Values.draw) (st : Values.gapState) :
  NoDup (map fst (Values.gapAnalysis st)) ->
  NoDup (map fst (Values.gapAnalysis (fold_left Values.scanGame draws st))).
Proof.
  revert st. induction draws as [| d draws IH]; intros st Hnd; simpl; [exact Hnd |].
  apply IH. unfold Values.scanGame. now apply Values_record_NoDup.
Qed.

Lemma Values_games_perm (locationData : Values.history) :
  Permutation (Values.games_newest_first locationData) locationData.
Proof.
  unfold Values.games_newest_first, ascending. now rewrite !Array_sort_perm.
Qed.

Lemma Values_scanGames_keys (locationData : Values.history) (v : value) :
  In v (map fst (Values.gapAnalysis (Values.scanGames locationData)))
  <-> observed locationData v.
Proof.
  unfold Values.scanGames. rewrite Values_scan_keys. simpl. unfold observed. split.
  - intros [[] | [d [Hd Hx]]]. apply in_map_iff in Hd.
    destruct Hd as [game [<- Hgame]]. exists game.
    split; [| exact Hx]. now apply (Permutation_in _ (Values_games_perm locationData)).
  - intros [game [Hgame Hx]]. right. exists (snd game).
    split; [| exact Hx]. apply in_map.
    now apply (Permutation_in _ (Permutation_sym (Values_games_perm locationData))).
Qed.

(** C4, as the code has it: for every history the output of
    [analyzeNumberGaps] holds one record for each value that some draw
    holds, and none for a number that no draw holds: the records are built
    from the entries of [gapAnalysis], which has a key only for what was
    drawn, and no average is put in for the rest of the pool. *)
Theorem analyzeNumberGaps_covers (StringToNumber : string -> num)
    (locationData : Values.history) :
  exists records drawn,
    Values.analyzeNumberGaps StringToNumber (Some locationData) = Some records /\
    NoDup drawn /\
    (forall v, In v drawn <-> observed locationData v) /\
    Permutation (map Values.Gap.number records)
                (map (Values.Number StringToNumber) drawn) /\
    (forall x, In x (map Values.Gap.number records) ->
               exists v, observed locationData v /\ x = Values.Number StringToNumber v).
Proof.
  set (st := Values.scanGames locationData).
  exists (Array_sort Values.by_gapRatio
            (map (Values.gapRecord StringToNumber st) (Values.gapAnalysis st))).
  exists (map fst (Values.gapAnalysis st)).
  assert (Hnumbers : Permutation
            (map Values.Gap.number
               (Array_sort Values.by_gapRatio
                  (map (Values.gapRecord StringToNumber st) (Values.gapAnalysis st))))
            (map (Values.Number StringToNumber) (map fst (Values.gapAnalysis st)))).
  { rewrite (Permutation_map Values.Gap.number (Array_sort_perm _ _)).
    rewrite !map_map. reflexivity. }
  split; [reflexivity |].
  split; [apply Values_scan_NoDup; constructor |].
  split; [intros v; apply Values_scanGames_keys |].
  split; [exact Hnumbers |].
  intros x Hx. apply (Permutation_in _ Hnumbers) in Hx.
  apply in_map_iff in Hx. destruct Hx as [v [<- Hv]].
  exists v. split; [now apply Values_scanGames_keys | reflexivity].
Qed.

(** C4 as stated fails: after the one draw ["5"] the output has the one
    record of 5, and the pool number 7 has none; the same holds with the
    Number 5 in the draw. *)
Lemma analyzeNumberGaps_counterexample :
  in_pool 7 /\
  (exists records,
     Values.analyzeNumberGaps decimal (Some [ (1, [JString "5"]) ]) = Some records /\
     map Values.Gap.number records = [Num.of_Z 5] /\
     ~ In (Num.of_Z 7) (map Values.Gap.number records)) /\
  (exists records,
     Values.analyzeNumberGaps decimal (Some [ (1, [JNumber 5]) ]) = Some records /\
     map Values.Gap.number records = [Num.of_Z 5] /\
     ~ In (Num.of_Z 7) (map Values.Gap.number records)).
Proof.
  split; [unfold in_pool; lia |].
  split; (eexists; split; [vm_compute; reflexivity |];
          split; [reflexivity |]; intros [H | []]; discriminate).
Qed.

(** ** String draws *)

Lemma string_scan_initial : string_scan 0 Values.initialGaps.
Proof.
  split; [| split].
  - intros z Hz. unfold Values.initialGaps. cbn [Values.currentGaps].
    rewrite Map_get_pool.
    destruct (in_dec Z.eq_dec z (Zrange 1 80)) as [_ | Hnin]; [reflexivity |].
    exfalso. apply Hnin, In_Zrange. unfold in_pool in Hz. simpl. lia.
  - intros s _. apply Map_get_pool_string.
  - intros k gaps Hget. discriminate.
Qed.

Lemma string_scan_record (n : Z) (st : Values.gapState) (s : string) :
  string_scan n st -> string_scan n (Values.recordAppearance st (JString s)).
Proof.
  intros (Hpool & Hfresh & Hfirst). unfold string_scan, Values.recordAppearance.
  cbn [Values.gapAnalysis Values.currentGaps]. split; [| split].
  - intros z Hz. rewrite Map_get_set_other by discriminate. now apply Hpool.
  - intros s' Hnone.
    destruct (string_dec s' s) as [-> | Hne].
    + rewrite Map_get_set_same in Hnone. discriminate.
    + rewrite Map_get_set_other in Hnone by congruence.
      rewrite Map_get_set_other by congruence. now apply Hfresh.
  - intros k gaps Hget.
    destruct (key_eq_dec k (JString s)) as [-> | Hne].
    + rewrite Map_get_set_same in Hget. injection Hget as <-.
      unfold Values.gaps_so_far.
      destruct (Map_get (Values.gapAnalysis st) (JString s)) as [old |] eqn:Hold.
      * destruct (Hfirst _ _ Hold) as [rest ->]. now exists (rest ++ [Map_get (Values.currentGaps st) (JString s)]).
      * rewrite (Hfresh s Hold). now exists [].
    + rewrite Map_get_set_other in Hget by exact Hne. now apply (Hfirst k).
Qed.

Lemma string_scan_game (n : Z) (st : Values.gapState) (numbers : Values.draw) :
  (forall v, In v numbers -> exists s, v = JString s) ->
  string_scan n st -> string_scan (n + 1) (Values.scanGame st numbers).
Proof.
  intros Hstrings (Hpool & Hfresh & Hfirst). unfold Values.scanGame.
  assert (Hstart : string_scan (n + 1)
            {| Values.gapAnalysis := Values.gapAnalysis st;
               Values.currentGaps :=
                 map (fun e => (fst e, snd e + 1)) (Values.currentGaps st) |}).
  { unfold string_scan. cbn [Values.gapAnalysis Values.currentGaps]. split; [| split].
    - intros z Hz. rewrite Map_get_incremented, (Hpool z Hz). reflexivity.
    - intros s Hnone. rewrite Map_get_incremented, (Hfresh s Hnone). reflexivity.
    - exact Hfirst. }
  revert Hstart.
  generalize {| Values.gapAnalysis := Values.gapAnalysis st;
                Values.currentGaps :=
                  map (fun e => (fst e, snd e + 1)) (Values.currentGaps st) |}.
  induction numbers as [| v numbers IH]; intros st' Hst'; cbn [fold_left]; [exact Hst' |].
  apply IH; [intros v' Hv'; apply Hstrings; now right |].
  destruct (Hstrings v ltac:(now left)) as [s ->]. now apply string_scan_record.
Qed.

Lemma string_scan_games (draws : list Values.draw) (n : Z) (st : Values.gapState) :
  (forall d v, In d draws -> In v d -> exists s, v = JString s) ->
  string_scan n st ->
  string_scan (n + Z.of_nat (List.length draws)) (fold_left Values.scanGame draws st).
Proof.
  revert n st. induction draws as [| d draws IH]; intros n st Hstrings Hst.
  - cbn [fold_left List.length Z.of_nat]. now rewrite Z.add_0_r.
  - cbn [fold_left List.length]. rewrite Nat2Z.inj_succ.
    replace (n + Z.succ (Z.of_nat (List.length draws)))
      with (n + 1 + Z.of_nat (List.length draws)) by lia.
    apply IH; [intros d' v Hd'; apply Hstrings; now right |].
    apply string_scan_game; [intros v Hv; apply (Hstrings d); [now left | exact Hv] | exact Hst].
Qed.

Lemma sum_from_NaN (gaps : list (option Z)) :
  fold_left (fun sum gap => Num.add sum (to_num gap)) gaps NaN = NaN.
Proof. induction gaps as [| g gaps IH]; [reflexivity | exact IH]. Qed.

Lemma integer_key (x : num) (z : Z) :
  integer x z -> Values.number_key x = Some (JNumber z).
Proof.
  intros [q [-> Hq]]. unfold Values.number_key.
  assert (Hfloor : Qfloor q = z) by (rewrite Hq; apply Qfloor_Z).
  rewrite Hfloor.
  destruct (Qeq_bool (inject_Z z) q) eqn:Hb; [reflexivity |].
  apply Qeq_bool_neq in Hb. exfalso. apply Hb. now symmetry.
Qed.

(** On draws of strings, as the data files hold them, every record of
    [analyzeNumberGaps] has NaN as [averageGap] and as [gapRatio], and its
    [currentGap] is the number of games when the string spells a pool
    number: [currentGaps.get(num)] looks the string up among the Number
    keys 1..80, so the first gap recorded for it is [undefined], and the
    counter that is set back to 0 is the string's, not the one the record
    reads with [Number(number)]. *)
Theorem analyzeNumberGaps_on_strings (StringToNumber : string -> num)
    (locationData : Values.history) (records : list Values.Gap.t) (r : Values.Gap.t) :
  strings_only locationData ->
  Values.analyzeNumberGaps StringToNumber (Some locationData) = Some records ->
  In r records ->
  Values.Gap.averageGap r = NaN /\
  Values.Gap.gapRatio r = NaN /\
  (forall z, in_pool z -> integer (Values.Gap.number r) z ->
             Values.Gap.currentGap r = Some (Z.of_nat (List.length locationData))).
Proof.
  intros Hstrings Hrecords Hr.
  unfold Values.analyzeNumberGaps in Hrecords. injection Hrecords as <-.
  apply Array_sort_In, in_map_iff in Hr. destruct Hr as [[k gaps] [<- He]].
  assert (Hscan : string_scan (Z.of_nat (List.length locationData))
                              (Values.scanGames locationData)).
  { unfold Values.scanGames.
    replace (Z.of_nat (List.length locationData))
      with (0 + Z.of_nat (List.length (map snd (Values.games_newest_first locationData)))).
    - apply string_scan_games; [| exact string_scan_initial].
      intros d v Hd Hv. apply in_map_iff in Hd. destruct Hd as [game [<- Hgame]].
      apply (Hstrings game); [| exact Hv].
      now apply (Permutation_in _ (Values_games_perm locationData)).
    - rewrite length_map, (Permutation_length (Values_games_perm locationData)). lia. }
  destruct Hscan as (Hpool & _ & Hfirst).
  assert (Hget : Map_get (Values.gapAnalysis (Values.scanGames locationData)) k = Some gaps).
  { apply In_Map_get; [apply Values_scan_NoDup; constructor | exact He]. }
  destruct (Hfirst k gaps Hget) as [rest ->].
  assert (Havg : Values.Gap.averageGap
                   (Values.gapRecord StringToNumber (Values.scanGames locationData)
                                     (k, None :: rest)) = NaN).
  { unfold Values.gapRecord. cbn [Values.Gap.averageGap snd fold_left to_num Num.add].
    now rewrite sum_from_NaN. }
  split; [exact Havg |]. split.
  - unfold Values.gapRecord in *. cbn [Values.Gap.averageGap Values.Gap.gapRatio] in *.
    rewrite Havg. now destruct (to_num _).
  - intros z Hz Hint. unfold Values.gapRecord in *.
    cbn [Values.Gap.number Values.Gap.currentGap fst] in *.
    unfold Values.current_of. rewrite (integer_key _ z Hint). now apply Hpool.
Qed.

Lemma analyzeNumberGaps_on_strings_witness :
  strings_only [ (1, [JString "5"]) ] /\
  exists r,
    Values.analyzeNumberGaps decimal (Some [ (1, [JString "5"]) ]) = Some [r] /\
    Values.Gap.averageGap r = NaN /\
    Values.Gap.gapRatio r = NaN /\
    Values.Gap.currentGap r = Some 1.
Proof.
  assert (Hstrings : strings_only [ (1, [JString "5"]) ]).
  { intros game v [<- | []] [<- | []]. now exists "5"%string. }
  split; [exact Hstrings |].
  eexists. split; [vm_compute; reflexivity |].
  destruct (analyzeNumberGaps_on_strings decimal [ (1, [JString "5"]) ] _ _
              Hstrings eq_refl (or_introl eq_refl)) as (Havg & Hratio & Hcurrent).
  split; [exact Havg |]. split; [exact Hratio |].
  apply (Hcurrent 5).
  - unfold in_pool. lia.
  - exists 5%Q. split; reflexivity.
Defined.

(** C5 fails on the data the page reads. In the history with the one
    draw ["5"], the number 5 is in every draw, and its record has
    [currentGap] 1 and NaN as [averageGap]; with the Number 5 in the place
    of the string the counter is set back and [currentGap] is 0. *)
Theorem analyzeNumberGaps_string_draw :
  Values.analyzeNumberGaps decimal (Some [ (1, [JString "5"]) ])
  = Some [ {| Values.Gap.number := Num.of_Z 5; Values.Gap.currentGap := Some 1;
              Values.Gap.averageGap := NaN; Values.Gap.gapRatio := NaN |} ] /\
  Values.analyzeNumberGaps decimal (Some [ (1, [JNumber 5]) ])
  = Some [ {| Values.Gap.number := Num.of_Z 5; Values.Gap.currentGap := Some 0;
              Values.Gap.averageGap := Num.of_Z 1; Values.Gap.gapRatio := Num.of_Z 0 |} ].
Proof. split; vm_compute; reflexivity. Qed.

(** *** [Math.max] and [normalizeScores] *)

Lemma nonnegative_Fin (x : num) :
  nonnegative x = true -> exists q, x = Fin q /\ (0 <= q)%Q.
Proof.
  destruct x as [q | | |]; simpl; try discriminate.
  intros Hq. exists q. split; [reflexivity | now apply Qle_bool_iff].
Qed.

Lemma max2_fold_upper (values : list num) (a : Q) :
  forallb nonnegative values = true ->
  exists M, fold_left Num.max2 values (Fin a) = Fin M /\ (a <= M)%Q /\
            forall q, In (Fin q) values -> (q <= M)%Q.
Proof.
  revert a. induction values as [| x values IH]; intros a Hall; simpl.
  - exists a. split; [reflexivity |]. split; [apply Qle_refl | intros q []].
  - simpl in Hall. apply andb_true_iff in Hall. destruct Hall as [Hx Hall].
    destruct (nonnegative_Fin x Hx) as [b [-> Hb]]. simpl.
    destruct (Qle_bool a b) eqn:Hab.
    + apply Qle_bool_iff in Hab.
      destruct (IH b Hall) as [M [HM [Hle Hup]]].
      exists M. split; [exact HM |]. split; [lra |].
      intros q [[= ->] | Hq]; [exact Hle | now apply Hup].
    + assert (Hba : (b <= a)%Q).
      { destruct (Qlt_le_dec a b) as [Hlt | Hle]; [| exact Hle].
        apply Qlt_le_weak, Qle_bool_iff in Hlt. congruence. }
      destruct (IH a Hall) as [M [HM [Hle Hup]]].
      exists M. split; [exact HM |]. split; [exact Hle |].
      intros q [[= ->] | Hq]; [lra | now apply Hup].
Qed.

Lemma Math_max_upper (values : list num) :
  well_scaled values = true ->
  exists M, Math_max values = Fin M /\ (0 < M)%Q /\
            forall q, In (Fin q) values -> (q <= M)%Q.
Proof.
  unfold well_scaled, Math_max. intros Hscaled.
  apply andb_true_iff in Hscaled. destruct Hscaled as [Hall Hpos].
  destruct values as [| x values]; [discriminate |].
  simpl in Hall. apply andb_true_iff in Hall. destruct Hall as [Hx Hall].
  destruct (nonnegative_Fin x Hx) as [b [-> Hb]].
  simpl in *. destruct (max2_fold_upper values b Hall) as [M [HM [Hle Hup]]].
  rewrite HM in *. exists M. split; [reflexivity |]. split.
  - unfold Num.positive, Num.Qpositive in Hpos.
    apply negb_true_iff in Hpos.
    destruct (Qlt_le_dec 0 M) as [Hlt | HleM]; [exact Hlt |].
    apply Qle_bool_iff in HleM. congruence.
  - intros q [[= ->] | Hq]; [exact Hle | now apply Hup].
Qed.

Lemma normalizeScores_unit {A : Type} (number : A -> Z) (scoreKey : A -> num)
    (array : list A) :
  well_scaled (map scoreKey array) = true ->
  forall item, In item (normalizeScores number scoreKey array) ->
    exists s, snd item = Fin s /\ (0 <= s <= 1)%Q.
Proof.
  intros Hscaled item Hin.
  destruct (Math_max_upper _ Hscaled) as [M [HM [Hpos Hup]]].
  unfold normalizeScores in Hin. rewrite HM in Hin.
  apply in_map_iff in Hin. destruct Hin as [a [<- Ha]]. simpl.
  unfold well_scaled in Hscaled. apply andb_true_iff in Hscaled.
  destruct Hscaled as [Hall _]. rewrite forallb_forall in Hall.
  destruct (nonnegative_Fin _ (Hall _ (in_map scoreKey _ _ Ha))) as [q [Hq Hq0]].
  rewrite Hq. unfold Num.div.
  destruct (Qeq_bool M 0) eqn:Hz.
  - apply Qeq_bool_iff in Hz. rewrite Hz in Hpos. now apply Qlt_irrefl in Hpos.
  - eexists. split; [reflexivity |]. rewrite Qred_correct.
    assert (HqM : (q <= M)%Q).
    { apply Hup. rewrite <- Hq. now apply in_map. }
    split.
    + apply Qle_shift_div_l; [exact Hpos | lra].
    + apply Qle_shift_div_r; [exact Hpos | lra].
Qed.

Lemma normalizeScores_keys {A : Type} (number : A -> Z) (scoreKey : A -> num)
    (array : list A) :
  map fst (normalizeScores number scoreKey array) = map number array.
Proof. unfold normalizeScores. now rewrite map_map. Qed.

(** *** One pass of [accumulate] *)

Lemma accumulate_within (weight before : Q) (items : list (Z * num)) (m : Map Z num) :
  (0 <= weight)%Q -> (0 <= before)%Q ->
  NoDup (map fst items) ->
  (forall item, In item items -> exists s, snd item = Fin s /\ (0 <= s <= 1)%Q) ->
  scores_within before (before + weight) (map fst items) m ->
  scores_within (before + weight) (before + weight) []
                (fold_left (accumulate (Fin weight)) items m).
Proof.
  intros Hw Hbefore. revert m.
  induction items as [| [k0 s0] items IH]; intros m Hnd Hitems Hm.
  - simpl. intros k v Hin. destruct (Hm k v Hin) as [q [-> [H0 [Hb _]]]].
    exists q. split; [reflexivity |]. split; [exact H0 |]. split; [exact Hb |].
    intros [].
  - simpl in Hnd. inversion Hnd as [| ? ? Hnotin Hnd']; subst.
    cbn [fold_left]. apply IH; [exact Hnd' | intros item Hi; apply Hitems; now right |].
    destruct (Hitems (k0, s0) (or_introl eq_refl)) as [s [Hs [Hs0 Hs1]]].
    simpl in Hs. subst s0.
    assert (Hprev : exists p, match Map_get m k0 with
                              | Some v => Num.or_zero v
                              | None => Num.of_Z 0
                              end = Fin p /\ (0 <= p)%Q /\ (p <= before)%Q).
    { destruct (Map_get m k0) as [v |] eqn:Hget.
      - apply Map_get_In in Hget.
        destruct (Hm k0 v Hget) as [q [-> [H0 [_ Hb]]]].
        specialize (Hb (or_introl eq_refl)). simpl.
        destruct (Qeq_bool q 0) eqn:Hz.
        + exists 0%Q. split; [reflexivity |]. split; [apply Qle_refl | exact Hbefore].
        + exists q. split; [reflexivity |]. split; assumption.
      - exists 0%Q. split; [reflexivity |]. split; [apply Qle_refl | exact Hbefore]. }
    destruct Hprev as [p [Hp [Hp0 Hpb]]].
    intros k v Hin. unfold accumulate in Hin. cbn [fst snd] in Hin.
    rewrite Hp in Hin. apply Map_set_In in Hin.
    destruct Hin as [[-> ->] | Hold].
    + cbn [Num.mul Num.add]. eexists. split; [reflexivity |].
      rewrite !Qred_correct.
      assert (Hsw : (0 <= s * weight)%Q) by (apply Qmult_le_0_compat; assumption).
      assert (Hsw1 : (s * weight <= 1 * weight)%Q)
        by (apply Qmult_le_compat_r; assumption).
      split; [lra |]. split; [lra |]. intros Hk0. contradiction.
    + destruct (Hm k v Hold) as [q [-> [H0 [Hb Hpend]]]].
      exists q. split; [reflexivity |]. split; [exact H0 |]. split; [exact Hb |].
      intros Hk. apply Hpend. now right.
Qed.

Lemma scores_within_relax (b1 b1' b2 b2' : Q) (pending : list Z) (m : Map Z num) :
  scores_within b1 b1' [] m -> (b1' <= b2)%Q -> (b2 <= b2')%Q ->
  scores_within b2 b2' pending m.
Proof.
  intros Hm H12 H22 k v Hin. destruct (Hm k v Hin) as [q [-> [H0 [Hb _]]]].
  exists q. split; [reflexivity |]. split; [exact H0 |]. split; [lra |].
  intros _. lra.
Qed.

Lemma NoDup_normalizeScores {A : Type} (number : A -> Z) (scoreKey : A -> num)
    (array : list A) :
  NoDup (map number array) -> NoDup (map fst (normalizeScores number scoreKey array)).
Proof. now rewrite normalizeScores_keys. Qed.

Lemma combinedScores_within (recentTrends : list Trend.t) (gapAnalysis : list Gap.t)
    (hotCold : list HotCold.t) :
  NoDup (map Trend.number recentTrends) ->
  NoDup (map Gap.number gapAnalysis) ->
  NoDup (map HotCold.number hotCold) ->
  well_scaled (map Trend.momentum recentTrends) = true ->
  well_scaled (map Gap.gapRatio gapAnalysis) = true ->
  well_scaled (map (fun h => Num.of_Z (HotCold.weightedScore h)) hotCold) = true ->
  scores_within 1 1 [] (combinedScores_of recentTrends gapAnalysis hotCold).
Proof.
  intros Nt Ng Nh St Sg Sh. unfold combinedScores_of.
  unfold weight_trends, weight_gaps, weight_hotCold.
  assert (H1 : scores_within (0 + (2 # 5)) (0 + (2 # 5)) []
                 (fold_left (accumulate (Fin (2 # 5)))
                    (normalizeScores Trend.number Trend.momentum recentTrends) [])).
  { apply (accumulate_within (2 # 5) 0); try lra.
    - now apply NoDup_normalizeScores.
    - now apply normalizeScores_unit.
    - intros k v []. }
  assert (H2 : scores_within ((2 # 5) + (3 # 10)) ((2 # 5) + (3 # 10)) []
                 (fold_left (accumulate (Fin (3 # 10)))
                    (normalizeScores Gap.number Gap.gapRatio gapAnalysis)
                    (fold_left (accumulate (Fin (2 # 5)))
                       (normalizeScores Trend.number Trend.momentum recentTrends) []))).
  { apply (accumulate_within (3 # 10) (2 # 5)); try lra.
    - now apply NoDup_normalizeScores.
    - now apply normalizeScores_unit.
    - apply (scores_within_relax _ _ _ _ _ _ H1); lra. }
  apply (scores_within_relax ((7 # 10) + (3 # 10)) ((7 # 10) + (3 # 10))); try lra.
  apply (accumulate_within (3 # 10) (7 # 10)); try lra.
  - now apply NoDup_normalizeScores.
  - now apply (normalizeScores_unit HotCold.number
                 (fun h => Num.of_Z (HotCold.weightedScore h))).
  - apply (scores_within_relax _ _ _ _ _ _ H2); lra.
Qed.

(** *** [toFixed] on a score *)

Lemma toFixed_unit (q : Q) :
  (0 <= q <= 1)%Q -> unit_score (toFixed 3 (Fin q)).
Proof.
  intros [H0 H1]. unfold toFixed.
  assert (Habs : (Qabs q == q)%Q) by now apply Qabs_pos.
  destruct (Qle_bool (inject_Z (10 ^ 21)) (Qabs q)) eqn:Hbig.
  - apply Qle_bool_iff in Hbig. rewrite Habs in Hbig.
    assert (Hlarge : (1 < inject_Z (10 ^ 21))%Q) by reflexivity.
    set (large := inject_Z (10 ^ 21)) in *. clearbody large. exfalso. lra.
  - replace (Num.Qnegative q) with false
      by (symmetry; apply negb_false_iff, Qle_bool_iff; exact H0).
    eexists. split; [reflexivity |].
    change (10 ^ Z.of_nat 3) with 1000.
    split.
    + apply Z.le_trans with (Qfloor 0); [discriminate |].
      apply Qfloor_resp_le. rewrite Habs.
      change (inject_Z 1000) with 1000%Q. lra.
    + apply Z.le_trans with (Qfloor (1000 + (1 # 2))); [| discriminate].
      apply Qfloor_resp_le. rewrite Habs.
      change (inject_Z 1000) with 1000%Q. lra.
Qed.

Lemma toFixed_percent (q : Q) :
  (0 <= q <= 1)%Q ->
  at_most_100_percent (toFixed 1 (Num.mul (Fin q) (Num.of_Z 100))).
Proof.
  intros [H0 H1]. unfold Num.mul, Num.of_Z, toFixed.
  set (p := Qred (q * inject_Z 100)).
  assert (Hp : (p == q * 100)%Q) by (unfold p; now rewrite Qred_correct).
  assert (Hp0 : (0 <= p)%Q) by (rewrite Hp; lra).
  assert (Habs : (Qabs p == p)%Q) by now apply Qabs_pos.
  destruct (Qle_bool (inject_Z (10 ^ 21)) (Qabs p)) eqn:Hbig.
  - apply Qle_bool_iff in Hbig. rewrite Habs, Hp in Hbig.
    assert (Hlarge : (100 < inject_Z (10 ^ 21))%Q) by reflexivity.
    set (large := inject_Z (10 ^ 21)) in *. clearbody large. exfalso. lra.
  - replace (Num.Qnegative p) with false
      by (symmetry; apply negb_false_iff, Qle_bool_iff; exact Hp0).
    eexists. split; [reflexivity |].
    change (10 ^ Z.of_nat 1) with 10.
    split.
    + apply Z.le_trans with (Qfloor 0); [discriminate |].
      apply Qfloor_resp_le. rewrite Habs, Hp.
      change (inject_Z 10) with 10%Q. lra.
    + apply Z.le_trans with (Qfloor (1000 + (1 # 2))); [| discriminate].
      apply Qfloor_resp_le. rewrite Habs, Hp.
      change (inject_Z 10) with 10%Q. lra.
Qed.

Lemma In_slice_to {A : Type} (n : nat) (l : list A) (x : A) :
  In x (slice_to n l) -> In x l.
Proof.
  unfold slice_to. intros Hx. rewrite <- (firstn_skipn n l).
  apply in_or_app. now left.
Qed.

Lemma predictions_of_bounded (recentTrends : list Trend.t) (gapAnalysis : list Gap.t)
    (hotCold : list HotCold.t) :
  NoDup (map Trend.number recentTrends) ->
  NoDup (map Gap.number gapAnalysis) ->
  NoDup (map HotCold.number hotCold) ->
  well_scaled (map Trend.momentum recentTrends) = true ->
  well_scaled (map Gap.gapRatio gapAnalysis) = true ->
  well_scaled (map (fun h => Num.of_Z (HotCold.weightedScore h)) hotCold) = true ->
  forall p, In p (predictions_of recentTrends gapAnalysis hotCold) ->
    unit_score (Prediction.score p) /\ at_most_100_percent (Prediction.confidence p).
Proof.
  intros Nt Ng Nh St Sg Sh p Hp.
  pose proof (combinedScores_within _ _ _ Nt Ng Nh St Sg Sh) as Hwithin.
  unfold predictions_of in Hp.
  apply In_slice_to, Array_sort_In, in_map_iff in Hp.
  destruct Hp as [[k v] [<- Hin]]. cbn [Prediction.score Prediction.confidence fst snd].
  destruct (Hwithin k v Hin) as [q [-> [H0 [H1 _]]]].
  split; [now apply toFixed_unit | now apply toFixed_percent].
Qed.

(** *** The number of each analyzer's records is a key of its map *)

Lemma tally_NoDup (l : list Z) : NoDup (map fst (fold_left tally l [])).
Proof.
  rewrite tally_fold, map_map. simpl. rewrite map_id. apply first_seen_NoDup.
Qed.

Lemma analyzeRecentTrends_NoDup (locationData : history) (windowSize : Z)
    (recentTrends : list Trend.t) :
  analyzeRecentTrends (Some locationData) windowSize = Some recentTrends ->
  NoDup (map Trend.number recentTrends).
Proof.
  unfold analyzeRecentTrends. intros [= <-].
  eapply Permutation_NoDup.
  - symmetry. apply Permutation_map, Array_sort_perm.
  - rewrite map_map. cbn [Trend.number]. apply tally_NoDup.
Qed.

Lemma weigh_NoDup (weight : Z) (numbers : draw) (m : Map Z Z) :
  NoDup (map fst m) -> NoDup (map fst (fold_left (weigh weight) numbers m)).
Proof.
  revert m. induction numbers as [| n numbers IH]; intros m Hnd; simpl; [exact Hnd |].
  apply IH. unfold weigh. now apply Map_set_NoDup.
Qed.

Lemma weigh_games_NoDup (weight : Z) (games : list (Z * draw)) (m : Map Z Z) :
  NoDup (map fst m) ->
  NoDup (map fst (fold_left (fun m game => fold_left (weigh weight) (snd game) m) games m)).
Proof.
  revert m. induction games as [| g games IH]; intros m Hnd; simpl; [exact Hnd |].
  apply IH. now apply weigh_NoDup.
Qed.

Lemma analyzeHotColdPatterns_NoDup (locationData : history) (recentWeight : Z)
    (hotCold : list HotCold.t) :
  analyzeHotColdPatterns (Some locationData) recentWeight = Some hotCold ->
  NoDup (map HotCold.number hotCold).
Proof.
  unfold analyzeHotColdPatterns. intros [= <-].
  eapply Permutation_NoDup.
  - symmetry. apply Permutation_map, Array_sort_perm.
  - rewrite map_map. cbn [HotCold.number].
    apply weigh_games_NoDup, weigh_games_NoDup. constructor.
Qed.

(** C10: for every history whose three metric sets (the momentum of the
    recent trends, the gap ratios, the weighted hot/cold scores) each hold
    only non-negative Numbers with a positive maximum, and so are not
    empty, [generatePredictions] returns, and every returned entry has a
    printed score between 0.000 and 1.000 and a printed confidence of at
    most 100.0 percent. Quotients are exact rationals here. *)
Theorem generatePredictions_scores_bounded (locationData : history)
    (recentTrends : list Trend.t) (gapAnalysis : list Gap.t) (hotCold : list HotCold.t) :
  analyzeRecentTrends (Some locationData) 10 = Some recentTrends ->
  analyzeNumberGaps (Some locationData) = Some gapAnalysis ->
  analyzeHotColdPatterns (Some locationData) 2 = Some hotCold ->
  well_scaled (map Trend.momentum recentTrends) = true ->
  well_scaled (map Gap.gapRatio gapAnalysis) = true ->
  well_scaled (map (fun h => Num.of_Z (HotCold.weightedScore h)) hotCold) = true ->
  exists predictions,
    generatePredictions (Some locationData) = Returned predictions /\
    forall p, In p predictions ->
      unit_score (Prediction.score p) /\ at_most_100_percent (Prediction.confidence p).
Proof.
  intros Ht Hg Hh St Sg Sh.
  exists (predictions_of recentTrends gapAnalysis hotCold). split.
  - unfold generatePredictions. now rewrite Ht, Hg, Hh.
  - apply predictions_of_bounded; try assumption.
    + now apply (analyzeRecentTrends_NoDup locationData 10).
    + now apply (analyzeNumberGaps_NoDup locationData).
    + now apply (analyzeHotColdPatterns_NoDup locationData 2).
Qed.

Lemma generatePredictions_scores_bounded_witness :
  exists recentTrends gapAnalysis hotCold,
    analyzeRecentTrends (Some two_games) 10 = Some recentTrends /\
    analyzeNumberGaps (Some two_games) = Some gapAnalysis /\
    analyzeHotColdPatterns (Some two_games) 2 = Some hotCold /\
    well_scaled (map Trend.momentum recentTrends) = true /\
    well_scaled (map Gap.gapRatio gapAnalysis) = true /\
    well_scaled (map (fun h => Num.of_Z (HotCold.weightedScore h)) hotCold) = true /\
    exists predictions,
      generatePredictions (Some two_games) = Returned predictions /\
      forall p, In p predictions ->
        unit_score (Prediction.score p) /\ at_most_100_percent (Prediction.confidence p).
Proof.
  do 3 eexists.
  split; [reflexivity |]. split; [reflexivity |]. split; [reflexivity |].
  split; [reflexivity |]. split; [reflexivity |]. split; [reflexivity |].
  apply (generatePredictions_scores_bounded two_games _ _ _ eq_refl eq_refl eq_refl);
    reflexivity.
Defined.

(** *** The three key sets *)

Lemma tally_keys (l : list Z) (x : Z) : In x (map fst (fold_left tally l [])) <-> In x l.
Proof.
  rewrite tally_fold, map_map. simpl. rewrite map_id. apply first_seen_In.
Qed.

Lemma analyzeRecentTrends_numbers (locationData : history) (windowSize : Z)
    (recentTrends : list Trend.t) (x : Z) :
  analyzeRecentTrends (Some locationData) windowSize = Some recentTrends ->
  In x (map Trend.number recentTrends) -> appears locationData x.
Proof.
  unfold analyzeRecentTrends. intros [= <-] Hx.
  apply (Permutation_in _ (Permutation_map _ (Array_sort_perm _ _))) in Hx.
  rewrite map_map in Hx. cbn [Trend.number] in Hx.
  apply tally_keys, in_flat_map in Hx. destruct Hx as [game [Hgame Hx]].
  exists game. split; [| exact Hx].
  now apply games_newest_first_In, (In_slice_to (Z.to_nat windowSize)).
Qed.

Lemma weigh_keys (weight : Z) (numbers : draw) (m : Map Z Z) (x : Z) :
  In x (map fst (fold_left (weigh weight) numbers m)) <-> In x (map fst m) \/ In x numbers.
Proof.
  revert m. induction numbers as [| n numbers IH]; intros m; simpl; [tauto |].
  rewrite IH. unfold weigh. rewrite Map_set_In_key. intuition congruence.
Qed.

Lemma weigh_games_keys (weight : Z) (games : list (Z * draw)) (m : Map Z Z) (x : Z) :
  In x (map fst (fold_left (fun m game => fold_left (weigh weight) (snd game) m) games m))
  <-> In x (map fst m) \/ exists game, In game games /\ In x (snd game).
Proof.
  revert m. induction games as [| g games IH]; intros m; simpl.
  - split; [now left | intros [? | [g [[] _]]]; assumption].
  - rewrite IH, weigh_keys. split.
    + intros [[? | ?] | [g' [? ?]]]; [now left | right; exists g; tauto
                                      | right; exists g'; tauto].
    + intros [? | [g' [[<- | ?] ?]]]; [tauto | tauto | right; exists g'; tauto].
Qed.

Lemma analyzeHotColdPatterns_numbers (locationData : history) (recentWeight : Z)
    (hotCold : list HotCold.t) (x : Z) :
  analyzeHotColdPatterns (Some locationData) recentWeight = Some hotCold ->
  (In x (map HotCold.number hotCold) <-> appears locationData x).
Proof.
  unfold analyzeHotColdPatterns. intros [= <-].
  set (games := games_newest_first locationData).
  assert (Hperm : forall l, Permutation
            (map HotCold.number (Array_sort by_weightedScore l)) (map HotCold.number l))
    by (intros l; apply Permutation_map, Array_sort_perm).
  split.
  - intros Hx. apply (Permutation_in _ (Hperm _)) in Hx.
    rewrite map_map in Hx. cbn [HotCold.number] in Hx.
    apply weigh_games_keys in Hx. destruct Hx as [Hx | [game [Hgame Hx]]].
    + apply weigh_games_keys in Hx. destruct Hx as [[] | [game [Hgame Hx]]].
      exists game. split; [| exact Hx].
      now apply games_newest_first_In, (In_slice_to 20).
    + exists game. split; [| exact Hx]. apply games_newest_first_In.
      fold games. rewrite <- (firstn_skipn 20 games). apply in_or_app. now right.
  - intros [game [Hgame Hx]].
    apply (Permutation_in _ (Permutation_sym (Hperm _))).
    rewrite map_map. cbn [HotCold.number].
    apply weigh_games_keys.
    apply games_newest_first_In in Hgame. fold games in Hgame.
    rewrite <- (firstn_skipn 20 games) in Hgame. apply in_app_or in Hgame.
    destruct Hgame as [Hrecent | Holder].
    + left. apply weigh_games_keys. right. now exists game.
    + right. now exists game.
Qed.

(** *** The weighted scores are at least 1 *)

Lemma weigh_at_least (weight : Z) (numbers : draw) (m : Map Z Z) :
  1 <= weight ->
  (forall k v, In (k, v) m -> 1 <= v) ->
  forall k v, In (k, v) (fold_left (weigh weight) numbers m) -> 1 <= v.
Proof.
  intros Hw. revert m. induction numbers as [| n numbers IH]; intros m Hm; simpl;
    [exact Hm |].
  apply IH. intros k v Hin. unfold weigh in Hin. apply Map_set_In in Hin.
  destruct Hin as [[-> ->] | Hold]; [| now apply (Hm k)].
  unfold get_or_0. destruct (Map_get m n) as [v0 |] eqn:Hget; [| lia].
  apply Map_get_In in Hget. specialize (Hm n v0 Hget). lia.
Qed.

Lemma weigh_games_at_least (weight : Z) (games : list (Z * draw)) (m : Map Z Z) :
  1 <= weight ->
  (forall k v, In (k, v) m -> 1 <= v) ->
  forall k v,
    In (k, v) (fold_left (fun m game => fold_left (weigh weight) (snd game) m) games m) ->
    1 <= v.
Proof.
  intros Hw. revert m. induction games as [| g games IH]; intros m Hm; simpl;
    [exact Hm |].
  apply IH. now apply weigh_at_least.
Qed.

Lemma analyzeHotColdPatterns_at_least (locationData : history) (hotCold : list HotCold.t) :
  analyzeHotColdPatterns (Some locationData) 2 = Some hotCold ->
  forall h, In h hotCold -> 1 <= HotCold.weightedScore h.
Proof.
  unfold analyzeHotColdPatterns. intros [= <-] h Hh.
  apply Array_sort_In, in_map_iff in Hh. destruct Hh as [[k v] [<- Hin]].
  cbn [HotCold.weightedScore snd].
  apply (weigh_games_at_least 1) in Hin; [exact Hin | lia |].
  apply (weigh_games_at_least 2); [lia |]. intros ? ? [].
Qed.

Lemma well_scaled_at_least_one (values : list Z) :
  values <> [] -> (forall z, In z values -> 1 <= z) ->
  well_scaled (map Num.of_Z values) = true.
Proof.
  intros Hne Hall. unfold well_scaled.
  assert (Hnn : forallb nonnegative (map Num.of_Z values) = true).
  { apply forallb_forall. intros x Hx. apply in_map_iff in Hx.
    destruct Hx as [z [<- Hz]]. simpl. apply Qle_bool_iff.
    specialize (Hall z Hz). unfold Qle. simpl. lia. }
  rewrite Hnn. simpl.
  destruct values as [| z values]; [congruence |].
  change (Math_max (map Num.of_Z (z :: values)))
    with (fold_left Num.max2 (map Num.of_Z values) (Fin (inject_Z z))).
  simpl in Hnn. apply andb_true_iff in Hnn. destruct Hnn as [_ Hnn].
  destruct (max2_fold_upper (map Num.of_Z values) (inject_Z z) Hnn) as [M [HM [Hle _]]].
  rewrite HM. unfold Num.positive, Num.Qpositive.
  apply negb_true_iff. destruct (Qle_bool M 0) eqn:HM0; [| reflexivity].
  apply Qle_bool_iff in HM0.
  assert (1 <= inject_Z z)%Q by (specialize (Hall z (or_introl eq_refl)); unfold Qle; simpl; lia).
  lra.
Qed.

(** *** [combinedScores] *)

Lemma accumulate_keys (weight : num) (items : list (Z * num)) (m : Map Z num) (k : Z) :
  In k (map fst (fold_left (accumulate weight) items m))
  <-> In k (map fst m) \/ In k (map fst items).
Proof.
  revert m. induction items as [| item items IH]; intros m; simpl; [tauto |].
  rewrite IH. unfold accumulate. rewrite Map_set_In_key. intuition congruence.
Qed.

Lemma accumulate_NoDup (weight : num) (items : list (Z * num)) (m : Map Z num) :
  NoDup (map fst m) -> NoDup (map fst (fold_left (accumulate weight) items m)).
Proof.
  revert m. induction items as [| item items IH]; intros m Hnd; simpl; [exact Hnd |].
  apply IH. unfold accumulate. now apply Map_set_NoDup.
Qed.

Lemma accumulate_nil (weight : num) (items : list (Z * num)) (m : Map Z num) :
  fold_left (accumulate weight) items m = [] <-> items = [] /\ m = [].
Proof.
  split.
  - intros Hnil.
    assert (Hkeys : forall k, ~ (In k (map fst m) \/ In k (map fst items))).
    { intros k Hk. apply (accumulate_keys weight) in Hk. now rewrite Hnil in Hk. }
    split.
    + destruct items as [| item items]; [reflexivity |].
      exfalso. apply (Hkeys (fst item)). right. now left.
    + destruct m as [| e m]; [reflexivity |].
      exfalso. apply (Hkeys (fst e)). left. now left.
  - intros [-> ->]. reflexivity.
Qed.

Lemma normalizeScores_nil {A : Type} (number : A -> Z) (scoreKey : A -> num)
    (array : list A) :
  normalizeScores number scoreKey array = [] <-> array = [].
Proof.
  unfold normalizeScores. split; [| intros ->; reflexivity].
  destruct array; [reflexivity | discriminate].
Qed.

Lemma combinedScores_nil (recentTrends : list Trend.t) (gapAnalysis : list Gap.t)
    (hotCold : list HotCold.t) :
  combinedScores_of recentTrends gapAnalysis hotCold = []
  <-> recentTrends = [] /\ gapAnalysis = [] /\ hotCold = [].
Proof.
  unfold combinedScores_of. rewrite !accumulate_nil, !normalizeScores_nil. tauto.
Qed.

Lemma predictions_of_nil (recentTrends : list Trend.t) (gapAnalysis : list Gap.t)
    (hotCold : list HotCold.t) :
  predictions_of recentTrends gapAnalysis hotCold = []
  <-> recentTrends = [] /\ gapAnalysis = [] /\ hotCold = [].
Proof.
  rewrite <- combinedScores_nil. unfold predictions_of, slice_to.
  set (records := map _ (combinedScores_of recentTrends gapAnalysis hotCold)).
  assert (Hrec : records = [] <-> combinedScores_of recentTrends gapAnalysis hotCold = []).
  { unfold records. split; [| intros ->; reflexivity].
    destruct (combinedScores_of recentTrends gapAnalysis hotCold);
      [reflexivity | discriminate]. }
  rewrite <- Hrec, <- (Array_sort_nil by_score records).
  destruct (Array_sort by_score records); simpl; split; congruence.
Qed.

Lemma or_zero_not_NaN (v : num) : Num.or_zero v <> NaN.
Proof.
  destruct v as [q | | |]; simpl; try discriminate.
  destruct (Qeq_bool q 0); discriminate.
Qed.

Lemma add_finite_not_NaN (x : num) (q : Q) : x <> NaN -> Num.add x (Fin q) <> NaN.
Proof. destruct x; simpl; congruence. Qed.

Lemma accumulate_settles (weight : Q) (items : list (Z * num)) (done : list Z)
    (m : Map Z num) :
  (forall item, In item items -> exists s, snd item = Fin s) ->
  settled done m ->
  settled (done ++ map fst items) (fold_left (accumulate (Fin weight)) items m).
Proof.
  revert done m. induction items as [| [k0 s0] items IH]; intros done m Hitems Hm.
  - simpl. now rewrite app_nil_r.
  - cbn [fold_left map fst].
    replace (done ++ k0 :: map fst items) with ((done ++ [k0]) ++ map fst items)
      by now rewrite <- app_assoc.
    apply IH; [intros item Hi; apply Hitems; now right |].
    destruct (Hitems (k0, s0) (or_introl eq_refl)) as [s Hs]. simpl in Hs. subst s0.
    intros k v Hk Hget. unfold accumulate in Hget. cbn [fst snd] in Hget.
    destruct (Z.eq_dec k k0) as [-> | Hne].
    + rewrite Map_get_set_same in Hget. injection Hget as <-.
      cbn [Num.mul]. apply add_finite_not_NaN.
      destruct (Map_get m k0); [apply or_zero_not_NaN | discriminate].
    + rewrite Map_get_set_other in Hget by exact Hne.
      apply (Hm k v); [| exact Hget].
      apply in_app_or in Hk. destruct Hk as [Hk | [<- | []]]; [exact Hk | congruence].
Qed.

Lemma toFixed_not_NaN (digits : nat) (v : num) : v <> NaN -> toFixed digits v <> Str_NaN.
Proof.
  destruct v as [q | | |]; simpl; try discriminate; try congruence.
  destruct (Qle_bool _ _); discriminate.
Qed.

(** C7, as the code has it: for every loaded history
    [generatePredictions] returns without throwing, there is no short
    circuit: the prediction list is empty exactly when all three metric
    sets are empty, and one empty set leaves the numbers of the others
    scored. No returned score is NaN: every scored number has a hot/cold
    entry, whose pass replaces a NaN left by an earlier one. *)
Theorem generatePredictions_no_short_circuit (locationData : history) :
  exists recentTrends gapAnalysis hotCold predictions,
    analyzeRecentTrends (Some locationData) 10 = Some recentTrends /\
    analyzeNumberGaps (Some locationData) = Some gapAnalysis /\
    analyzeHotColdPatterns (Some locationData) 2 = Some hotCold /\
    generatePredictions (Some locationData) = Returned predictions /\
    (predictions = [] <-> recentTrends = [] /\ gapAnalysis = [] /\ hotCold = []) /\
    (forall p, In p predictions -> Prediction.score p <> Str_NaN).
Proof.
  destruct (analyzeRecentTrends (Some locationData) 10) as [recentTrends |] eqn:Ht;
    [| discriminate].
  destruct (analyzeNumberGaps (Some locationData)) as [gapAnalysis |] eqn:Hg;
    [| discriminate].
  destruct (analyzeHotColdPatterns (Some locationData) 2) as [hotCold |] eqn:Hh;
    [| discriminate].
  exists recentTrends, gapAnalysis, hotCold,
         (predictions_of recentTrends gapAnalysis hotCold).
  split; [reflexivity |]. split; [reflexivity |]. split; [reflexivity |].
  split; [unfold generatePredictions; now rewrite Ht, Hg, Hh |].
  split; [apply predictions_of_nil |].
  intros p Hp. unfold predictions_of in Hp.
  apply In_slice_to, Array_sort_In, in_map_iff in Hp.
  destruct Hp as [[k v] [<- Hin]]. cbn [Prediction.score snd].
  apply toFixed_not_NaN.
  set (normalizedHotCold :=
         normalizeScores HotCold.number (fun h => Num.of_Z (HotCold.weightedScore h)) hotCold).
  assert (Hkey : In k (map fst normalizedHotCold)).
  { unfold normalizedHotCold. rewrite normalizeScores_keys.
    apply (analyzeHotColdPatterns_numbers locationData 2 hotCold k Hh).
    apply (in_map fst) in Hin. cbn [fst] in Hin.
    unfold combinedScores_of in Hin. rewrite !accumulate_keys in Hin.
    rewrite !normalizeScores_keys in Hin.
    destruct Hin as [[[[] | Hk] | Hk] | Hk].
    - now apply (analyzeRecentTrends_numbers locationData 10 recentTrends).
    - now apply (analyzeNumberGaps_numbers locationData gapAnalysis).
    - now apply (analyzeHotColdPatterns_numbers locationData 2 hotCold). }
  assert (Hne : hotCold <> []).
  { intros ->. destruct Hkey. }
  assert (Hscaled : well_scaled
            (map (fun h => Num.of_Z (HotCold.weightedScore h)) hotCold) = true).
  { rewrite <- (map_map HotCold.weightedScore Num.of_Z).
    apply well_scaled_at_least_one.
    - destruct hotCold; [congruence | discriminate].
    - intros z Hz. apply in_map_iff in Hz. destruct Hz as [h [<- Hin']].
      now apply (analyzeHotColdPatterns_at_least locationData hotCold Hh). }
  assert (Hsettled : settled ([] ++ map fst normalizedHotCold)
                             (combinedScores_of recentTrends gapAnalysis hotCold)).
  { unfold combinedScores_of, weight_hotCold. apply accumulate_settles.
    - intros item Hitem.
      destruct (normalizeScores_unit _ _ _ Hscaled item Hitem) as [s [Hs _]].
      now exists s.
    - intros ? ? []. }
  apply (Hsettled k v Hkey).
  apply In_Map_get; [| exact Hin].
  unfold combinedScores_of. repeat apply accumulate_NoDup. constructor.
Qed.

(** C7 as stated fails: the ten newest games hold no number, so the
    recent-trend set is empty, and the number 5 of the oldest game is still
    scored and returned. *)
Lemma generatePredictions_counterexample :
  analyzeRecentTrends (Some ten_empty_games_after_one) 10 = Some [] /\
  generatePredictions (Some ten_empty_games_after_one)
  = Returned [ {| Prediction.number := 5;
                  Prediction.score := Digits 3 300;
                  Prediction.confidence := Digits 1 300;
                  Prediction.recentTrend := Fin 0;
                  Prediction.gapAnalysis := Fin 0;
                  Prediction.hotColdScore := Fin 2 |} ].
Proof. split; reflexivity. Qed.

Lemma getNumberCounts_lookup (locationData : history) (stats : list NumberStat.t) (x : Z) :
  getNumberCounts (Some locationData) = Some stats ->
  find_or_0 (fun item => NumberStat.number item =? x) NumberStat.count stats
  = occurrences (all_numbers locationData) x.
Proof.
  unfold getNumberCounts. intros [= <-].
  set (sorted := Array_sort _ _).
  assert (Hitems : forall e, In e sorted ->
            snd e = occurrences (all_numbers locationData) (fst e) /\
            In (fst e) (all_numbers locationData)).
  { intros e He. apply Array_sort_In in He.
    rewrite numberCounts_of_flat, tally_fold in He.
    apply in_map_iff in He. destruct He as [y [<- Hy]].
    split; [reflexivity | now apply first_seen_In]. }
  assert (Hall : forall y, In y (all_numbers locationData) -> In y (map fst sorted)).
  { intros y Hy. apply (Permutation_in _ (Permutation_map _
                          (Permutation_sym (Array_sort_perm _ _)))).
    rewrite numberCounts_of_flat. now apply tally_keys. }
  unfold find_or_0.
  destruct (find _ _) as [item |] eqn:Hfind.
  - apply find_some in Hfind. destruct Hfind as [Hin Hx].
    apply in_map_iff in Hin. destruct Hin as [e [<- He]].
    cbn [NumberStat.number NumberStat.count] in *.
    apply Z.eqb_eq in Hx. subst x. now apply Hitems.
  - symmetry. apply occurrences_zero. intros Hx.
    apply Hall, in_map_iff in Hx. destruct Hx as [e [<- He]].
    pose proof (find_none _ _ Hfind _ (in_map _ _ _ He)) as Hno.
    cbn [NumberStat.number] in Hno. apply Z.eqb_neq in Hno. congruence.
Qed.

Lemma individualScore_of_counts (locationData : history) (stats : list NumberStat.t)
    (combo : list Z) :
  getNumberCounts (Some locationData) = Some stats ->
  individualScore_of stats combo
  = fold_left (fun sum x => sum + occurrences (all_numbers locationData) x) combo 0.
Proof.
  intros Hstats. unfold individualScore_of. generalize 0.
  induction combo as [| x combo IH]; intros a; simpl; [reflexivity |].
  now rewrite IH, (getNumberCounts_lookup locationData stats x Hstats).
Qed.

(** On draws of Numbers the current-history variant does what C8 says:
    the frequency of each returned combination is the mean of its numbers'
    counts over the same history, printed with two decimals. *)
Theorem analyzeNumberCombinations_frequency
    (locationData : history) (allJson : option (object (object draw))) :
  exists records,
    analyzeNumberCombinations (loadData (Some locationData) allJson)
    = Returned (Some records) /\
    forall r, In r records ->
      Combination.avgIndividualFrequency r
      = mean_frequency locationData (Combination.numbers r).
Proof.
  unfold analyzeNumberCombinations, loadData, combination_analysis.
  cbn [current Counts].
  destruct (getNumberCounts (Some locationData)) as [stats |] eqn:Hstats;
    [| discriminate].
  eexists. split; [reflexivity |].
  intros r Hr. unfold topCombinations in Hr.
  apply in_map_iff in Hr. destruct Hr as [scored [<- Hs]].
  cbn [Combination.avgIndividualFrequency Combination.numbers].
  apply In_slice_to in Hs. unfold sortedCombinations in Hs.
  apply Array_sort_In, in_map_iff in Hs. destruct Hs as [e [<- He]].
  cbn [Scored.individualScore Scored.numbers]. unfold mean_frequency.
  now rewrite (individualScore_of_counts locationData stats (fst e) Hstats).
Qed.

(** C8 on the all-time variant: the combination (4, 5, 6) is counted over the
    all-time history, where each of its numbers occurs once, and its
    frequency is read from the counts of the current-day history, where none
    of them occurs: it is printed 0.00, not 1.00. *)
Theorem analyzeNumberCombinationsOfAllData_reads_current_counts :
  let g := loadData (Some one_game_today) (Some one_game_before) in
  allData g = Some [ (1, [4; 5; 6]) ] /\
  analyzeNumberCombinationsOfAllData g
  = Returned (Some [ {| Combination.numbers := [4; 5; 6];
                        Combination.occurrences := 1;
                        Combination.confidence := Digits 2 10000;
                        Combination.avgIndividualFrequency := Digits 2 0 |} ]) /\
  mean_frequency [ (1, [4; 5; 6]) ] [4; 5; 6] = Digits 2 100.
Proof. repeat split; reflexivity. Qed.

Lemma key_eqb_eq (a b : key) : key_eqb a b = true <-> a = b.
Proof.
  destruct a as [m | s], b as [n | t]; simpl.
  - rewrite Z.eqb_eq. split; congruence.
  - split; discriminate.
  - split; discriminate.
  - rewrite String.eqb_eq. split; congruence.
Qed.

Lemma property_In {V : Type} (o : object V) (k : key) (v : V) :
  distinct_keys o -> In (k, v) o -> property o k = Some v.
Proof.
  unfold distinct_keys. induction o as [| [k' v'] o IH]; simpl; [tauto |].
  intros Hnd [[= -> ->] | Hin].
  - now rewrite (proj2 (key_eqb_eq k k) eq_refl).
  - inversion Hnd as [| ? ? Hnotin Hnd']; subst.
    destruct (key_eqb k k') eqn:Hk; [| now apply IH].
    apply key_eqb_eq in Hk. subst k'. exfalso. apply Hnotin.
    now apply (in_map fst) in Hin.
Qed.

Lemma Object_entries_In {V : Type} (o : object V) (e : key * V) :
  In e (Object_entries o) <-> In e o.
Proof.
  unfold Object_entries, ascending, indices, names.
  rewrite in_app_iff, in_map_iff, filter_In. split.
  - intros [[[n v] [<- Hin]] | [Hin _]]; [| exact Hin].
    apply Array_sort_In, in_flat_map in Hin.
    destruct Hin as [[k v'] [Hin Hk]]. simpl in Hk.
    destruct k as [m | s]; [| destruct Hk].
    destruct Hk as [[= <- <-] | []]. exact Hin.
  - intros Hin. destruct e as [[n | s] v].
    + left. exists (n, v). split; [reflexivity |].
      apply Array_sort_In, in_flat_map. exists (Index n, v). split; [exact Hin | now left].
    + right. split; [exact Hin | reflexivity].
Qed.

(** The index keys come in ascending order, whatever the order of creation. *)
Lemma ascending_sorted {V : Type} (l : list (Z * V)) :
  StronglySorted (fun a b => fst a <= fst b) (ascending l).
Proof.
  unfold ascending. apply Array_sort_ordered.
  - intros x y z. lia.
  - intros x y Hc. apply positive_of_Z_false in Hc. lia.
  - intros x y Hc. apply positive_of_Z in Hc. lia.
Qed.

Lemma lookups {V W : Type} (o : object V) (f : key -> V -> list W) (E : list (key * V)) :
  (forall e, In e E -> property o (fst e) = Some (snd e)) ->
  flat_map (fun k => match property o k with
                     | Some v => f k v
                     | None => []
                     end) (map fst E)
  = flat_map (fun e => f (fst e) (snd e)) E.
Proof.
  induction E as [| e E IH]; intros Hall; simpl; [reflexivity |].
  rewrite (Hall e (or_introl eq_refl)), IH; [reflexivity |].
  intros e' He'. apply Hall. now right.
Qed.

Lemma flat_map_singleton {A B : Type} (f : A -> B) (l : list A) :
  flat_map (fun a => [f a]) l = map f l.
Proof. induction l as [| a l IH]; simpl; [reflexivity | now rewrite IH]. Qed.

(** C1, as the code has it: for every multi-date input (an object with one
    property per date, each an object with one property per game number)
    [processKenoData] gives the ids 1..N, each once, to all the draws, every
    draw unchanged; the ids run over the dates in the reverse of their
    [Object.keys] order (the order in which the input lists the date
    strings, reversed) and, within a date, over the game numbers
    ascending. Two dates that hold the same game number so give
    two draws with two ids. *)
Theorem processKenoData_reindexes (jsonData : object (object draw)) :
  well_formed jsonData ->
  exists reformattedData,
    processKenoData (Some jsonData) = Some reformattedData /\
    map fst reformattedData = Zrange 1 (List.length reformattedData) /\
    map snd reformattedData
    = List.concat (map Object_values (rev (Object_values jsonData))).
Proof.
  intros [Hdates Hgames].
  eexists. split; [reflexivity |].
  destruct (processKenoData_ids jsonData _ eq_refl) as [Hids _].
  split; [exact Hids |].
  set (flattenedData := flat_map _ (rev (Object_keys jsonData))).
  assert (Hlen : List.length (Zrange 1 (List.length flattenedData))
                 = List.length (map kenoGameStats flattenedData))
    by now rewrite Zrange_length, length_map.
  rewrite map_snd_combine by exact Hlen.
  unfold flattenedData, Object_keys, Object_values.
  rewrite <- !map_rev.
  rewrite (lookups jsonData
             (fun date games =>
                flat_map (fun gameNumber =>
                            match property games gameNumber with
                            | Some stats =>
                                [{| kenoGameNumber := gameNumber; kenoGameStats := stats |}]
                            | None => []
                            end)
                         (map fst (Object_entries games)))).
  - rewrite flat_map_concat_map, concat_map, !map_map. f_equal.
    apply map_ext_in. intros [date games] Hin. cbn [fst snd].
    rewrite <- in_rev, Object_entries_In in Hin.
    rewrite (lookups games
               (fun gameNumber stats =>
                  [{| kenoGameNumber := gameNumber; kenoGameStats := stats |}])).
    + rewrite flat_map_singleton, map_map. reflexivity.
    + intros e He. apply property_In; [now apply (Hgames date) |].
      destruct e. now apply Object_entries_In.
  - intros e He. rewrite <- in_rev, Object_entries_In in He.
    destruct e. now apply property_In.
Qed.

Lemma processKenoData_reindexes_witness :
  well_formed two_dates /\
  exists reformattedData,
    processKenoData (Some two_dates) = Some reformattedData /\
    map fst reformattedData = Zrange 1 (List.length reformattedData) /\
    map snd reformattedData
    = List.concat (map Object_values (rev (Object_values two_dates))).
Proof.
  assert (Hwf : well_formed two_dates).
  { split.
    - repeat constructor; simpl; intuition discriminate.
    - intros date games [[= <- <-] | [[= <- <-] | []]];
        repeat constructor; simpl; intuition discriminate. }
  split; [exact Hwf |].
  exact (processKenoData_reindexes two_dates Hwf).
Defined.

(** C1 as stated fails: with two dates of two games each, the ids follow
    neither "date descending, then game number descending" nor its
    reverse. *)
Lemma processKenoData_counterexample :
  processKenoData (Some two_dates)
  = Some [ (1, [7; 8; 9]); (2, [10; 11; 12]); (3, [1; 2; 3]); (4, [4; 5; 6]) ] /\
  processKenoData (Some two_dates)
  <> Some [ (1, [10; 11; 12]); (2, [7; 8; 9]); (3, [4; 5; 6]); (4, [1; 2; 3]) ] /\
  processKenoData (Some two_dates)
  <> Some [ (1, [1; 2; 3]); (2, [4; 5; 6]); (3, [7; 8; 9]); (4, [10; 11; 12]) ].
Proof. repeat split; discriminate. Qed.

(* ================================================================== *)
(** * Further properties of the analyzers *)
(* ================================================================== *)

(** ** Counting into a [Map] *)
Section CounterFacts.
Context {K : Type} `{Key K}.
Variable w : Z.

Lemma counter_get (l : list K) (m : Map K Z) (k : K) :
  get_or_0 (fold_left (fun m k => Map_set m k (get_or_0 m k + w)) l m) k
  = get_or_0 m k + w * key_count l k.
Proof.
  revert m. induction l as [| a l IH]; intros m.
  - unfold key_count. simpl. lia.
  - cbn [fold_left]. rewrite IH. unfold key_count. cbn [count_occ].
    destruct (key_eq_dec a k) as [-> | Hne].
    + unfold get_or_0 at 1. rewrite Map_get_set_same.
      rewrite Nat2Z.inj_succ. lia.
    + unfold get_or_0 at 1. rewrite Map_get_set_other by congruence.
      fold (get_or_0 m k). lia.
Qed.

Lemma counter_keys (l : list K) (m : Map K Z) (k : K) :
  In k (map fst (fold_left (fun m k => Map_set m k (get_or_0 m k + w)) l m))
  <-> In k (map fst m) \/ In k l.
Proof.
  revert m. induction l as [| a l IH]; intros m; simpl; [tauto |].
  rewrite IH, Map_set_In_key. intuition congruence.
Qed.

Lemma counter_NoDup (l : list K) (m : Map K Z) :
  NoDup (map fst m) ->
  NoDup (map fst (fold_left (fun m k => Map_set m k (get_or_0 m k + w)) l m)).
Proof.
  revert m. induction l as [| a l IH]; intros m Hnd; simpl; [exact Hnd |].
  apply IH. now apply Map_set_NoDup.
Qed.

(** Every entry of a counter started empty holds [w] times the number of
    occurrences of its key. *)
Lemma counter_entries (l : list K) (k : K) (v : Z) :
  In (k, v) (fold_left (fun m k => Map_set m k (get_or_0 m k + w)) l []) ->
  v = w * key_count l k /\ In k l.
Proof.
  intros Hin. split.
  - pose proof (counter_get l [] k) as Hget.
    unfold get_or_0 at 1 in Hget.
    rewrite (In_Map_get _ _ _ (counter_NoDup l [] (NoDup_nil _)) Hin) in Hget.
    rewrite Hget. unfold get_or_0. simpl. lia.
  - apply (in_map fst) in Hin. apply counter_keys in Hin.
    destruct Hin as [[] | Hin]. exact Hin.
Qed.

Lemma counter_step_total (m : Map K Z) (k : K) :
  total (map snd (Map_set m k (get_or_0 m k + w))) = total (map snd m) + w.
Proof.
  unfold get_or_0. induction m as [| [k' v'] m IH]; simpl; [lia |].
  destruct (key_eq_dec k k') as [-> | Hne]; simpl; [lia |].
  rewrite IH. lia.
Qed.

Lemma counter_total (l : list K) (m : Map K Z) :
  total (map snd (fold_left (fun m k => Map_set m k (get_or_0 m k + w)) l m))
  = total (map snd m) + w * Z.of_nat (List.length l).
Proof.
  revert m. induction l as [| a l IH]; intros m.
  - simpl. lia.
  - cbn [fold_left]. rewrite IH, counter_step_total.
    cbn [List.length]. lia.
Qed.
End CounterFacts.

Lemma total_perm (l l' : list Z) : Permutation l l' -> total l = total l'.
Proof.
  induction 1; simpl; try lia.
Qed.

Lemma key_count_Z (l : list Z) (x : Z) : key_count l x = occurrences l x.
Proof. reflexivity. Qed.

(** ** Sorting a mapped array *)
Lemma insert_sorted_map {A B : Type} (f : A -> B) (compareFn : B -> B -> num)
    (x : A) (l : list A) :
  insert_sorted compareFn (f x) (map f l)
  = map f (insert_sorted (fun a b => compareFn (f a) (f b)) x l).
Proof.
  induction l as [| y l IH]; simpl; [reflexivity |].
  destruct (Num.positive (compareFn (f x) (f y))); simpl; [now rewrite IH | reflexivity].
Qed.

Lemma Array_sort_map {A B : Type} (f : A -> B) (compareFn : B -> B -> num) (l : list A) :
  Array_sort compareFn (map f l)
  = map f (Array_sort (fun a b => compareFn (f a) (f b)) l).
Proof.
  induction l as [| x l IH]; simpl; [reflexivity |].
  now rewrite IH, insert_sorted_map.
Qed.

(** The games are scanned from the highest id down. *)
Lemma games_newest_first_sorted (locationData : history) :
  StronglySorted (fun a b => fst a >= fst b) (games_newest_first locationData).
Proof.
  unfold games_newest_first. apply Array_sort_ordered.
  - intros x y z. lia.
  - intros x y Hc. apply positive_of_Z_false in Hc. lia.
  - intros x y Hc. apply positive_of_Z in Hc. lia.
Qed.

Lemma games_newest_first_listed (locationData : history) :
  listed_newest_first locationData (games_newest_first locationData).
Proof.
  split; [apply games_newest_first_perm | apply games_newest_first_sorted].
Qed.

(** ** [getNumberCounts] *)

(** For every history [getNumberCounts] lists each number that occurs in
    it once, with the number of its occurrences as count (so at least 1),
    and the counts add up to the number of numbers drawn. *)
Theorem getNumberCounts_counts (locationData : history) :
  exists stats,
    getNumberCounts (Some locationData) = Some stats /\
    NoDup (map NumberStat.number stats) /\
    (forall x, In x (map NumberStat.number stats) <-> In x (all_numbers locationData)) /\
    (forall s, In s stats ->
       NumberStat.count s = occurrences (all_numbers locationData) (NumberStat.number s) /\
       1 <= NumberStat.count s) /\
    total (map NumberStat.count stats) = Z.of_nat (List.length (all_numbers locationData)).
Proof.
  eexists. split; [reflexivity |].
  set (sorted := Array_sort _ (numberCounts_of locationData)).
  assert (Hperm : Permutation sorted (numberCounts_of locationData))
    by apply Array_sort_perm.
  rewrite !map_map. cbn [NumberStat.number NumberStat.count].
  rewrite numberCounts_of_flat in Hperm.
  split; [| split; [| split]].
  - apply (Permutation_NoDup (Permutation_map fst (Permutation_sym Hperm))).
    apply tally_NoDup.
  - intros x. rewrite <- (tally_keys (all_numbers locationData) x).
    split; apply Permutation_in;
      [exact (Permutation_map fst Hperm) | exact (Permutation_map fst (Permutation_sym Hperm))].
  - intros s Hs. apply in_map_iff in Hs. destruct Hs as [[x c] [<- He]].
    cbn [NumberStat.number NumberStat.count fst snd].
    apply (Permutation_in _ Hperm) in He.
    apply (counter_entries 1) in He. destruct He as [-> Hin].
    rewrite key_count_Z. split; [lia |].
    unfold occurrences.
    apply (count_occ_In Z.eq_dec) in Hin. lia.
  - change (total (map snd sorted) = Z.of_nat (List.length (all_numbers locationData))).
    rewrite (total_perm _ _ (Permutation_map snd Hperm)).
    change (fold_left tally (all_numbers locationData) [])
      with (fold_left (fun m k => Map_set m k (get_or_0 m k + 1)) (all_numbers locationData) []).
    rewrite counter_total. unfold total. cbn [map fold_right]. lia.
Qed.

(** ** Quotients of counters *)

Lemma inject_Z_pos (z : Z) : 0 < z -> (0 < inject_Z z)%Q.
Proof. intros Hz. unfold Qlt. simpl. lia. Qed.

Lemma inject_Z_nonneg (z : Z) : 0 <= z -> (0 <= inject_Z z)%Q.
Proof. intros Hz. unfold Qle. simpl. lia. Qed.

Lemma div_of_Z (c w : Z) :
  0 < w ->
  exists q, Num.div (Num.of_Z c) (Num.of_Z w) = Fin q /\
            (q == inject_Z c / inject_Z w)%Q.
Proof.
  intros Hw. unfold Num.div, Num.of_Z.
  destruct (Qeq_bool (inject_Z w) 0) eqn:Hz.
  - apply Qeq_bool_iff in Hz. pose proof (inject_Z_pos w Hw) as Hpos.
    rewrite Hz in Hpos. now apply Qlt_irrefl in Hpos.
  - eexists. split; [reflexivity | apply Qred_correct].
Qed.

Lemma div_Fin_inv (a b q : Q) :
  Num.div (Fin a) (Fin b) = Fin q -> Qeq_bool b 0 = false /\ q = Qred (a / b).
Proof.
  unfold Num.div. destruct (Qeq_bool b 0).
  - destruct (Qeq_bool a 0); [discriminate |].
    unfold Num.infinity. destruct (Num.Qnegative a); discriminate.
  - intros [= <-]. split; reflexivity.
Qed.

Lemma quotient_compare (c1 c2 w : Z) :
  0 < w ->
  (Num.positive (Num.sub (Num.div (Num.of_Z c2) (Num.of_Z w))
                         (Num.div (Num.of_Z c1) (Num.of_Z w))) = true <-> c1 < c2).
Proof.
  intros Hw.
  destruct (div_of_Z c1 w Hw) as [q1 [-> Hq1]].
  destruct (div_of_Z c2 w Hw) as [q2 [-> Hq2]].
  unfold Num.sub, Num.neg, Num.add, Num.positive, Num.Qpositive.
  rewrite negb_true_iff, <- not_true_iff_false, Qle_bool_iff.
  rewrite !Qred_correct, Hq1, Hq2.
  pose proof (inject_Z_pos w Hw) as Hpos.
  assert (Heq : (inject_Z c2 / inject_Z w + - (inject_Z c1 / inject_Z w)
                 == (inject_Z c2 - inject_Z c1) / inject_Z w)%Q).
  { field. intros Hzero. rewrite Hzero in Hpos. now apply Qlt_irrefl in Hpos. }
  rewrite Heq. split.
  - intros Hnle. destruct (Z_lt_dec c1 c2) as [Hlt | Hge]; [exact Hlt |].
    exfalso. apply Hnle. apply Qle_shift_div_r; [exact Hpos |].
    assert (inject_Z c2 <= inject_Z c1)%Q by (rewrite <- Zle_Qle; lia). lra.
  - intros Hlt Hle.
    assert (Hq : (0 < (inject_Z c2 - inject_Z c1) / inject_Z w)%Q).
    { apply Qlt_shift_div_l; [exact Hpos |].
      assert (inject_Z c1 < inject_Z c2)%Q by (rewrite <- Zlt_Qlt; lia). lra. }
    lra.
Qed.

Lemma Some_eq {A : Type} (x y : A) : Some x = Some y -> x = y.
Proof. congruence. Qed.

(** ** Numbers of a list of games *)

Lemma fold_games (f : Map Z Z -> Z -> Map Z Z) (games : list (Z * draw)) (m : Map Z Z) :
  fold_left (fun m game => fold_left f (snd game) m) games m
  = fold_left f (numbers_of games) m.
Proof.
  unfold numbers_of. revert m.
  induction games as [| g games IH]; intros m; simpl; [reflexivity |].
  now rewrite fold_left_app, IH.
Qed.

Lemma numbers_of_flat_map (games : list (Z * draw)) : flat_map snd games = numbers_of games.
Proof. apply flat_map_concat_map. Qed.

Lemma In_numbers_of (games : list (Z * draw)) (x : Z) :
  In x (numbers_of games) <-> exists game, In game games /\ In x (snd game).
Proof.
  unfold numbers_of. rewrite <- flat_map_concat_map, in_flat_map. reflexivity.
Qed.

Lemma occurrences_app (l l' : list Z) (x : Z) :
  occurrences (l ++ l') x = occurrences l x + occurrences l' x.
Proof. unfold occurrences. rewrite count_occ_app. lia. Qed.

Lemma occurrences_nonneg (l : list Z) (x : Z) : 0 <= occurrences l x.
Proof. unfold occurrences. lia. Qed.

Lemma occurrences_pos (l : list Z) (x : Z) : In x l <-> 1 <= occurrences l x.
Proof. unfold occurrences. rewrite (count_occ_In Z.eq_dec). lia. Qed.

Lemma occurrences_NoDup (l : list Z) (x : Z) : NoDup l -> occurrences l x <= 1.
Proof.
  intros Hnd. unfold occurrences.
  pose proof (proj1 (NoDup_count_occ Z.eq_dec l) Hnd x). lia.
Qed.

(** In games that list no number twice, a number occurs at most once per
    game. *)
Lemma occurrences_per_game (games : list (Z * draw)) (x : Z) :
  (forall game, In game games -> NoDup (snd game)) ->
  occurrences (numbers_of games) x <= Z.of_nat (List.length games).
Proof.
  unfold numbers_of. induction games as [| g games IH]; intros Hnd.
  - unfold occurrences. simpl. lia.
  - cbn [map List.concat List.length]. rewrite occurrences_app.
    pose proof (occurrences_NoDup (snd g) x (Hnd g (or_introl eq_refl))).
    specialize (IH (fun game Hg => Hnd game (or_intror Hg))). lia.
Qed.

Lemma slice_to_length {A : Type} (n : nat) (l : list A) :
  (List.length (slice_to n l) <= n)%nat.
Proof. unfold slice_to. rewrite length_firstn. lia. Qed.

Lemma In_slice_from {A : Type} (n : nat) (l : list A) (x : A) :
  In x (slice_from n l) -> In x l.
Proof.
  unfold slice_from. intros Hx. rewrite <- (firstn_skipn n l).
  apply in_or_app. now right.
Qed.

(** ** [analyzeRecentTrends] *)

(** A record of [analyzeRecentTrends] comes from one entry of the tally of
    the window. *)
Lemma analyzeRecentTrends_records (locationData : history) (windowSize : Z)
    (trends : list Trend.t) (t : Trend.t) :
  analyzeRecentTrends (Some locationData) windowSize = Some trends ->
  In t trends ->
  let window :=
    numbers_of (slice_to (Z.to_nat windowSize) (games_newest_first locationData)) in
  Trend.recentFrequency t = occurrences window (Trend.number t) /\
  In (Trend.number t) window /\
  Trend.momentum t = Num.div (Num.of_Z (Trend.recentFrequency t)) (Num.of_Z windowSize).
Proof.
  unfold analyzeRecentTrends. rewrite numbers_of_flat_map.
  intros Heq Ht. apply Some_eq in Heq. subst trends.
  set (window := numbers_of _) in *.
  apply Array_sort_In, in_map_iff in Ht. destruct Ht as [[x c] [<- He]].
  cbn [Trend.number Trend.recentFrequency Trend.momentum fst snd].
  apply (counter_entries 1) in He. destruct He as [-> Hin].
  rewrite key_count_Z. split; [lia |]. split; [exact Hin | reflexivity].
Qed.

(** The records of [analyzeRecentTrends] are the tally of the numbers of
    the window, the most frequent first. *)
Lemma analyzeRecentTrends_tally (locationData : history) (windowSize : Z) :
  0 < windowSize ->
  let window :=
    numbers_of (slice_to (Z.to_nat windowSize) (games_newest_first locationData)) in
  exists trends,
    analyzeRecentTrends (Some locationData) windowSize = Some trends /\
    NoDup (map Trend.number trends) /\
    (forall x, In x (map Trend.number trends) <-> In x window) /\
    (forall t, In t trends ->
       Trend.recentFrequency t = occurrences window (Trend.number t) /\
       1 <= Trend.recentFrequency t /\
       exists q, Trend.momentum t = Fin q /\
                 (q == inject_Z (Trend.recentFrequency t) / inject_Z windowSize)%Q) /\
    StronglySorted (fun a b => Trend.recentFrequency a >= Trend.recentFrequency b) trends.
Proof.
  intros Hw window. unfold analyzeRecentTrends.
  rewrite numbers_of_flat_map. fold window.
  set (record := fun e : Z * Z =>
         {| Trend.number := fst e;
            Trend.recentFrequency := snd e;
            Trend.momentum := Num.div (Num.of_Z (snd e)) (Num.of_Z windowSize) |}).
  eexists. split; [reflexivity |].
  rewrite (Array_sort_map record).
  set (sorted := Array_sort _ (fold_left tally window [])).
  assert (Hperm : Permutation sorted (fold_left tally window []))
    by apply Array_sort_perm.
  rewrite !map_map. cbn [record Trend.number].
  split; [| split; [| split]].
  - apply (Permutation_NoDup (Permutation_map fst (Permutation_sym Hperm))).
    apply tally_NoDup.
  - intros x. rewrite <- (tally_keys window x).
    split; apply Permutation_in;
      [exact (Permutation_map fst Hperm) | exact (Permutation_map fst (Permutation_sym Hperm))].
  - intros t Ht.
    assert (Ht' : In t (Array_sort by_momentum (map record (fold_left tally window []))))
      by (rewrite (Array_sort_map record); exact Ht).
    destruct (analyzeRecentTrends_records locationData windowSize _ t eq_refl)
      as [Hfreq [Hin Hmom]].
    { unfold analyzeRecentTrends in *. rewrite numbers_of_flat_map. exact Ht'. }
    fold window in Hfreq, Hin. apply occurrences_pos in Hin.
    split; [exact Hfreq |]. split; [lia |]. rewrite Hmom. now apply div_of_Z.
  - apply StronglySorted_map. cbn [record Trend.recentFrequency].
    apply Array_sort_ordered.
    + intros x y z. lia.
    + intros x y Hc. unfold by_momentum in Hc. cbn [record Trend.momentum] in Hc.
      apply not_true_iff_false in Hc. rewrite quotient_compare in Hc by exact Hw. lia.
    + intros x y Hc. unfold by_momentum in Hc. cbn [record Trend.momentum] in Hc.
      rewrite quotient_compare in Hc by exact Hw. lia.
Qed.

(** For a positive window size, [analyzeRecentTrends] lists each number of
    the [windowSize] games with the highest ids once, with its number of
    occurrences in these games as [recentFrequency] and that frequency
    divided by the window size as [momentum], the most frequent first. *)
Theorem analyzeRecentTrends_window (locationData : history) (windowSize : Z) :
  0 < windowSize ->
  exists trends games,
    analyzeRecentTrends (Some locationData) windowSize = Some trends /\
    listed_newest_first locationData games /\
    let window := numbers_of (firstn (Z.to_nat windowSize) games) in
    NoDup (map Trend.number trends) /\
    (forall x, In x (map Trend.number trends) <-> In x window) /\
    (forall t, In t trends ->
       Trend.recentFrequency t = occurrences window (Trend.number t) /\
       1 <= Trend.recentFrequency t /\
       exists q, Trend.momentum t = Fin q /\
                 (q == inject_Z (Trend.recentFrequency t) / inject_Z windowSize)%Q) /\
    StronglySorted (fun a b => Trend.recentFrequency a >= Trend.recentFrequency b) trends.
Proof.
  intros Hw.
  destruct (analyzeRecentTrends_tally locationData windowSize Hw) as [trends Htrends].
  exists trends, (games_newest_first locationData).
  destruct Htrends as [Heq Hrest].
  split; [exact Heq |]. split; [apply games_newest_first_listed |]. exact Hrest.
Qed.

Lemma analyzeRecentTrends_window_witness :
  0 < 10 /\
  exists trends,
    analyzeRecentTrends (Some two_games) 10 = Some trends /\
    NoDup (map Trend.number trends).
Proof.
  split; [lia |].
  destruct (analyzeRecentTrends_window two_games 10 ltac:(lia))
    as [trends [games [Ht [_ [Hnd _]]]]].
  exists trends. split; [exact Ht | exact Hnd].
Defined.

(** If no game lists a number twice, a number occurs at most once in each
    game of the window: every [momentum] is above 0 and at most 1. *)
Theorem analyzeRecentTrends_momentum (locationData : history) (windowSize : Z)
    (trends : list Trend.t) (t : Trend.t) :
  0 < windowSize ->
  duplicate_free locationData ->
  analyzeRecentTrends (Some locationData) windowSize = Some trends ->
  In t trends ->
  1 <= Trend.recentFrequency t <= windowSize /\
  exists q, Trend.momentum t = Fin q /\ (0 < q <= 1)%Q.
Proof.
  intros Hw Hfree Htrends Ht.
  destruct (analyzeRecentTrends_records locationData windowSize trends t Htrends Ht)
    as [Hfreq [Hin Hmom]].
  apply occurrences_pos in Hin. rewrite <- Hfreq in Hin.
  destruct (div_of_Z (Trend.recentFrequency t) windowSize Hw) as [q [Hq Hval]].
  rewrite <- Hmom in Hq.
  assert (Hle : Trend.recentFrequency t <= windowSize).
  { rewrite Hfreq.
    set (games := slice_to (Z.to_nat windowSize) (games_newest_first locationData)).
    apply Z.le_trans with (Z.of_nat (List.length games)).
    - apply occurrences_per_game. intros game Hgame. apply Hfree.
      now apply games_newest_first_In, (In_slice_to (Z.to_nat windowSize)).
    - pose proof (slice_to_length (Z.to_nat windowSize) (games_newest_first locationData)).
      fold games in H. lia. }
  split; [lia |]. exists q. split; [exact Hq |].
  pose proof (inject_Z_pos windowSize Hw) as Hpos.
  rewrite Hval. split.
  - apply Qlt_shift_div_l; [exact Hpos |].
    assert (0 < inject_Z (Trend.recentFrequency t))%Q by (apply inject_Z_pos; lia). lra.
  - apply Qle_shift_div_r; [exact Hpos |].
    assert (inject_Z (Trend.recentFrequency t) <= inject_Z windowSize)%Q
      by (rewrite <- Zle_Qle; lia). lra.
Qed.

Lemma analyzeRecentTrends_momentum_witness :
  exists q,
    Trend.momentum {| Trend.number := 2; Trend.recentFrequency := 1;
                      Trend.momentum := Fin (1 # 10) |} = Fin q /\ (0 < q <= 1)%Q.
Proof.
  apply (analyzeRecentTrends_momentum two_games 10
           [ {| Trend.number := 1; Trend.recentFrequency := 1; Trend.momentum := Fin (1 # 10) |};
             {| Trend.number := 2; Trend.recentFrequency := 1; Trend.momentum := Fin (1 # 10) |} ]).
  - lia.
  - intros game [<- | [<- | []]]; repeat constructor; simpl; tauto.
  - reflexivity.
  - right. left. reflexivity.
Defined.

(** ** [analyzeHotColdPatterns] *)

Lemma filter_length_le {A : Type} (p : A -> bool) (l : list A) :
  (List.length (filter p l) <= List.length l)%nat.
Proof.
  induction l as [| a l IH]; simpl; [lia |].
  destruct (p a); simpl; lia.
Qed.

(** The records of [analyzeHotColdPatterns] by the two slices of the games;
    on draws of Numbers [recentPerformance] is the share of the recent games
    that hold the number. *)
Lemma analyzeHotColdPatterns_weights (locationData : history) (recentWeight : Z) :
  let recentGames := slice_to 20 (games_newest_first locationData) in
  let olderGames := slice_from 20 (games_newest_first locationData) in
  exists hotCold,
    analyzeHotColdPatterns (Some locationData) recentWeight = Some hotCold /\
    NoDup (map HotCold.number hotCold) /\
    (forall x, In x (map HotCold.number hotCold) <-> appears locationData x) /\
    (forall h, In h hotCold ->
       HotCold.weightedScore h
       = recentWeight * occurrences (numbers_of recentGames) (HotCold.number h)
         + occurrences (numbers_of olderGames) (HotCold.number h)) /\
    (forall h, In h hotCold ->
       exists q, HotCold.recentPerformance h = Fin q /\ (0 <= q <= 1)%Q /\
         (q == inject_Z (Z.of_nat (List.length
                  (filter (fun game => includes (snd game) (HotCold.number h))
                          recentGames))) / 20)%Q) /\
    StronglySorted (fun a b => HotCold.weightedScore a >= HotCold.weightedScore b) hotCold.
Proof.
  intros recentGames olderGames.
  destruct (analyzeHotColdPatterns (Some locationData) recentWeight) as [hotCold |] eqn:Hh;
    [| discriminate].
  exists hotCold. split; [reflexivity |].
  split; [exact (analyzeHotColdPatterns_NoDup _ _ _ Hh) |].
  split; [intros x; exact (analyzeHotColdPatterns_numbers _ _ _ x Hh) |].
  unfold analyzeHotColdPatterns in Hh. apply Some_eq in Hh. subst hotCold.
  fold recentGames olderGames.
  rewrite !fold_games.
  set (numberAnalysis := fold_left (weigh 1) _ _).
  assert (Hnd : NoDup (map fst numberAnalysis)).
  { unfold numberAnalysis, weigh.
    apply (counter_NoDup 1), (counter_NoDup recentWeight). constructor. }
  assert (Hget : forall x, get_or_0 numberAnalysis x
                  = recentWeight * occurrences (numbers_of recentGames) x
                    + occurrences (numbers_of olderGames) x).
  { intros x. unfold numberAnalysis, weigh.
    rewrite (counter_get 1), (counter_get recentWeight), !key_count_Z.
    unfold get_or_0, key_count, occurrences. cbn [Map_get].
    change (@key_eq_dec Z Key_Z) with Z.eq_dec. lia. }
  split; [| split].
  - intros h Hin. apply Array_sort_In, in_map_iff in Hin.
    destruct Hin as [[x v] [<- He]]. cbn [HotCold.weightedScore HotCold.number fst snd].
    rewrite <- Hget. unfold get_or_0. now rewrite (In_Map_get _ _ _ Hnd He).
  - intros h Hin. apply Array_sort_In, in_map_iff in Hin.
    destruct Hin as [[x v] [<- He]]. cbn [HotCold.recentPerformance HotCold.number fst snd].
    set (n := List.length _).
    destruct (div_of_Z (Z.of_nat n) 20 ltac:(lia)) as [q [Hq Hval]].
    exists q. split; [exact Hq |].
    assert (Hn : (n <= 20)%nat).
    { unfold n. etransitivity; [apply filter_length_le |].
      apply slice_to_length. }
    change (inject_Z 20) with 20%Q in Hval.
    split; [| exact Hval].
    rewrite Hval.
    assert (0 <= inject_Z (Z.of_nat n))%Q by (apply inject_Z_nonneg; lia).
    assert (inject_Z (Z.of_nat n) <= 20)%Q
      by (change 20%Q with (inject_Z 20); rewrite <- Zle_Qle; lia).
    split; [apply Qle_shift_div_l | apply Qle_shift_div_r]; lra.
  - apply Array_sort_ordered.
    + intros x y z. lia.
    + intros x y Hc. apply positive_of_Z_false in Hc. lia.
    + intros x y Hc. apply positive_of_Z in Hc. lia.
Qed.

(** For every history and every integer weight, [analyzeHotColdPatterns]
    lists each number of the history once; its [weightedScore] is the
    weight times its occurrences in the 20 games with the highest ids plus
    its occurrences in the other games, its [recentPerformance] is between
    0 and 1, and the records come with the highest [weightedScore] first. *)
Theorem analyzeHotColdPatterns_scores (locationData : history) (recentWeight : Z) :
  exists hotCold games,
    analyzeHotColdPatterns (Some locationData) recentWeight = Some hotCold /\
    listed_newest_first locationData games /\
    NoDup (map HotCold.number hotCold) /\
    (forall x, In x (map HotCold.number hotCold) <-> appears locationData x) /\
    (forall h, In h hotCold ->
       HotCold.weightedScore h
       = recentWeight * occurrences (numbers_of (firstn 20 games)) (HotCold.number h)
         + occurrences (numbers_of (skipn 20 games)) (HotCold.number h)) /\
    (forall h, In h hotCold ->
       exists q, HotCold.recentPerformance h = Fin q /\ (0 <= q <= 1)%Q) /\
    StronglySorted (fun a b => HotCold.weightedScore a >= HotCold.weightedScore b) hotCold.
Proof.
  destruct (analyzeHotColdPatterns_weights locationData recentWeight)
    as [hotCold (Heq & Hnd & Hkeys & Hscore & Hperf & Hsorted)].
  exists hotCold, (games_newest_first locationData).
  split; [exact Heq |]. split; [apply games_newest_first_listed |].
  split; [exact Hnd |]. split; [exact Hkeys |]. split; [exact Hscore |].
  split; [| exact Hsorted].
  intros h Hh. destruct (Hperf h Hh) as [q [Hq [Hbound _]]]. now exists q.
Qed.

(** ** [analyzeStreaks] *)

Lemma existsb_eqb (numbers : draw) (x : Z) : existsb (Z.eqb x) numbers = true <-> In x numbers.
Proof.
  rewrite existsb_exists. split.
  - intros [y [Hy Heq]]. apply Z.eqb_eq in Heq. now subst.
  - intros Hin. exists x. split; [exact Hin | apply Z.eqb_refl].
Qed.

Lemma extendStreak_get (numbers : draw) (streaks : Map Z Streak.t) (x : Z) :
  NoDup numbers ->
  Map_get (fold_left extendStreak numbers streaks) x
  = if in_dec Z.eq_dec x numbers
    then Some {| Streak.current := Streak.current (streak_of streaks x) + 1;
                 Streak.max := Z.max (Streak.current (streak_of streaks x) + 1)
                                     (Streak.max (streak_of streaks x)) |}
    else Map_get streaks x.
Proof.
  revert streaks. induction numbers as [| n numbers IH]; intros streaks Hnd.
  - reflexivity.
  - inversion Hnd as [| ? ? Hnotin Hnd']; subst. cbn [fold_left].
    rewrite (IH _ Hnd').
    destruct (in_dec Z.eq_dec x (n :: numbers)) as [[-> | Hin] | Hnin].
    + destruct (in_dec Z.eq_dec x numbers); [contradiction |].
      unfold extendStreak. now rewrite Map_get_set_same.
    + destruct (in_dec Z.eq_dec x numbers); [| contradiction].
      assert (Hne : x <> n) by (intros ->; contradiction).
      unfold streak_of, extendStreak. now rewrite Map_get_set_other by exact Hne.
    + destruct (in_dec Z.eq_dec x numbers) as [Hin |]; [exfalso; apply Hnin; now right |].
      unfold extendStreak. rewrite Map_get_set_other; [reflexivity |].
      intros ->. apply Hnin. now left.
Qed.

Lemma resetMissing_get (numbers : draw) (streaks : Map Z Streak.t) (x : Z) :
  Map_get (resetMissing numbers streaks) x
  = option_map
      (fun streak =>
         if existsb (Z.eqb x) numbers then streak
         else {| Streak.current := 0; Streak.max := Streak.max streak |})
      (Map_get streaks x).
Proof.
  unfold resetMissing. induction streaks as [| [k s] streaks IH]; [reflexivity |].
  cbn [map fst snd]. destruct (existsb (Z.eqb k) numbers) eqn:Hk; cbn [Map_get fst].
  - destruct (key_eq_dec x k) as [-> | Hne]; [| exact IH].
    cbn [option_map]. now rewrite Hk.
  - destruct (key_eq_dec x k) as [-> | Hne]; [| exact IH].
    cbn [option_map]. now rewrite Hk.
Qed.

(** One game, seen from [x]: the streak is extended if the game holds [x]
    and is ended if not. *)
Lemma streakGame_streak (numbers : draw) (streaks : Map Z Streak.t) (x : Z) :
  NoDup numbers ->
  (Map_get streaks x = None -> ~ In x numbers ->
   Map_get (streakGame streaks numbers) x = None) /\
  streak_of (streakGame streaks numbers) x
  = if in_dec Z.eq_dec x numbers
    then {| Streak.current := Streak.current (streak_of streaks x) + 1;
            Streak.max := Z.max (Streak.current (streak_of streaks x) + 1)
                                (Streak.max (streak_of streaks x)) |}
    else {| Streak.current := 0; Streak.max := Streak.max (streak_of streaks x) |}.
Proof.
  intros Hnd. unfold streakGame.
  assert (Hget := resetMissing_get numbers (fold_left extendStreak numbers streaks) x).
  rewrite (extendStreak_get numbers streaks x Hnd) in Hget.
  split.
  - intros Hnone Hnin. rewrite Hget.
    destruct (in_dec Z.eq_dec x numbers); [contradiction |]. now rewrite Hnone.
  - unfold streak_of at 1. rewrite Hget.
    destruct (in_dec Z.eq_dec x numbers) as [Hin | Hnin].
    + cbn [option_map]. now rewrite (proj2 (existsb_eqb numbers x) Hin).
    + unfold streak_of. destruct (Map_get streaks x) as [s |]; cbn [option_map].
      * destruct (existsb (Z.eqb x) numbers) eqn:Hx; [| reflexivity].
        apply existsb_eqb in Hx. contradiction.
      * reflexivity.
Qed.

Lemma nth_snoc_old (draws : list draw) (d : draw) (j : nat) :
  (j < List.length draws)%nat -> nth j (draws ++ [d]) [] = nth j draws [].
Proof. intros Hj. now apply app_nth1. Qed.

Lemma nth_snoc_new (draws : list draw) (d : draw) :
  nth (List.length draws) (draws ++ [d]) [] = d.
Proof. rewrite app_nth2 by lia. now rewrite Nat.sub_diag. Qed.

Lemma streak_at_old (x : Z) (draws : list draw) (d : draw) (i m : nat) :
  (i + m <= List.length draws)%nat ->
  (streak_at x (draws ++ [d]) i m <-> streak_at x draws i m).
Proof.
  intros Hle. unfold streak_at. rewrite length_app. cbn [List.length]. split.
  - intros [_ Hall]. split; [exact Hle |].
    intros j Hj. rewrite <- (nth_snoc_old draws d j) by lia. now apply Hall.
  - intros [_ Hall]. split; [lia |].
    intros j Hj. rewrite nth_snoc_old by lia. now apply Hall.
Qed.

Lemma streak_state_nil (x : Z) : streak_state x [] 0 0.
Proof.
  assert (Hempty : forall i m, streak_at x [] i m -> m = 0%nat).
  { intros i m [Hle _]. simpl in Hle. lia. }
  assert (Hzero : streak_at x [] 0 0).
  { split; [simpl; lia | intros j Hj; lia]. }
  unfold streak_state, longest_streak. cbn [List.length].
  split; [lia |]. split; [exact Hzero |]. split.
  - intros i m Hs _. rewrite (Hempty i m Hs). lia.
  - split; [lia |]. split; [exists 0%nat; exact Hzero |].
    intros i m Hs. rewrite (Hempty i m Hs). lia.
Qed.

Lemma streak_state_hit (x : Z) (draws : list draw) (d : draw) (c b : Z) :
  streak_state x draws c b -> In x d ->
  streak_state x (draws ++ [d]) (c + 1) (Z.max (c + 1) b).
Proof.
  intros [Hc [Hrun [Hsuffix [Hb [[ib Hbest] Hlongest]]]]] Hd.
  set (n := List.length draws) in *.
  assert (Hlen : List.length (draws ++ [d]) = S n)
    by (rewrite length_app; cbn [List.length]; lia).
  assert (Hnew : streak_at x (draws ++ [d]) (n - Z.to_nat c) (Z.to_nat (c + 1))).
  { split; [rewrite Hlen; lia |].
    intros j Hj. destruct (Nat.eq_dec j n) as [-> | Hne].
    - unfold n. now rewrite nth_snoc_new.
    - rewrite nth_snoc_old by (fold n; lia). apply Hrun. lia. }
  assert (Hsuffix' : forall i m, streak_at x (draws ++ [d]) i m ->
                       (i + m)%nat = S n -> Z.of_nat m <= c + 1).
  { intros i m Hs Him. destruct m as [| m]; [lia |].
    assert (Hs' : streak_at x draws i m).
    { apply (streak_at_old x draws d); [fold n; lia |].
      destruct Hs as [Hle Hall]. split; [lia |]. intros j Hj. apply Hall. lia. }
    specialize (Hsuffix i m Hs' ltac:(lia)). lia. }
  unfold streak_state. rewrite Hlen.
  split; [lia |]. split; [| split; [exact Hsuffix' |]].
  - replace (S n - Z.to_nat (c + 1))%nat with (n - Z.to_nat c)%nat by lia. exact Hnew.
  - split; [lia |]. split.
    + destruct (Z.max_spec (c + 1) b) as [[_ ->] | [_ ->]].
      * exists ib. apply streak_at_old; [| exact Hbest]. destruct Hbest. now fold n.
      * exists (n - Z.to_nat c)%nat. exact Hnew.
    + intros i m Hs.
      destruct (Nat.le_gt_cases (i + m) n) as [Hle | Hgt].
      * apply (streak_at_old x draws d) in Hs; [| exact Hle].
        specialize (Hlongest i m Hs). lia.
      * assert ((i + m)%nat = S n) by (destruct Hs as [Hs _]; rewrite Hlen in Hs; lia).
        specialize (Hsuffix' i m Hs H). lia.
Qed.

Lemma streak_state_miss (x : Z) (draws : list draw) (d : draw) (c b : Z) :
  streak_state x draws c b -> ~ In x d ->
  streak_state x (draws ++ [d]) 0 b.
Proof.
  intros [Hc [Hrun [Hsuffix [Hb [[ib Hbest] Hlongest]]]]] Hd.
  set (n := List.length draws) in *.
  assert (Hlen : List.length (draws ++ [d]) = S n)
    by (rewrite length_app; cbn [List.length]; lia).
  assert (Hends : forall i m, streak_at x (draws ++ [d]) i m ->
                    (n < i + m)%nat -> m = 0%nat).
  { intros i m [Hle Hall] Hgt. destruct m as [| m]; [reflexivity |]. exfalso.
    apply Hd. rewrite <- (nth_snoc_new draws d). fold n. apply Hall.
    rewrite Hlen in Hle. lia. }
  unfold streak_state. rewrite Hlen.
  split; [lia |]. split; [| split].
  - split; [rewrite Hlen; simpl; lia |]. intros j Hj. simpl in Hj. lia.
  - intros i m Hs Him. rewrite (Hends i m Hs) by lia. lia.
  - split; [exact Hb |]. split.
    + exists ib. apply streak_at_old; [| exact Hbest]. destruct Hbest. now fold n.
    + intros i m Hs.
      destruct (Nat.le_gt_cases (i + m) n) as [Hle | Hgt].
      * apply (streak_at_old x draws d) in Hs; [| exact Hle]. exact (Hlongest i m Hs).
      * rewrite (Hends i m Hs Hgt). lia.
Qed.

(** The streak objects after a list of games. *)
Lemma streaks_state (draws : list draw) (x : Z) :
  Forall (@NoDup Z) draws ->
  let streaks := fold_left streakGame draws [] in
  streak_state x draws (Streak.current (streak_of streaks x)) (Streak.max (streak_of streaks x))
  /\ (In x (map fst streaks) <-> In x (List.concat draws)).
Proof.
  induction draws as [| d draws IH] using rev_ind; intros Hnd streaks.
  - split; [apply streak_state_nil | reflexivity].
  - apply Forall_app in Hnd. destruct Hnd as [Hnd Hd].
    inversion Hd as [| ? ? Hd' _]; subst.
    destruct (IH Hnd) as [Hstate Hkeys]. clear IH.
    unfold streaks. rewrite fold_left_app. cbn [fold_left].
    set (before := fold_left streakGame draws []) in *.
    destruct (streakGame_streak d before x Hd') as [Hnone Hstreak].
    split.
    + rewrite Hstreak. destruct (in_dec Z.eq_dec x d) as [Hin | Hnin]; cbn [Streak.current Streak.max].
      * now apply streak_state_hit.
      * now apply (streak_state_miss x draws d _ _ Hstate).
    + rewrite concat_app. cbn [List.concat]. rewrite app_nil_r, in_app_iff, <- Hkeys.
      unfold streakGame, resetMissing. rewrite map_map.
      assert (Hk : forall m : Map Z Streak.t,
                 map (fun e => fst (if existsb (Z.eqb (fst e)) d then e
                                    else (fst e, {| Streak.current := 0;
                                                    Streak.max := Streak.max (snd e) |}))) m
                 = map fst m).
      { intros m. apply map_ext. intros e. now destruct (existsb (Z.eqb (fst e)) d). }
      rewrite Hk. clear Hk. generalize before. clear.
      induction d as [| n d IH]; intros m; cbn [fold_left]; [simpl; tauto |].
      rewrite IH. unfold extendStreak. rewrite Map_set_In_key. simpl. intuition congruence.
Qed.

Lemma streaks_NoDup (draws : list draw) :
  NoDup (map fst (fold_left streakGame draws [])).
Proof.
  assert (H : forall m : Map Z Streak.t,
             NoDup (map fst m) -> NoDup (map fst (fold_left streakGame draws m))).
  { induction draws as [| d draws IH]; intros m Hnd; cbn [fold_left]; [exact Hnd |].
    apply IH. unfold streakGame, resetMissing. rewrite map_map.
    erewrite map_ext.
    - instantiate (1 := fst).
      revert m Hnd. induction d as [| n d IHd]; intros m Hnd; cbn [fold_left]; [exact Hnd |].
      apply IHd. unfold extendStreak. now apply Map_set_NoDup.
    - intros e. now destruct (existsb (Z.eqb (fst e)) d). }
  apply H. constructor.
Qed.

Lemma duplicate_free_values (locationData : history) :
  duplicate_free locationData -> Forall (@NoDup Z) (values locationData).
Proof.
  intros Hfree. apply Forall_forall. intros d Hd.
  unfold values, entries, ascending in Hd. apply in_map_iff in Hd.
  destruct Hd as [game [<- Hgame]]. apply Hfree.
  now apply Array_sort_In in Hgame.
Qed.

(** The records of [analyzeStreaks] by the runs along the values of the
    history. *)
Lemma analyzeStreaks_runs (locationData : history) :
  duplicate_free locationData ->
  exists streaks,
    analyzeStreaks (Some locationData) = Some streaks /\
    NoDup (map StreakStat.number streaks) /\
    (forall x, In x (map StreakStat.number streaks) <-> In x (all_numbers locationData)) /\
    (forall s, In s streaks ->
       longest_streak (StreakStat.number s) (values locationData) (StreakStat.maxStreak s) /\
       1 <= StreakStat.maxStreak s) /\
    StronglySorted (fun a b => StreakStat.maxStreak a >= StreakStat.maxStreak b) streaks.
Proof.
  intros Hfree. pose proof (duplicate_free_values locationData Hfree) as Hnd.
  eexists. split; [reflexivity |].
  set (streaks := fold_left streakGame (values locationData) []).
  set (record := fun e : Z * Streak.t =>
         {| StreakStat.number := fst e; StreakStat.maxStreak := Streak.max (snd e) |}).
  assert (Hperm : Permutation (map StreakStat.number (Array_sort by_maxStreak (map record streaks)))
                              (map fst streaks)).
  { rewrite Array_sort_perm, map_map. reflexivity. }
  split; [| split; [| split]].
  - apply (Permutation_NoDup (Permutation_sym Hperm)), streaks_NoDup.
  - intros x. rewrite <- (proj2 (streaks_state (values locationData) x Hnd)).
    split; apply Permutation_in; [exact Hperm | now symmetry].
  - intros s Hs. apply Array_sort_In, in_map_iff in Hs. destruct Hs as [[x st] [<- Hin]].
    cbn [record StreakStat.number StreakStat.maxStreak fst snd].
    destruct (streaks_state (values locationData) x Hnd) as [Hstate Hkeys].
    fold streaks in Hstate, Hkeys.
    unfold streak_of in Hstate.
    rewrite (In_Map_get _ _ _ (streaks_NoDup (values locationData)) Hin) in Hstate.
    destruct Hstate as [_ [_ [_ Hlongest]]]. split; [exact Hlongest |].
    assert (Hx : In x (List.concat (values locationData))).
    { apply Hkeys. now apply (in_map fst) in Hin. }
    apply in_concat in Hx. destruct Hx as [d [Hd Hxd]].
    destruct (In_nth _ _ [] Hd) as [i [Hi Hnth]].
    destruct Hlongest as [_ [_ Hmax]].
    apply (Hmax i 1%nat). split; [rewrite Nat.add_1_r; exact Hi |].
    intros j Hj. assert (Hji : j = i) by lia. subst j.
    unfold draw in *. rewrite Hnth. exact Hxd.
  - apply Array_sort_ordered.
    + intros x y z. lia.
    + intros x y Hc. apply positive_of_Z_false in Hc. lia.
    + intros x y Hc. apply positive_of_Z in Hc. lia.
Qed.

(** For every history whose game ids are array indices and in which no
    game lists a number twice, [analyzeStreaks] lists each number of the
    history once, with the length of its longest run of games in a row,
    the games read from the lowest id up, as [maxStreak], the longest
    first. *)
Theorem analyzeStreaks_longest (locationData : history) :
  array_indexed locationData ->
  duplicate_free locationData ->
  exists streaks games,
    analyzeStreaks (Some locationData) = Some streaks /\
    listed_oldest_first locationData games /\
    NoDup (map StreakStat.number streaks) /\
    (forall x, In x (map StreakStat.number streaks) <-> appears locationData x) /\
    (forall s, In s streaks ->
       longest_streak (StreakStat.number s) (map snd games) (StreakStat.maxStreak s) /\
       1 <= StreakStat.maxStreak s) /\
    StronglySorted (fun a b => StreakStat.maxStreak a >= StreakStat.maxStreak b) streaks.
Proof.
  intros _ Hfree.
  destruct (analyzeStreaks_runs locationData Hfree)
    as [streaks (Heq & Hnd & Hkeys & Hruns & Hsorted)].
  exists streaks, (entries locationData).
  split; [exact Heq |]. split; [apply entries_listed |].
  split; [exact Hnd |]. split; [| split; [exact Hruns | exact Hsorted]].
  intros x. rewrite Hkeys. unfold all_numbers, values, appears. rewrite in_concat. split.
  - intros [d [Hd Hx]]. apply in_map_iff in Hd. destruct Hd as [game [<- Hgame]].
    exists game. split; [| exact Hx].
    now apply (Permutation_in _ (proj1 (entries_listed locationData))).
  - intros [game [Hgame Hx]]. exists (snd game). split; [| exact Hx].
    apply in_map.
    now apply (Permutation_in _ (Permutation_sym (proj1 (entries_listed locationData)))).
Qed.

Lemma analyzeStreaks_longest_witness :
  exists streaks,
    analyzeStreaks (Some two_games) = Some streaks /\
    NoDup (map StreakStat.number streaks).
Proof.
  destruct (analyzeStreaks_longest two_games) as [streaks [games [Hs [_ [Hnd _]]]]].
  - intros game [<- | [<- | []]]; simpl; lia.
  - intros game [<- | [<- | []]]; repeat constructor; simpl; tauto.
  - exists streaks. split; [exact Hs | exact Hnd].
Defined.

(* ================================================================== *)
(** * Combinations of an array *)
(* ================================================================== *)

Section Subsequences.
Context {A : Type}.

Lemma subsequence_In (s l : list A) (x : A) : subsequence s l -> In x s -> In x l.
Proof.
  induction 1 as [| y s l Hs IH | y s l Hs IH]; simpl; [tauto | | ].
  - intros [-> | Hin]; [now left | right; now apply IH].
  - intros Hin. right. now apply IH.
Qed.

Lemma subsequence_nil_l (l : list A) : subsequence [] l.
Proof. induction l; constructor; assumption. Qed.

Lemma subsequence_length (s l : list A) :
  subsequence s l -> (List.length s <= List.length l)%nat.
Proof. induction 1; simpl; lia. Qed.

Lemma subsequence_NoDup (s l : list A) : subsequence s l -> NoDup l -> NoDup s.
Proof.
  induction 1 as [| y s l Hs IH | y s l Hs IH]; intros Hnd.
  - constructor.
  - inversion Hnd as [| ? ? Hnotin Hnd']; subst. constructor; [| now apply IH].
    intros Hin. apply Hnotin. now apply (subsequence_In s l).
  - inversion Hnd; subst. now apply IH.
Qed.

Lemma subsequence_filter (p : A -> bool) (l : list A) : subsequence (filter p l) l.
Proof.
  induction l as [| x l IH]; simpl; [constructor |].
  destruct (p x); constructor; exact IH.
Qed.

(** In a list without duplicates, a subsequence is determined by its
    elements. *)
Lemma subsequence_unique (s1 s2 l : list A) :
  NoDup l -> subsequence s1 l -> subsequence s2 l ->
  (forall x, In x s1 <-> In x s2) -> s1 = s2.
Proof.
  intros Hnd Hs1. revert s2. induction Hs1 as [| y s1 l Hs1 IH | y s1 l Hs1 IH];
    intros s2 Hs2 Hsame.
  - destruct s2 as [| z s2]; [reflexivity |].
    exfalso. apply (proj2 (Hsame z)). now left.
  - inversion Hnd as [| ? ? Hnotin Hnd']; subst.
    inversion Hs2 as [| ? s2' ? Hs2' | ? ? ? Hs2']; subst.
    + f_equal. apply IH; [exact Hnd' | exact Hs2' |].
      intros x. split; intros Hx.
      * destruct (proj1 (Hsame x) (or_intror Hx)) as [<- | Hin]; [| exact Hin].
        exfalso. apply Hnotin. now apply (subsequence_In s1 l).
      * destruct (proj2 (Hsame x) (or_intror Hx)) as [<- | Hin]; [| exact Hin].
        exfalso. apply Hnotin. now apply (subsequence_In s2' l).
    + exfalso. apply Hnotin. apply (subsequence_In s2 l); [exact Hs2' |].
      apply Hsame. now left.
  - inversion Hnd as [| ? ? Hnotin Hnd']; subst.
    inversion Hs2 as [| ? s2' ? Hs2' | ? ? ? Hs2']; subst.
    + exfalso. apply Hnotin. apply (subsequence_In s1 l); [exact Hs1 |].
      apply Hsame. now left.
    + now apply IH.
Qed.

Lemma combine_from_zero (arr : list A) : combine_from arr 0 = [[]].
Proof. destruct arr; reflexivity. Qed.

Lemma combine_from_In (arr : list A) (missing : nat) (s : list A) :
  In s (combine_from arr missing) <-> subsequence s arr /\ List.length s = missing.
Proof.
  revert missing s. induction arr as [| x rest IH]; intros missing s.
  - destruct missing as [| missing]; simpl.
    + split.
      * intros [<- | []]. split; [constructor | reflexivity].
      * intros [_ Hlen]. left. symmetry. now apply length_zero_iff_nil.
    + split; [tauto |]. intros [Hs Hlen]. inversion Hs; subst. discriminate.
  - destruct missing as [| missing].
    + rewrite combine_from_zero. simpl. split.
      * intros [<- | []]. split; [apply subsequence_nil_l | reflexivity].
      * intros [_ Hlen]. left. symmetry. now apply length_zero_iff_nil.
    + cbn [combine_from]. rewrite in_app_iff, in_map_iff. split.
      * intros [[s' [<- Hs']] | Hs].
        -- apply IH in Hs'. destruct Hs' as [Hsub Hlen].
           split; [now constructor | simpl; now rewrite Hlen].
        -- apply IH in Hs. destruct Hs as [Hsub Hlen].
           split; [now constructor | exact Hlen].
      * intros [Hsub Hlen]. inversion Hsub as [| ? s' ? Hsub' | ? ? ? Hsub']; subst.
        -- left. exists s'. split; [reflexivity |]. apply IH.
           split; [exact Hsub' | simpl in Hlen; lia].
        -- right. apply IH. split; assumption.
Qed.

Lemma combine_from_NoDup (arr : list A) (missing : nat) :
  NoDup arr -> NoDup (combine_from arr missing).
Proof.
  revert missing. induction arr as [| x rest IH]; intros missing Hnd.
  - destruct missing; simpl; repeat constructor. intros [].
  - destruct missing as [| missing].
    + rewrite combine_from_zero. repeat constructor. intros [].
    + inversion Hnd as [| ? ? Hnotin Hnd']; subst. cbn [combine_from].
      apply NoDup_app.
      * apply Finite.Injective_map_NoDup; [| now apply IH].
        intros s1 s2 Heq. now injection Heq.
      * now apply IH.
      * intros s Hs1 Hs2. apply in_map_iff in Hs1. destruct Hs1 as [s' [<- _]].
        apply combine_from_In in Hs2. destruct Hs2 as [Hsub _].
        apply Hnotin. apply (subsequence_In _ _ x Hsub). now left.
Qed.

Lemma binomial_beyond (k : Z) : 0 <= k -> binomial 0 (k + 1) = 0.
Proof.
  intros Hk. unfold binomial.
  replace ((0 <? 0) || (k + 1 <? 0)) with false
    by (symmetry; apply orb_false_iff; split; [reflexivity | apply Z.ltb_ge; lia]).
  replace (Z.to_nat (k + 1)) with (S (Z.to_nat k)) by lia.
  simpl. now destruct (Z.to_nat k).
Qed.

Lemma combine_from_length (arr : list A) (missing : nat) :
  Z.of_nat (List.length (combine_from arr missing))
  = binomial (Z.of_nat (List.length arr)) (Z.of_nat missing).
Proof.
  revert missing. induction arr as [| x rest IH]; intros missing.
  - destruct missing as [| missing]; [reflexivity |].
    cbn [combine_from List.length]. rewrite Nat2Z.inj_succ. unfold Z.succ.
    rewrite binomial_beyond by lia. reflexivity.
  - destruct missing as [| missing].
    + rewrite combine_from_zero. cbn [List.length].
      rewrite binomial_zero by lia. reflexivity.
    + cbn [combine_from]. rewrite length_app, length_map, Nat2Z.inj_add, !IH.
      cbn [List.length]. rewrite !Nat2Z.inj_succ. unfold Z.succ.
      rewrite binomial_pascal by lia. reflexivity.
Qed.
End Subsequences.

(** The nested loops of the analyzers over index pairs and triples list the
    combinations that [getCombinations] lists, in the same order. *)
Lemma combine_from_one {A : Type} (arr : list A) : combine_from arr 1 = map (fun c => [c]) arr.
Proof.
  induction arr as [| x rest IH]; [reflexivity |].
  cbn [combine_from]. rewrite combine_from_zero, IH. reflexivity.
Qed.

Lemma pairs_after_combinations (numbers : list Z) : pairs_after numbers = combine_from numbers 2.
Proof.
  induction numbers as [| x rest IH]; [reflexivity |].
  cbn [pairs_after combine_from]. rewrite combine_from_one, map_map, IH. reflexivity.
Qed.

Lemma triples_combinations (numbers : list Z) : triples numbers = combine_from numbers 3.
Proof.
  induction numbers as [| x rest IH]; [reflexivity |].
  cbn [triples combine_from]. now rewrite pairs_after_combinations, IH.
Qed.

(** ** Sorted keys *)

Lemma sort_numbers_perm (numbers : list Z) : Permutation (sort_numbers numbers) numbers.
Proof. apply Array_sort_perm. Qed.

Lemma sort_numbers_sorted (numbers : list Z) : StronglySorted Z.le (sort_numbers numbers).
Proof.
  unfold sort_numbers. apply Array_sort_ordered.
  - intros x y z. lia.
  - intros x y Hc. apply positive_of_Z_false in Hc. lia.
  - intros x y Hc. apply positive_of_Z in Hc. lia.
Qed.

Lemma sorted_NoDup_ascending (l : list Z) :
  StronglySorted Z.le l -> NoDup l -> ascending_numbers l.
Proof.
  unfold ascending_numbers. induction 1 as [| x l Hl IH Hx]; intros Hnd; constructor.
  - inversion Hnd; subst. now apply IH.
  - inversion Hnd as [| ? ? Hnotin _]; subst.
    rewrite Forall_forall in *. intros y Hy. specialize (Hx y Hy).
    assert (x <> y) by (intros ->; contradiction). lia.
Qed.

Lemma ascending_numbers_NoDup (l : list Z) : ascending_numbers l -> NoDup l.
Proof.
  unfold ascending_numbers. induction 1 as [| x l Hl IH Hx]; constructor; [| exact IH].
  intros Hin. rewrite Forall_forall in Hx. specialize (Hx x Hin). lia.
Qed.

Lemma sort_numbers_ascending (numbers : list Z) :
  NoDup numbers -> ascending_numbers (sort_numbers numbers).
Proof.
  intros Hnd. apply sorted_NoDup_ascending; [apply sort_numbers_sorted |].
  apply (Permutation_NoDup (Permutation_sym (sort_numbers_perm numbers)) Hnd).
Qed.

(** Two ascending lists with the same elements are the same list. *)
Lemma ascending_numbers_unique (k1 k2 : list Z) :
  ascending_numbers k1 -> ascending_numbers k2 ->
  (forall x, In x k1 <-> In x k2) -> k1 = k2.
Proof.
  unfold ascending_numbers. intros H1. revert k2.
  induction H1 as [| x k1 Hk1 IH Hx]; intros k2 H2 Hsame.
  - destruct k2 as [| y k2]; [reflexivity |].
    exfalso. apply (proj2 (Hsame y)). now left.
  - destruct H2 as [| y k2 Hk2 Hy].
    + exfalso. apply (proj1 (Hsame x)). now left.
    + rewrite Forall_forall in Hx, Hy.
      assert (Hxy : x = y).
      { destruct (proj1 (Hsame x) (or_introl eq_refl)) as [Heq | Hin]; [now symmetry |].
        destruct (proj2 (Hsame y) (or_introl eq_refl)) as [Heq | Hin']; [exact Heq |].
        specialize (Hx y Hin'). specialize (Hy x Hin). lia. }
      subst y. f_equal. apply IH; [exact Hk2 |].
      intros z. split; intros Hz.
      * destruct (proj1 (Hsame z) (or_intror Hz)) as [<- | Hin]; [| exact Hin].
        specialize (Hx x Hz). lia.
      * destruct (proj2 (Hsame z) (or_intror Hz)) as [<- | Hin]; [| exact Hin].
        specialize (Hy x Hz). lia.
Qed.

Lemma sort_numbers_key (numbers key : list Z) :
  NoDup numbers -> ascending_numbers key ->
  (sort_numbers numbers = key <-> forall x, In x numbers <-> In x key).
Proof.
  intros Hnd Hkey. split.
  - intros <- x. split; apply Permutation_in;
      [symmetry |]; apply sort_numbers_perm.
  - intros Hsame. apply ascending_numbers_unique;
      [now apply sort_numbers_ascending | exact Hkey |].
    intros x. rewrite <- Hsame. split; apply Permutation_in;
      [| symmetry]; apply sort_numbers_perm.
Qed.

(** ** How often a key is counted *)

Lemma key_count_app {K : Type} `{Key K} (l l' : list K) (k : K) :
  key_count (l ++ l') k = key_count l k + key_count l' k.
Proof. unfold key_count. rewrite count_occ_app. lia. Qed.

Lemma key_count_none {K : Type} `{Key K} (l : list K) (k : K) :
  ~ In k l -> key_count l k = 0.
Proof.
  intros Hnin. unfold key_count.
  now rewrite (proj1 (count_occ_not_In key_eq_dec l k) Hnin).
Qed.

Lemma key_count_pos {K : Type} `{Key K} (l : list K) (k : K) :
  In k l <-> 1 <= key_count l k.
Proof. unfold key_count. rewrite (count_occ_In key_eq_dec). lia. Qed.

Lemma key_count_image {A K : Type} `{Key K} (f : A -> K) (l : list A) (k : K) (a0 : A) :
  NoDup l -> In a0 l -> (forall a, In a l -> f a = k -> a = a0) -> f a0 = k ->
  key_count (map f l) k = 1.
Proof.
  intros Hnd Hin Honly Hf. unfold key_count. induction l as [| a l IH]; [destruct Hin |].
  inversion Hnd as [| ? ? Hnotin Hnd']; subst. cbn [map count_occ].
  destruct Hin as [-> | Hin].
  - destruct (key_eq_dec (f a0) (f a0)) as [_ | Hne]; [| congruence].
    assert (Hzero : count_occ key_eq_dec (map f l) (f a0) = 0%nat).
    { apply count_occ_not_In. intros Hmem. apply in_map_iff in Hmem.
      destruct Hmem as [a [Ha Hal]].
      rewrite (Honly a (or_intror Hal) Ha) in Hal. contradiction. }
    rewrite Hzero. reflexivity.
  - destruct (key_eq_dec (f a) (f a0)) as [Heq | _].
    + exfalso. rewrite (Honly a (or_introl eq_refl) Heq) in Hnotin. contradiction.
    + apply IH; [exact Hnd' | exact Hin |].
      intros a' Ha'. apply Honly. now right.
Qed.

Lemma includes_In (numbers : draw) (x : Z) : includes numbers x = true <-> In x numbers.
Proof. apply existsb_eqb. Qed.

Lemma holds_all_In (key : list Z) (numbers : draw) :
  holds_all key numbers = true <-> forall x, In x key -> In x numbers.
Proof.
  unfold holds_all. rewrite forallb_forall. split; intros H x Hx.
  - apply includes_In. now apply H.
  - apply includes_In. now apply H.
Qed.

(** In one game that lists no number twice, an ascending key of [size]
    numbers is the sorted form of exactly one combination if the game holds
    all its numbers, and of none otherwise. *)
Lemma key_count_game (numbers : draw) (size : nat) (key : list Z) :
  NoDup numbers -> ascending_numbers key -> List.length key = size ->
  key_count (map sort_numbers (combine_from numbers size)) key
  = if holds_all key numbers then 1 else 0.
Proof.
  intros Hnd Hkey Hlen.
  destruct (holds_all key numbers) eqn:Hall.
  - rewrite holds_all_In in Hall.
    set (s0 := filter (fun x => existsb (Z.eqb x) key) numbers).
    assert (Hsub : subsequence s0 numbers) by apply subsequence_filter.
    assert (Hel : forall x, In x s0 <-> In x key).
    { intros x. unfold s0. rewrite filter_In, existsb_eqb. split; [tauto |].
      intros Hx. split; [now apply Hall | exact Hx]. }
    assert (Hnd0 : NoDup s0) by exact (subsequence_NoDup _ _ Hsub Hnd).
    assert (Hlen0 : List.length s0 = size).
    { rewrite <- Hlen. apply Permutation_length.
      apply NoDup_Permutation; [exact Hnd0 | now apply ascending_numbers_NoDup | exact Hel]. }
    apply (key_count_image sort_numbers _ key s0).
    + now apply combine_from_NoDup.
    + apply combine_from_In. split; assumption.
    + intros s Hs Hsort. apply combine_from_In in Hs. destruct Hs as [Hs _].
      apply (subsequence_unique s s0 numbers Hnd Hs Hsub).
      intros x. rewrite Hel.
      apply (proj1 (sort_numbers_key s key (subsequence_NoDup _ _ Hs Hnd) Hkey) Hsort).
    + now apply sort_numbers_key.
  - apply key_count_none. intros Hin. apply in_map_iff in Hin.
    destruct Hin as [s [Hsort Hs]]. apply combine_from_In in Hs. destruct Hs as [Hs _].
    apply not_true_iff_false in Hall. apply Hall, holds_all_In.
    intros x Hx. apply (subsequence_In s numbers x Hs).
    apply (proj1 (sort_numbers_key s key (subsequence_NoDup _ _ Hs Hnd) Hkey) Hsort). exact Hx.
Qed.

(** The keys of one game are ascending and have [size] numbers of the
    game. *)
Lemma keys_of_game (numbers : draw) (size : nat) (key : list Z) :
  NoDup numbers -> In key (map sort_numbers (combine_from numbers size)) ->
  ascending_numbers key /\ List.length key = size /\ holds_all key numbers = true.
Proof.
  intros Hnd Hin. apply in_map_iff in Hin. destruct Hin as [s [<- Hs]].
  apply combine_from_In in Hs. destruct Hs as [Hs Hlen].
  split; [apply sort_numbers_ascending; exact (subsequence_NoDup _ _ Hs Hnd) |].
  split; [now rewrite (Permutation_length (sort_numbers_perm s)) |].
  apply holds_all_In. intros x Hx. apply (subsequence_In s numbers x Hs).
  now apply (Permutation_in _ (sort_numbers_perm s)).
Qed.

(** All the keys counted over a list of games. *)
Lemma key_count_games (games : list draw) (size : nat) (key : list Z) :
  Forall (@NoDup Z) games -> ascending_numbers key -> List.length key = size ->
  key_count (List.concat (map (fun numbers => map sort_numbers (combine_from numbers size)) games))
            key
  = Z.of_nat (List.length (filter (holds_all key) games)).
Proof.
  intros Hnd Hkey Hlen. induction games as [| g games IH].
  - reflexivity.
  - inversion Hnd as [| ? ? Hg Hnd']; subst. cbn [map List.concat filter].
    rewrite key_count_app, (key_count_game g _ key Hg Hkey eq_refl), (IH Hnd').
    destruct (holds_all key g); cbn [List.length]; lia.
Qed.

Lemma fold_left_mapped {A B C : Type} (f : A -> C -> A) (g : B -> C) (l : list B) (a : A) :
  fold_left (fun acc x => f acc (g x)) l a = fold_left f (map g l) a.
Proof. revert a. induction l as [| x l IH]; intros a; simpl; [reflexivity | apply IH]. Qed.

Lemma fold_left_same {A B : Type} (f g : A -> B -> A) (l : list B) (a : A) :
  (forall a b, f a b = g a b) -> fold_left f l a = fold_left g l a.
Proof.
  intros Hfg. revert a. induction l as [| b l IH]; intros a; simpl; [reflexivity |].
  now rewrite Hfg, IH.
Qed.

(** A map of sorted keys filled game by game is the counter of all the
    keys. *)
Lemma counted_keys (games : list draw) (size : nat) :
  fold_left (fun m numbers =>
               fold_left (fun m combo =>
                            Map_set m (sort_numbers combo) (get_or_0 m (sort_numbers combo) + 1))
                         (combine_from numbers size) m)
            games []
  = fold_left (fun m key => Map_set m key (get_or_0 m key + 1))
      (List.concat (map (fun numbers => map sort_numbers (combine_from numbers size)) games)) [].
Proof.
  generalize (@nil (list Z * Z)) as m.
  induction games as [| g games IH]; intros m; [reflexivity |].
  cbn [fold_left map List.concat]. rewrite fold_left_app, IH. f_equal.
  apply (fold_left_mapped (fun m key => Map_set m key (get_or_0 m key + 1)) sort_numbers).
Qed.

(** What the entries of such a map are, for games that list no number
    twice. *)
Lemma counted_keys_entries (locationData : history) (size : nat) (key : list Z) (v : Z) :
  duplicate_free locationData ->
  In (key, v)
     (fold_left (fun m key => Map_set m key (get_or_0 m key + 1))
        (List.concat (map (fun numbers => map sort_numbers (combine_from numbers size))
                          (values locationData))) []) ->
  ascending_numbers key /\ List.length key = size /\
  v = games_with locationData key /\ 1 <= v.
Proof.
  intros Hfree Hin. pose proof (duplicate_free_values locationData Hfree) as Hnd.
  apply (counter_entries 1) in Hin. destruct Hin as [Hv Hkey].
  assert (Hshape : ascending_numbers key /\ List.length key = size).
  { apply in_concat in Hkey. destruct Hkey as [keys [Hkeys Hk]].
    apply in_map_iff in Hkeys. destruct Hkeys as [g [<- Hg]].
    rewrite Forall_forall in Hnd.
    destruct (keys_of_game g size key (Hnd g Hg) Hk) as [H1 [H2 _]]. now split. }
  destruct Hshape as [Hasc Hlen]. split; [exact Hasc |]. split; [exact Hlen |].
  rewrite (key_count_games _ size key Hnd Hasc Hlen) in Hv.
  fold (games_with locationData key) in Hv.
  split; [lia |]. apply key_count_pos in Hkey.
  rewrite (key_count_games _ size key Hnd Hasc Hlen) in Hkey.
  fold (games_with locationData key) in Hkey. lia.
Qed.

Lemma ascending_pair (key : list Z) :
  ascending_numbers key -> List.length key = 2%nat ->
  exists a b, key = [a; b] /\ a < b.
Proof.
  intros Hasc Hlen. destruct key as [| a [| b [| c key]]]; try discriminate.
  exists a, b. split; [reflexivity |].
  inversion Hasc as [| ? ? _ Ha]; subst. inversion Ha; subst. assumption.
Qed.

Lemma ascending_triple (key : list Z) :
  ascending_numbers key -> List.length key = 3%nat ->
  exists a b c, key = [a; b; c] /\ a < b < c.
Proof.
  intros Hasc Hlen. destruct key as [| a [| b [| c [| e key]]]]; try discriminate.
  exists a, b, c. split; [reflexivity |].
  inversion Hasc as [| ? ? Hbc Ha]; subst. inversion Ha; subst.
  inversion Hbc as [| ? ? _ Hb]; subst. inversion Hb; subst. lia.
Qed.

(** ** [analyzeNumberCoOccurrence] *)

Lemma coOccurrenceMap_counter (locationData : history) :
  coOccurrenceMap locationData
  = fold_left (fun m key => Map_set m key (get_or_0 m key + 1))
      (List.concat (map (fun numbers => map sort_numbers (combine_from numbers 2))
                        (values locationData))) [].
Proof.
  rewrite <- counted_keys. unfold coOccurrenceMap.
  apply fold_left_same. intros m numbers. now rewrite pairs_after_combinations.
Qed.

(** The records of [analyzeNumberCoOccurrence] by the sorted pairs that
    are counted. *)
Lemma analyzeNumberCoOccurrence_pairs (locationData : history) :
  duplicate_free locationData ->
  exists pairs,
    analyzeNumberCoOccurrence (Some locationData) = Some pairs /\
    NoDup (map CoOccurrence.pair pairs) /\
    (forall r, In r pairs ->
       exists a b, CoOccurrence.pair r = [a; b] /\ a < b /\
         CoOccurrence.frequency r = games_with locationData [a; b] /\
         1 <= CoOccurrence.frequency r) /\
    (forall a b, a < b -> 1 <= games_with locationData [a; b] ->
       In [a; b] (map CoOccurrence.pair pairs)) /\
    StronglySorted (fun r r' => CoOccurrence.frequency r >= CoOccurrence.frequency r') pairs.
Proof.
  intros Hfree. pose proof (duplicate_free_values locationData Hfree) as Hnd.
  eexists. split; [reflexivity |].
  rewrite coOccurrenceMap_counter.
  set (keys := List.concat _).
  set (m := fold_left (fun m key => Map_set m key (get_or_0 m key + 1)) keys []).
  set (record := fun e : list Z * Z =>
         {| CoOccurrence.pair := fst e; CoOccurrence.frequency := snd e |}).
  assert (Hperm : Permutation (map CoOccurrence.pair (Array_sort by_frequency (map record m)))
                              (map fst m)).
  { rewrite Array_sort_perm, map_map. reflexivity. }
  split; [| split; [| split]].
  - apply (Permutation_NoDup (Permutation_sym Hperm)).
    apply (counter_NoDup 1). constructor.
  - intros r Hr. apply Array_sort_In, in_map_iff in Hr. destruct Hr as [[key v] [<- Hin]].
    cbn [record CoOccurrence.pair CoOccurrence.frequency fst snd].
    destruct (counted_keys_entries locationData 2 key v Hfree Hin) as [Hasc [Hlen [Hv Hpos]]].
    destruct (ascending_pair key Hasc Hlen) as [a [b [-> Hab]]].
    exists a, b. repeat split; assumption.
  - intros a b Hab Hgames.
    apply (Permutation_in _ (Permutation_sym Hperm)).
    apply (counter_keys 1). right.
    assert (Hasc : ascending_numbers [a; b]).
    { repeat constructor. exact Hab. }
    apply key_count_pos. unfold keys.
    rewrite (key_count_games _ 2 [a; b] Hnd Hasc eq_refl). exact Hgames.
  - apply Array_sort_ordered.
    + intros x y z. lia.
    + intros x y Hc. apply positive_of_Z_false in Hc. lia.
    + intros x y Hc. apply positive_of_Z in Hc. lia.
Qed.

(** A key that is counted comes from a game of the history. *)
Lemma games_with_game (locationData : history) (key : list Z) :
  1 <= games_with locationData key ->
  exists game, In game locationData /\ forall x, In x key -> In x (snd game).
Proof.
  unfold games_with. intros Hpos.
  destruct (filter (holds_all key) (values locationData)) as [| d rest] eqn:Hf;
    [simpl in Hpos; lia |].
  assert (Hin : In d (filter (holds_all key) (values locationData)))
    by (rewrite Hf; now left).
  apply filter_In in Hin. destruct Hin as [Hd Hholds].
  unfold values in Hd. apply in_map_iff in Hd. destruct Hd as [game [<- Hgame]].
  exists game. split; [| now apply holds_all_In].
  now apply (Permutation_in _ (proj1 (entries_listed locationData))).
Qed.

(** For every history in which no number is negative and no game lists a
    number twice, [analyzeNumberCoOccurrence] lists each pair of numbers
    that come together in some game once, as [a, b] with [a < b], with the
    number of games that hold both as [frequency], the most frequent pair
    first. *)
Theorem analyzeNumberCoOccurrence_frequency (locationData : history) :
  non_negative locationData ->
  duplicate_free locationData ->
  exists pairs,
    analyzeNumberCoOccurrence (Some locationData) = Some pairs /\
    NoDup (map CoOccurrence.pair pairs) /\
    (forall r, In r pairs ->
       exists a b, CoOccurrence.pair r = [a; b] /\ 0 <= a < b /\
         CoOccurrence.frequency r = games_with locationData [a; b] /\
         1 <= CoOccurrence.frequency r) /\
    (forall a b, a < b -> 1 <= games_with locationData [a; b] ->
       In [a; b] (map CoOccurrence.pair pairs)) /\
    StronglySorted (fun r r' => CoOccurrence.frequency r >= CoOccurrence.frequency r') pairs.
Proof.
  intros Hsign Hfree.
  destruct (analyzeNumberCoOccurrence_pairs locationData Hfree)
    as [pairs (Heq & Hnd & Hpairs & Hall & Hsorted)].
  exists pairs. split; [exact Heq |]. split; [exact Hnd |].
  split; [| split; [exact Hall | exact Hsorted]].
  intros r Hr. destruct (Hpairs r Hr) as (a & b & Hpair & Hab & Hfreq & Hpos).
  exists a, b. split; [exact Hpair |]. split; [| split; [exact Hfreq | exact Hpos]].
  split; [| exact Hab].
  rewrite Hfreq in Hpos.
  destruct (games_with_game locationData [a; b] Hpos) as [game [Hgame Hholds]].
  apply (Hsign game a Hgame), Hholds. now left.
Qed.

Lemma analyzeNumberCoOccurrence_frequency_witness :
  exists pairs,
    analyzeNumberCoOccurrence (Some [ (1, [5; 6]); (2, [6; 5]) ]) = Some pairs /\
    In [5; 6] (map CoOccurrence.pair pairs).
Proof.
  destruct (analyzeNumberCoOccurrence_frequency [ (1, [5; 6]); (2, [6; 5]) ])
    as [pairs [Hp [_ [_ [Hall _]]]]].
  - intros game x [<- | [<- | []]] [<- | [<- | []]]; lia.
  - intros game [<- | [<- | []]]; repeat constructor; simpl; intuition discriminate.
  - exists pairs. split; [exact Hp |]. apply Hall; [lia |]. vm_compute. discriminate.
Defined.

(** ** [analyzeNumberCombinations] *)

Lemma combinationCounts_counter (locationData : history) :
  combinationCounts locationData
  = fold_left (fun m key => Map_set m key (get_or_0 m key + 1))
      (List.concat (map (fun numbers => map sort_numbers (combine_from numbers 3))
                        (values locationData))) [].
Proof.
  rewrite <- counted_keys. unfold combinationCounts.
  apply fold_left_same. intros m numbers. now rewrite triples_combinations.
Qed.

Lemma NoDup_slice_to {A : Type} (n : nat) (l : list A) : NoDup l -> NoDup (slice_to n l).
Proof.
  unfold slice_to. intros Hnd. rewrite <- (firstn_skipn n l) in Hnd.
  now apply NoDup_app_remove_r in Hnd.
Qed.

Lemma StronglySorted_slice_to {A : Type} (R : A -> A -> Prop) (n : nat) (l : list A) :
  StronglySorted R l -> StronglySorted R (slice_to n l).
Proof.
  unfold slice_to. intros Hs. revert n.
  induction Hs as [| x l Hl IH Hx]; intros n; destruct n; simpl; try constructor.
  - apply IH.
  - rewrite Forall_forall in *. intros y Hy. apply Hx.
    rewrite <- (firstn_skipn n l). apply in_or_app. now left.
Qed.

Lemma games_with_le (locationData : history) (key : list Z) :
  games_with locationData key <= Z.of_nat (List.length locationData).
Proof.
  unfold games_with, values, entries, ascending.
  pose proof (filter_length_le (holds_all key) (map snd (Array_sort
                (fun a b : Z * draw => Num.of_Z (fst a - fst b)) locationData))) as Hle.
  rewrite length_map, Array_sort_length in Hle. lia.
Qed.

(** [toFixed(2)] of a share of the games, as a percentage. *)
Lemma toFixed_share (count games : Z) :
  1 <= count <= games ->
  exists n,
    toFixed 2 (Num.mul (Num.div (Num.of_Z count) (Num.of_Z games)) (Num.of_Z 100))
    = Digits 2 n /\ 0 <= n <= 10000.
Proof.
  intros Hc. destruct (div_of_Z count games ltac:(lia)) as [q [-> Hq]].
  unfold Num.mul, Num.of_Z, toFixed.
  set (p := Qred (q * inject_Z 100)).
  pose proof (inject_Z_pos games ltac:(lia)) as Hgames.
  assert (Hq01 : (0 <= q <= 1)%Q).
  { rewrite Hq. split.
    - apply Qle_shift_div_l; [exact Hgames |].
      assert (0 <= inject_Z count)%Q by (apply inject_Z_nonneg; lia). lra.
    - apply Qle_shift_div_r; [exact Hgames |].
      assert (inject_Z count <= inject_Z games)%Q by (rewrite <- Zle_Qle; lia). lra. }
  assert (Hp : (p == q * 100)%Q) by (unfold p; now rewrite Qred_correct).
  assert (Hp0 : (0 <= p)%Q) by (rewrite Hp; lra).
  assert (Habs : (Qabs p == p)%Q) by now apply Qabs_pos.
  destruct (Qle_bool (inject_Z (10 ^ 21)) (Qabs p)) eqn:Hbig.
  - apply Qle_bool_iff in Hbig. rewrite Habs, Hp in Hbig.
    assert (Hlarge : (100 < inject_Z (10 ^ 21))%Q) by reflexivity.
    set (large := inject_Z (10 ^ 21)) in *. clearbody large. exfalso. lra.
  - replace (Num.Qnegative p) with false
      by (symmetry; apply negb_false_iff, Qle_bool_iff; exact Hp0).
    eexists. split; [reflexivity |].
    change (10 ^ Z.of_nat 2) with 100.
    split.
    + apply Z.le_trans with (Qfloor 0); [discriminate |].
      apply Qfloor_resp_le. rewrite Habs, Hp.
      change (inject_Z 100) with 100%Q. lra.
    + apply Z.le_trans with (Qfloor (10000 + (1 # 2))); [| discriminate].
      apply Qfloor_resp_le. rewrite Habs, Hp.
      change (inject_Z 100) with 100%Q. lra.
Qed.

(** The records of [analyzeNumberCombinations] by the sorted triples that
    are counted. *)
Lemma analyzeNumberCombinations_triples
    (locationData : history) (allJson : option (object (object draw))) :
  duplicate_free locationData ->
  exists records,
    analyzeNumberCombinations (loadData (Some locationData) allJson)
    = Returned (Some records) /\
    (List.length records <= 10)%nat /\
    NoDup (map Combination.numbers records) /\
    (forall r, In r records ->
       exists a b c n,
         Combination.numbers r = [a; b; c] /\ a < b < c /\
         Combination.occurrences r = games_with locationData [a; b; c] /\
         1 <= Combination.occurrences r <= Z.of_nat (List.length locationData) /\
         Combination.confidence r = Digits 2 n /\ 0 <= n <= 10000) /\
    StronglySorted
      (fun r r' => Combination.occurrences r >= Combination.occurrences r') records.
Proof.
  intros Hfree.
  unfold analyzeNumberCombinations, loadData, combination_analysis. cbn [current Counts].
  destruct (getNumberCounts (Some locationData)) as [stats |] eqn:Hstats; [| discriminate].
  eexists. split; [reflexivity |].
  unfold topCombinations.
  set (games := Z.of_nat (List.length (entries locationData))).
  assert (Hgames : games = Z.of_nat (List.length locationData)).
  { unfold games, entries, ascending. now rewrite Array_sort_length. }
  set (sorted := sortedCombinations locationData stats).
  assert (Hperm : Permutation (map Scored.numbers sorted)
                              (map fst (combinationCounts locationData))).
  { unfold sorted, sortedCombinations. rewrite Array_sort_perm, map_map. reflexivity. }
  assert (Hsorted : StronglySorted (fun s s' => Scored.count s >= Scored.count s') sorted).
  { unfold sorted, sortedCombinations. apply Array_sort_ordered.
    - intros x y z. lia.
    - intros x y Hc. unfold by_count_then_score in Hc.
      destruct (Z.eqb_spec (Scored.count y) (Scored.count x)) as [Heq | Hne]; [lia |].
      cbn [negb] in Hc. apply positive_of_Z_false in Hc. lia.
    - intros x y Hc. unfold by_count_then_score in Hc.
      destruct (Z.eqb_spec (Scored.count y) (Scored.count x)) as [Heq | Hne]; [lia |].
      cbn [negb] in Hc. apply positive_of_Z in Hc. lia. }
  split; [| split; [| split]].
  - rewrite length_map. apply slice_to_length.
  - rewrite map_map. cbn [Combination.numbers].
    change (NoDup (map Scored.numbers (slice_to 10 sorted))).
    unfold slice_to. rewrite <- firstn_map. apply (NoDup_slice_to 10).
    apply (Permutation_NoDup (Permutation_sym Hperm)).
    rewrite combinationCounts_counter. apply (counter_NoDup 1). constructor.
  - intros r Hr. apply in_map_iff in Hr. destruct Hr as [scored [<- Hs]].
    cbn [Combination.numbers Combination.occurrences Combination.confidence].
    apply In_slice_to in Hs. unfold sorted, sortedCombinations in Hs.
    apply Array_sort_In, in_map_iff in Hs. destruct Hs as [[key v] [<- Hin]].
    cbn [Scored.numbers Scored.count fst snd].
    rewrite combinationCounts_counter in Hin.
    destruct (counted_keys_entries locationData 3 key v Hfree Hin) as [Hasc [Hlen [Hv Hpos]]].
    destruct (ascending_triple key Hasc Hlen) as [a [b [c [-> Habc]]]].
    pose proof (games_with_le locationData [a; b; c]) as Hle.
    destruct (toFixed_share v games ltac:(lia)) as [n [Hn Hrange]].
    exists a, b, c, n. repeat split; try assumption; lia.
  - apply StronglySorted_map. cbn [Combination.occurrences].
    now apply StronglySorted_slice_to.
Qed.

(** For every history in which no number is negative and no game lists a
    number twice, [analyzeNumberCombinations] returns at most 10 records,
    each for another triple [a < b < c] of numbers that come together in
    some game; its [occurrences] is the number of games that hold all
    three, its [confidence] is a percentage of at most 100.00, and the
    records come with the most frequent triple first. *)
Theorem analyzeNumberCombinations_occurrences
    (locationData : history) (allJson : option (object (object draw))) :
  non_negative locationData ->
  duplicate_free locationData ->
  exists records,
    analyzeNumberCombinations (loadData (Some locationData) allJson)
    = Returned (Some records) /\
    (List.length records <= 10)%nat /\
    NoDup (map Combination.numbers records) /\
    (forall r, In r records ->
       exists a b c n,
         Combination.numbers r = [a; b; c] /\ 0 <= a < b /\ b < c /\
         Combination.occurrences r = games_with locationData [a; b; c] /\
         1 <= Combination.occurrences r <= Z.of_nat (List.length locationData) /\
         Combination.confidence r = Digits 2 n /\ 0 <= n <= 10000) /\
    StronglySorted
      (fun r r' => Combination.occurrences r >= Combination.occurrences r') records.
Proof.
  intros Hsign Hfree.
  destruct (analyzeNumberCombinations_triples locationData allJson Hfree)
    as [records (Heq & Hlen & Hnd & Hrecords & Hsorted)].
  exists records. split; [exact Heq |]. split; [exact Hlen |]. split; [exact Hnd |].
  split; [| exact Hsorted].
  intros r Hr.
  destruct (Hrecords r Hr) as (a & b & c & n & Hnum & Habc & Hocc & Hbound & Hconf & Hn).
  exists a, b, c, n. split; [exact Hnum |].
  split; [| split; [lia | split; [exact Hocc | split; [exact Hbound | split; assumption]]]].
  split; [| lia].
  assert (Hpos : 1 <= games_with locationData [a; b; c]) by lia.
  destruct (games_with_game locationData [a; b; c] Hpos) as [game [Hgame Hholds]].
  apply (Hsign game a Hgame), Hholds. now left.
Qed.

Lemma analyzeNumberCombinations_occurrences_witness :
  exists records,
    analyzeNumberCombinations (loadData (Some one_game_today) None) = Returned (Some records) /\
    (List.length records <= 10)%nat.
Proof.
  destruct (analyzeNumberCombinations_occurrences one_game_today None) as [records [Hr [Hlen _]]].
  - intros game x [<- | []] [<- | [<- | [<- | []]]]; lia.
  - intros game [<- | []]. repeat constructor; simpl; intuition discriminate.
  - exists records. split; [exact Hr | exact Hlen].
Defined.

(** ** [analyzeNumberCoOccurrenceOfAllData] *)

(** As the page script has it now, the all-time variant tests
    [game.numbers] on games that are arrays: it skips every game, and for
    every all-time file that was loaded it returns the empty list (so
    [displayAllDataCoOccurences] finds no predictions to show). *)
Theorem analyzeNumberCoOccurrenceOfAllData_empty
    (currentJson : option history) (allJson : object (object draw)) :
  analyzeNumberCoOccurrenceOfAllData (loadData currentJson (Some allJson)) = Some [].
Proof.
  unfold analyzeNumberCoOccurrenceOfAllData, loadData. cbn [allData].
  destruct (processKenoData (Some allJson)) as [locationData |] eqn:Hd; [| discriminate].
  assert (Hskip : forall games (m : Map (list Z) Z),
             fold_left (fun m game =>
                          match numbers_property game with
                          | Some numbers => fold_left count_pair (pairs_after numbers) m
                          | None => m
                          end) games m = m).
  { induction games as [| g games IH]; intros m; [reflexivity | apply IH]. }
  now rewrite Hskip.
Qed.

(** ** [getCombinations] and [generateNumberCombinations] *)

Lemma getCombinations_facts {A : Type} (arr : list A) (size : Z) :
  0 <= size ->
  (forall s, In s (getCombinations arr size)
             <-> subsequence s arr /\ Z.of_nat (List.length s) = size) /\
  Z.of_nat (List.length (getCombinations arr size))
  = binomial (Z.of_nat (List.length arr)) size.
Proof.
  intros Hsize. unfold getCombinations.
  destruct (Z.ltb_spec size 0); [lia |]. split.
  - intros s. rewrite combine_from_In.
    split; intros [Hs Hlen]; (split; [exact Hs | lia]).
  - rewrite combine_from_length. f_equal. lia.
Qed.

(** [getCombinations(arr, size)] returns nothing for a negative size; for
    [size >= 0] it returns exactly the subsequences of [arr] with [size]
    elements, C(n, size) of them for an array of [n] elements, and each
    once if [arr] has no duplicates. *)
Theorem getCombinations_spec {A : Type} (arr : list A) (size : Z) :
  (size < 0 -> getCombinations arr size = []) /\
  (0 <= size ->
   forall s, In s (getCombinations arr size)
             <-> subsequence s arr /\ Z.of_nat (List.length s) = size) /\
  (0 <= size ->
   Z.of_nat (List.length (getCombinations arr size))
   = binomial (Z.of_nat (List.length arr)) size) /\
  (NoDup arr -> NoDup (getCombinations arr size)).
Proof.
  split; [| split; [| split]].
  - intros Hneg. unfold getCombinations. destruct (Z.ltb_spec size 0); [reflexivity | lia].
  - intros Hsize. exact (proj1 (getCombinations_facts arr size Hsize)).
  - intros Hsize. exact (proj2 (getCombinations_facts arr size Hsize)).
  - intros Hnd. unfold getCombinations.
    destruct (size <? 0); [constructor | now apply combine_from_NoDup].
Qed.

Lemma Zrange_ascending (lo : Z) (len : nat) : ascending_numbers (Zrange lo len).
Proof.
  unfold ascending_numbers. revert lo. induction len as [| len IH]; intros lo.
  - constructor.
  - rewrite Zrange_cons. constructor; [apply IH |].
    apply Forall_forall. intros y Hy. unfold Zrange in Hy.
    apply in_map_iff in Hy. destruct Hy as [i [<- _]]. lia.
Qed.

Lemma Zrange_In (lo : Z) (len : nat) (z : Z) :
  In z (Zrange lo len) -> lo <= z < lo + Z.of_nat len.
Proof.
  unfold Zrange. intros Hz. apply in_map_iff in Hz.
  destruct Hz as [i [<- Hi]]. apply in_seq in Hi. lia.
Qed.

Lemma subsequence_ascending (s l : list Z) :
  subsequence s l -> ascending_numbers l -> ascending_numbers s.
Proof.
  unfold ascending_numbers.
  induction 1 as [| x s l Hs IH | x s l Hs IH]; intros Hl.
  - constructor.
  - inversion Hl as [| ? ? Hl' Hx]; subst. constructor; [now apply IH |].
    rewrite Forall_forall in *. intros y Hy. apply Hx.
    now apply (subsequence_In s l).
  - inversion Hl; subst. now apply IH.
Qed.

(** For [n >= 0] and [k >= 0], [generateNumberCombinations(n, k)] lists
    C(n, k) combinations, each of [k] numbers from 1 to [n] in ascending
    order; for [k <= n <= 53] that number is what [combinations(n, k)] of
    the same file returns. *)
Theorem generateNumberCombinations_count (n k : Z) :
  0 <= n -> 0 <= k ->
  Z.of_nat (List.length (generateNumberCombinations n k)) = binomial n k /\
  (forall s, In s (generateNumberCombinations n k) ->
     ascending_numbers s /\ Z.of_nat (List.length s) = k /\
     forall x, In x s -> 1 <= x <= n) /\
  (k <= n <= 53 ->
   Binary64.denotes (MathUtils.combinations n k)
                    (Z.of_nat (List.length (generateNumberCombinations n k))) = true).
Proof.
  intros Hn Hk.
  destruct (getCombinations_facts (Zrange 1 (Z.to_nat n)) k Hk) as [Hin Hlen].
  rewrite Zrange_length, Z2Nat.id in Hlen by exact Hn.
  unfold generateNumberCombinations.
  split; [exact Hlen |]. split.
  - intros s Hs. apply Hin in Hs. destruct Hs as [Hsub Hsize].
    split; [exact (subsequence_ascending _ _ Hsub (Zrange_ascending 1 _)) |].
    split; [exact Hsize |].
    intros x Hx. apply (subsequence_In _ _ x Hsub), Zrange_In in Hx. lia.
  - intros Hcase. rewrite Hlen.
    pose proof (table_lookup _ _ _ _ _ MathUtils_combinations_exact_table n k) as T.
    simpl in T. specialize (T ltac:(lia) ltac:(lia)).
    apply orb_true_iff in T. destruct T as [T | T]; [| exact T].
    apply negb_true_iff, Z.leb_gt in T. lia.
Qed.

Lemma generateNumberCombinations_count_witness :
  0 <= 4 /\ 0 <= 2 /\
  Z.of_nat (List.length (generateNumberCombinations 4 2)) = binomial 4 2.
Proof.
  split; [lia |]. split; [lia |].
  apply (generateNumberCombinations_count 4 2); lia.
Defined.

(** ** Sorting where the comparator is consistent on the elements *)
Section SortOn.
Context {A : Type} (compareFn : A -> A -> num).
Variable P : A -> Prop.
Variable before : A -> A -> Prop.
Hypothesis before_trans :
  forall x y z, P x -> P y -> P z -> before x y -> before y z -> before x z.
Hypothesis keeps :
  forall x y, P x -> P y -> Num.positive (compareFn x y) = false -> before x y.
Hypothesis swaps :
  forall x y, P x -> P y -> Num.positive (compareFn x y) = true -> before y x.

Lemma insert_sorted_ordered_on (x : A) (l : list A) :
  P x -> Forall P l ->
  StronglySorted before l -> StronglySorted before (insert_sorted compareFn x l).
Proof.
  intros Hx Hall Hs. induction Hs as [| y l Hl IH Hy]; simpl.
  - constructor; constructor.
  - inversion Hall as [| ? ? HPy Hall']; subst.
    rewrite Forall_forall in Hall'.
    destruct (Num.positive (compareFn x y)) eqn:Hc.
    + constructor; [apply IH; now apply Forall_forall |].
      apply Forall_forall. intros z Hz.
      apply (Permutation_in _ (insert_sorted_perm compareFn x l)) in Hz.
      destruct Hz as [<- | Hz]; [now apply swaps |].
      rewrite Forall_forall in Hy. now apply Hy.
    + constructor; [now constructor |].
      constructor; [now apply keeps |].
      apply Forall_forall. intros z Hz. rewrite Forall_forall in Hy.
      apply before_trans with y; auto.
Qed.

Lemma Array_sort_ordered_on (l : list A) :
  Forall P l -> StronglySorted before (Array_sort compareFn l).
Proof.
  induction l as [| x l IH]; intros Hall; simpl; [constructor |].
  inversion Hall as [| ? ? Hx Hall']; subst.
  apply insert_sorted_ordered_on; [exact Hx | | now apply IH].
  apply Forall_forall. intros y Hy. apply Array_sort_In in Hy.
  rewrite Forall_forall in Hall'. now apply Hall'.
Qed.
End SortOn.

(** ** The gap ratio of a number outside the pool *)

Lemma outside_ok_initial (x : Z) : ~ in_pool x -> outside_ok initialGaps x.
Proof.
  intros Hout. left. split; [reflexivity |].
  unfold initialGaps. cbn [currentGaps].
  rewrite (Map_get_tabulated (fun _ => 0)).
  destruct (in_dec Z.eq_dec x (Zrange 1 80)) as [Hin | _]; [| reflexivity].
  exfalso. apply Hout. apply Zrange_In in Hin. unfold in_pool. simpl in Hin. lia.
Qed.

Lemma outside_ok_record (st : gapState) (num x : Z) :
  outside_ok st x -> outside_ok (recordAppearance st num) x.
Proof.
  intros Hok. destruct (Z.eq_dec num x) as [-> | Hne].
  - right. destruct (recordAppearance_same st x) as [_ Hgaps]. rewrite Hgaps.
    unfold gaps_so_far. destruct Hok as [[Ha Hc] | [rest Hr]].
    + rewrite Ha, Hc. now exists [].
    + rewrite Hr. now exists (rest ++ [Map_get (currentGaps st) x]).
  - unfold outside_ok, recordAppearance. cbn [gapAnalysis currentGaps].
    rewrite !Map_get_set_other by congruence. exact Hok.
Qed.

Lemma outside_ok_scanGame (st : gapState) (numbers : draw) (x : Z) :
  outside_ok st x -> outside_ok (scanGame st numbers) x.
Proof.
  intros Hok. unfold scanGame.
  set (st0 := {| gapAnalysis := gapAnalysis st;
                 currentGaps := map (fun e => (fst e, snd e + 1)) (currentGaps st) |}).
  assert (Hok0 : outside_ok st0 x).
  { unfold outside_ok, st0. cbn [gapAnalysis currentGaps]. rewrite Map_get_increment.
    destruct Hok as [[Ha Hc] | Hr]; [left | now right]. now rewrite Hc. }
  clearbody st0. clear Hok. revert st0 Hok0.
  induction numbers as [| n numbers IH]; intros st0 Hok0; cbn [fold_left]; [exact Hok0 |].
  apply IH. now apply outside_ok_record.
Qed.

Lemma outside_ok_scan (draws : list draw) (st : gapState) (x : Z) :
  outside_ok st x -> outside_ok (fold_left scanGame draws st) x.
Proof.
  revert st. induction draws as [| d draws IH]; intros st Hok; cbn [fold_left]; [exact Hok |].
  apply IH. now apply outside_ok_scanGame.
Qed.

Lemma sum_NaN (gaps : list (option Z)) :
  fold_left (fun sum gap => Num.add sum (to_num gap)) gaps NaN = NaN.
Proof. induction gaps as [| g gaps IH]; [reflexivity | exact IH]. Qed.

Lemma div_NaN_r (x : num) : Num.div x NaN = NaN.
Proof. now destruct x. Qed.

(** Every gap ratio is a Number that is not negative, or NaN; it is never an
    infinity. *)
Lemma gapRatio_loose (locationData : history) (records : list Gap.t) (r : Gap.t) :
  analyzeNumberGaps (Some locationData) = Some records ->
  In r records -> NaN_or_nonneg (Gap.gapRatio r).
Proof.
  intros Hrec Hr.
  destruct (Z_le_dec 1 (Gap.number r)) as [Hlo | Hlo];
    [destruct (Z_le_dec (Gap.number r) 80) as [Hhi | Hhi] |].
  - right. exact (proj2 (analyzeNumberGaps_finite _ _ r Hrec Hr (conj Hlo Hhi))).
  - left. unfold analyzeNumberGaps in Hrec. apply Some_eq in Hrec. subst records.
    apply Array_sort_In, in_map_iff in Hr. destruct Hr as [[x gaps] [<- Hin]].
    cbn [gapRecord Gap.number Gap.gapRatio fst snd] in *.
    pose proof (In_Map_get _ _ _ (scanGames_NoDup locationData) Hin) as Hget.
    destruct (outside_ok_scan (map snd (games_newest_first locationData)) initialGaps x)
      as [[Ha _] | [rest Hrest]].
    + apply outside_ok_initial. unfold in_pool. lia.
    + fold (scanGames locationData) in Ha. congruence.
    + fold (scanGames locationData) in Hrest. rewrite Hget in Hrest.
      injection Hrest as ->. cbn [fold_left].
      change (Num.add (Num.of_Z 0) (to_num None)) with NaN.
      rewrite sum_NaN. cbn [Num.div]. apply div_NaN_r.
  - left. unfold analyzeNumberGaps in Hrec. apply Some_eq in Hrec. subst records.
    apply Array_sort_In, in_map_iff in Hr. destruct Hr as [[x gaps] [<- Hin]].
    cbn [gapRecord Gap.number Gap.gapRatio fst snd] in *.
    pose proof (In_Map_get _ _ _ (scanGames_NoDup locationData) Hin) as Hget.
    destruct (outside_ok_scan (map snd (games_newest_first locationData)) initialGaps x)
      as [[Ha _] | [rest Hrest]].
    + apply outside_ok_initial. unfold in_pool. lia.
    + fold (scanGames locationData) in Ha. congruence.
    + fold (scanGames locationData) in Hrest. rewrite Hget in Hrest.
      injection Hrest as ->. cbn [fold_left].
      change (Num.add (Num.of_Z 0) (to_num None)) with NaN.
      rewrite sum_NaN. cbn [Num.div]. apply div_NaN_r.
Qed.

(** ** [Math.max] and [normalizeScores] on such Numbers *)

Lemma max2_NaN (values : list num) : fold_left Num.max2 values NaN = NaN.
Proof. induction values as [| v values IH]; [reflexivity | exact IH]. Qed.

Lemma max2_not_NInf (x y : num) : x <> NInf -> Num.max2 x y <> NInf.
Proof.
  intros Hx. destruct x as [a | | |], y as [b | | |]; cbn [Num.max2];
    try discriminate; try congruence.
  destruct (Qle_bool a b); discriminate.
Qed.

Lemma max2_fold_not_NInf (values : list num) (acc : num) :
  acc <> NInf -> fold_left Num.max2 values acc <> NInf.
Proof.
  revert acc. induction values as [| v values IH]; intros acc Hacc; cbn [fold_left];
    [exact Hacc |].
  apply IH. now apply max2_not_NInf.
Qed.

Lemma max2_fold_loose (values : list num) (acc : num) :
  (forall v, In v values -> NaN_or_nonneg v) ->
  acc = NInf \/ NaN_or_nonneg acc ->
  fold_left Num.max2 values acc = NaN \/
  (fold_left Num.max2 values acc = NInf /\ values = []) \/
  exists m, fold_left Num.max2 values acc = Fin m /\ (0 <= m)%Q /\
            (forall q, In (Fin q) values -> (q <= m)%Q) /\
            (forall a, acc = Fin a -> (a <= m)%Q).
Proof.
  revert acc. induction values as [| v values IH]; intros acc Hall Hacc.
  - cbn [fold_left]. destruct Hacc as [-> | [-> | [a [-> Ha]]]].
    + right. left. now split.
    + now left.
    + right. right. exists a. split; [reflexivity |]. split; [exact Ha |].
      split; [intros q [] |]. intros a' [= <-]. apply Qle_refl.
  - cbn [fold_left].
    destruct (Hall v (or_introl eq_refl)) as [-> | [q [-> Hq]]].
    + replace (Num.max2 acc NaN) with NaN by (now destruct acc).
      left. apply max2_NaN.
    + assert (Hstep : Num.max2 acc (Fin q) = NaN \/
                      exists a', Num.max2 acc (Fin q) = Fin a' /\ (0 <= a')%Q /\ (q <= a')%Q /\
                                 (forall a, acc = Fin a -> (a <= a')%Q)).
      { destruct Hacc as [-> | [-> | [a [-> Ha]]]].
        - right. exists q. cbn. split; [reflexivity |]. split; [exact Hq |].
          split; [apply Qle_refl | intros a [=]].
        - now left.
        - right. cbn [Num.max2]. destruct (Qle_bool a q) eqn:Haq.
          + apply Qle_bool_iff in Haq. exists q. split; [reflexivity |].
            split; [exact Hq |]. split; [apply Qle_refl |]. intros a' [= <-]. exact Haq.
          + exists a. split; [reflexivity |]. split; [exact Ha |]. split.
            * destruct (Qlt_le_dec a q) as [Hlt | Hle]; [| exact Hle].
              apply Qlt_le_weak, Qle_bool_iff in Hlt. congruence.
            * intros a' [= <-]. apply Qle_refl. }
      destruct Hstep as [-> | [a' [-> [Ha' [Hqa' Hold]]]]]; [left; apply max2_NaN |].
      destruct (IH (Fin a') (fun v' Hv' => Hall v' (or_intror Hv'))
                  (or_intror (or_intror (ex_intro _ a' (conj eq_refl Ha')))))
        as [HM | [[HM _] | [m [HM [Hm [Hup Hacc']]]]]].
      * now left.
      * exfalso. apply (max2_fold_not_NInf values (Fin a')); [discriminate | exact HM].
      * right. right. exists m. split; [exact HM |]. split; [exact Hm |].
        specialize (Hacc' a' eq_refl). split.
        -- intros q' [[= ->] | Hq']; [lra | now apply Hup].
        -- intros a Ha. specialize (Hold a Ha). lra.
Qed.

Lemma normalizeScores_loose {A : Type} (number : A -> Z) (scoreKey : A -> num)
    (array : list A) :
  (forall x, In x array -> NaN_or_nonneg (scoreKey x)) ->
  forall item, In item (normalizeScores number scoreKey array) ->
    NaN_or_within 1 (snd item).
Proof.
  intros Hall item Hin. unfold normalizeScores in Hin.
  apply in_map_iff in Hin. destruct Hin as [x [<- Hx]]. cbn [snd].
  assert (Hvalues : forall v, In v (map scoreKey array) -> NaN_or_nonneg v).
  { intros v Hv. apply in_map_iff in Hv. destruct Hv as [y [<- Hy]]. now apply Hall. }
  destruct (max2_fold_loose (map scoreKey array) NInf Hvalues (or_introl eq_refl))
    as [HM | [[_ Hnil] | [m [HM [Hm [Hup _]]]]]].
  - unfold Math_max. rewrite HM. left. apply div_NaN_r.
  - apply (in_map scoreKey) in Hx. rewrite Hnil in Hx. destruct Hx.
  - unfold Math_max. rewrite HM.
    destruct (Hall x Hx) as [-> | [q [Hq Hq0]]]; [now left |].
    rewrite Hq. assert (Hqm : (q <= m)%Q).
    { apply Hup. rewrite <- Hq. now apply in_map. }
    unfold Num.div. destruct (Qeq_bool m 0) eqn:Hz.
    + apply Qeq_bool_iff in Hz.
      assert (Hq' : (q == 0)%Q) by lra.
      apply Qeq_bool_iff in Hq'. rewrite Hq'. now left.
    + right. eexists. split; [reflexivity |]. rewrite Qred_correct.
      assert (Hmpos : (0 < m)%Q).
      { destruct (Qlt_le_dec 0 m) as [Hlt | Hle]; [exact Hlt |].
        assert (Hm0 : (m == 0)%Q) by lra.
        apply Qeq_bool_iff in Hm0. congruence. }
      split; [apply Qle_shift_div_l | apply Qle_shift_div_r]; lra.
Qed.

(** ** One pass of [accumulate] over scores that may be NaN *)

Lemma accumulate_loose (weight before : Q) (items : list (Z * num)) (m : Map Z num) :
  (0 <= weight)%Q -> (0 <= before)%Q ->
  NoDup (map fst items) ->
  (forall item, In item items -> NaN_or_within 1 (snd item)) ->
  scores_loose before (before + weight) (map fst items) m ->
  scores_loose (before + weight) (before + weight) []
               (fold_left (accumulate (Fin weight)) items m).
Proof.
  intros Hw Hbefore. revert m.
  induction items as [| [k0 s0] items IH]; intros m Hnd Hitems Hm.
  - simpl. intros k v Hin. destruct (Hm k v Hin) as [-> | [q [-> [H0 [Hb _]]]]]; [now left |].
    right. exists q. split; [reflexivity |]. split; [exact H0 |]. split; [exact Hb |].
    intros [].
  - simpl in Hnd. inversion Hnd as [| ? ? Hnotin Hnd']; subst.
    cbn [fold_left]. apply IH; [exact Hnd' | intros item Hi; apply Hitems; now right |].
    assert (Hprev : exists p, match Map_get m k0 with
                              | Some v => Num.or_zero v
                              | None => Num.of_Z 0
                              end = Fin p /\ (0 <= p)%Q /\ (p <= before)%Q).
    { destruct (Map_get m k0) as [v |] eqn:Hget.
      - apply Map_get_In in Hget.
        destruct (Hm k0 v Hget) as [-> | [q [-> [H0 [_ Hb]]]]].
        + exists 0%Q. split; [reflexivity |]. split; [apply Qle_refl | exact Hbefore].
        + specialize (Hb (or_introl eq_refl)). simpl.
          destruct (Qeq_bool q 0) eqn:Hz.
          * exists 0%Q. split; [reflexivity |]. split; [apply Qle_refl | exact Hbefore].
          * exists q. split; [reflexivity |]. split; assumption.
      - exists 0%Q. split; [reflexivity |]. split; [apply Qle_refl | exact Hbefore]. }
    destruct Hprev as [p [Hp [Hp0 Hpb]]].
    intros k v Hin. unfold accumulate in Hin. cbn [fst snd] in Hin.
    rewrite Hp in Hin. apply Map_set_In in Hin.
    destruct Hin as [[-> ->] | Hold].
    + destruct (Hitems (k0, s0) (or_introl eq_refl)) as [Hs | [s [Hs [Hs0 Hs1]]]];
        simpl in Hs; subst s0; [now left |].
      right. cbn [Num.mul Num.add]. eexists. split; [reflexivity |].
      rewrite !Qred_correct.
      assert (Hsw : (0 <= s * weight)%Q) by (apply Qmult_le_0_compat; assumption).
      assert (Hsw1 : (s * weight <= 1 * weight)%Q)
        by (apply Qmult_le_compat_r; assumption).
      split; [lra |]. split; [lra |]. intros Hk0. contradiction.
    + destruct (Hm k v Hold) as [-> | [q [-> [H0 [Hb Hpend]]]]]; [now left |].
      right. exists q. split; [reflexivity |]. split; [exact H0 |]. split; [exact Hb |].
      intros Hk. apply Hpend. now right.
Qed.

Lemma scores_loose_relax (b1 b1' b2 b2' : Q) (pending : list Z) (m : Map Z num) :
  scores_loose b1 b1' [] m -> (b1' <= b2)%Q -> (b2 <= b2')%Q ->
  scores_loose b2 b2' pending m.
Proof.
  intros Hm H12 H22 k v Hin. destruct (Hm k v Hin) as [-> | [q [-> [H0 [Hb _]]]]]; [now left |].
  right. exists q. split; [reflexivity |]. split; [exact H0 |]. split; [lra |].
  intros _. lra.
Qed.

(** ** [generatePredictions] on every history *)

Lemma momentum_nonneg (locationData : history) (windowSize : Z)
    (trends : list Trend.t) (t : Trend.t) :
  0 < windowSize ->
  analyzeRecentTrends (Some locationData) windowSize = Some trends ->
  In t trends -> NaN_or_nonneg (Trend.momentum t).
Proof.
  intros Hw Htrends Ht.
  destruct (analyzeRecentTrends_records _ _ _ t Htrends Ht) as [Hfreq [_ Hmom]].
  destruct (div_of_Z (Trend.recentFrequency t) windowSize Hw) as [q [Hq Hval]].
  right. exists q. split; [now rewrite Hmom |].
  rewrite Hval. apply Qle_shift_div_l; [now apply inject_Z_pos |].
  assert (0 <= inject_Z (Trend.recentFrequency t))%Q.
  { apply inject_Z_nonneg. rewrite Hfreq. apply occurrences_nonneg. }
  lra.
Qed.

Lemma unit_is_loose (items : list (Z * num)) :
  (forall item, In item items -> exists s, snd item = Fin s /\ (0 <= s <= 1)%Q) ->
  forall item, In item items -> NaN_or_within 1 (snd item).
Proof. intros Hall item Hin. right. now apply Hall. Qed.

(** Whatever the history, every combined score is a Number between 0 and
    1, for a number of the history. *)
Lemma combinedScores_unit (locationData : history)
    (recentTrends : list Trend.t) (gapAnalysis : list Gap.t) (hotCold : list HotCold.t) :
  analyzeRecentTrends (Some locationData) 10 = Some recentTrends ->
  analyzeNumberGaps (Some locationData) = Some gapAnalysis ->
  analyzeHotColdPatterns (Some locationData) 2 = Some hotCold ->
  forall k v, In (k, v) (combinedScores_of recentTrends gapAnalysis hotCold) ->
    appears locationData k /\ exists q, v = Fin q /\ (0 <= q <= 1)%Q.
Proof.
  intros Ht Hg Hh k v Hin.
  set (normalizedHotCold :=
         normalizeScores HotCold.number (fun h => Num.of_Z (HotCold.weightedScore h)) hotCold).
  assert (Happ : appears locationData k).
  { apply (in_map fst) in Hin. cbn [fst] in Hin.
    unfold combinedScores_of in Hin. rewrite !accumulate_keys in Hin.
    rewrite !normalizeScores_keys in Hin.
    destruct Hin as [[[[] | Hk] | Hk] | Hk].
    - now apply (analyzeRecentTrends_numbers locationData 10 recentTrends).
    - now apply (analyzeNumberGaps_numbers locationData gapAnalysis).
    - now apply (analyzeHotColdPatterns_numbers locationData 2 hotCold). }
  split; [exact Happ |].
  assert (Hkey : In k (map fst normalizedHotCold)).
  { unfold normalizedHotCold. rewrite normalizeScores_keys.
    now apply (analyzeHotColdPatterns_numbers locationData 2 hotCold k Hh). }
  assert (Hscaled : well_scaled
            (map (fun h => Num.of_Z (HotCold.weightedScore h)) hotCold) = true).
  { rewrite <- (map_map HotCold.weightedScore Num.of_Z).
    apply well_scaled_at_least_one.
    - destruct hotCold; [destruct Hkey | discriminate].
    - intros z Hz. apply in_map_iff in Hz. destruct Hz as [h [<- Hin']].
      now apply (analyzeHotColdPatterns_at_least locationData hotCold Hh). }
  assert (Hunit : forall item, In item normalizedHotCold ->
                    exists s, snd item = Fin s /\ (0 <= s <= 1)%Q)
    by (apply normalizeScores_unit; exact Hscaled).
  assert (H1 : scores_loose (0 + (2 # 5)) (0 + (2 # 5)) []
                 (fold_left (accumulate (Fin (2 # 5)))
                    (normalizeScores Trend.number Trend.momentum recentTrends) [])).
  { apply (accumulate_loose (2 # 5) 0); try lra.
    - apply NoDup_normalizeScores. exact (analyzeRecentTrends_NoDup _ _ _ Ht).
    - apply normalizeScores_loose. intros t Hin'.
      apply (momentum_nonneg locationData 10 recentTrends t); [lia | exact Ht | exact Hin'].
    - intros ? ? []. }
  assert (H2 : scores_loose ((2 # 5) + (3 # 10)) ((2 # 5) + (3 # 10)) []
                 (fold_left (accumulate (Fin (3 # 10)))
                    (normalizeScores Gap.number Gap.gapRatio gapAnalysis)
                    (fold_left (accumulate (Fin (2 # 5)))
                       (normalizeScores Trend.number Trend.momentum recentTrends) []))).
  { apply (accumulate_loose (3 # 10) (2 # 5)); try lra.
    - apply NoDup_normalizeScores. exact (analyzeNumberGaps_NoDup _ _ Hg).
    - apply normalizeScores_loose. intros r Hr.
      exact (gapRatio_loose locationData gapAnalysis r Hg Hr).
    - apply (scores_loose_relax _ _ _ _ _ _ H1); lra. }
  assert (H3 : scores_loose ((7 # 10) + (3 # 10)) ((7 # 10) + (3 # 10)) []
                 (combinedScores_of recentTrends gapAnalysis hotCold)).
  { unfold combinedScores_of, weight_trends, weight_gaps, weight_hotCold.
    apply (accumulate_loose (3 # 10) (7 # 10)); try lra.
    - apply NoDup_normalizeScores. exact (analyzeHotColdPatterns_NoDup _ _ _ Hh).
    - apply unit_is_loose. exact Hunit.
    - apply (scores_loose_relax _ _ _ _ _ _ H2); lra. }
  assert (Hsettled : settled ([] ++ map fst normalizedHotCold)
                             (combinedScores_of recentTrends gapAnalysis hotCold)).
  { unfold combinedScores_of, weight_hotCold. apply accumulate_settles.
    - intros item Hitem. destruct (Hunit item Hitem) as [s [Hs _]]. now exists s.
    - intros ? ? []. }
  assert (Hget : Map_get (combinedScores_of recentTrends gapAnalysis hotCold) k = Some v).
  { apply In_Map_get; [| exact Hin].
    unfold combinedScores_of. repeat apply accumulate_NoDup. constructor. }
  destruct (H3 k v Hin) as [-> | [q [-> [H0 [Hb _]]]]].
  - exfalso. exact (Hsettled k NaN Hkey Hget eq_refl).
  - exists q. split; [reflexivity |]. split; [exact H0 | lra].
Qed.

Lemma by_score_digits (p p' : Prediction.t) (n n' : Z) :
  Prediction.score p = Digits 3 n -> Prediction.score p' = Digits 3 n' ->
  (Num.positive (by_score p p') = true <-> n < n').
Proof.
  intros Hp Hp'. unfold by_score. rewrite Hp, Hp'.
  change (Num.Number (Digits 3 n')) with (Num.div (Num.of_Z n') (Num.of_Z 1000)).
  change (Num.Number (Digits 3 n)) with (Num.div (Num.of_Z n) (Num.of_Z 1000)).
  apply quotient_compare. lia.
Qed.

(** For every history that was loaded, [generatePredictions] returns at
    most 10 predictions, each for another number of the history, with a
    printed score between 0.000 and 1.000 and a printed confidence of at
    most 100.0 percent, the highest score first. No condition on the three
    metric sets is needed: a NaN that the gap ratios bring in is replaced in
    the hot/cold pass, which reaches every number. Quotients are exact
    rationals here. *)
Theorem generatePredictions_always (locationData : history) :
  exists predictions,
    generatePredictions (Some locationData) = Returned predictions /\
    (List.length predictions <= 10)%nat /\
    NoDup (map Prediction.number predictions) /\
    (forall p, In p predictions ->
       appears locationData (Prediction.number p) /\
       unit_score (Prediction.score p) /\
       at_most_100_percent (Prediction.confidence p)) /\
    StronglySorted
      (fun p p' => digits_of (Prediction.score p) >= digits_of (Prediction.score p'))
      predictions.
Proof.
  destruct (analyzeRecentTrends (Some locationData) 10) as [recentTrends |] eqn:Ht;
    [| discriminate].
  destruct (analyzeNumberGaps (Some locationData)) as [gapAnalysis |] eqn:Hg;
    [| discriminate].
  destruct (analyzeHotColdPatterns (Some locationData) 2) as [hotCold |] eqn:Hh;
    [| discriminate].
  exists (predictions_of recentTrends gapAnalysis hotCold).
  split; [unfold generatePredictions; now rewrite Ht, Hg, Hh |].
  pose proof (combinedScores_unit locationData _ _ _ Ht Hg Hh) as Hunit.
  unfold predictions_of.
  set (record := fun e : Z * num =>
         {| Prediction.number := fst e;
            Prediction.score := toFixed 3 (snd e);
            Prediction.confidence := toFixed 1 (Num.mul (snd e) (Num.of_Z 100));
            Prediction.recentTrend :=
              find_num_or_0 (fun t => Trend.number t =? fst e) Trend.momentum recentTrends;
            Prediction.gapAnalysis :=
              find_num_or_0 (fun g => Gap.number g =? fst e) Gap.gapRatio gapAnalysis;
            Prediction.hotColdScore :=
              find_num_or_0 (fun h => HotCold.number h =? fst e)
                            (fun h => Num.of_Z (HotCold.weightedScore h)) hotCold |}).
  set (scores := combinedScores_of recentTrends gapAnalysis hotCold) in *.
  assert (Hrecords : forall p, In p (map record scores) ->
            appears locationData (Prediction.number p) /\
            unit_score (Prediction.score p) /\
            at_most_100_percent (Prediction.confidence p)).
  { intros p Hp. apply in_map_iff in Hp. destruct Hp as [[k v] [<- Hin]].
    cbn [record Prediction.number Prediction.score Prediction.confidence fst snd].
    destruct (Hunit k v Hin) as [Happ [q [-> Hq]]].
    split; [exact Happ |]. split; [now apply toFixed_unit | now apply toFixed_percent]. }
  split; [apply slice_to_length |]. split; [| split].
  - unfold slice_to. rewrite <- firstn_map. apply (NoDup_slice_to 10).
    apply (Permutation_NoDup (Permutation_sym (Permutation_map _ (Array_sort_perm _ _)))).
    rewrite map_map. cbn [record Prediction.number].
    unfold scores, combinedScores_of. repeat apply accumulate_NoDup. constructor.
  - intros p Hp. apply Hrecords. now apply In_slice_to, Array_sort_In in Hp.
  - apply StronglySorted_slice_to.
    apply (Array_sort_ordered_on by_score (fun p => unit_score (Prediction.score p))).
    + intros x y z _ _ _. lia.
    + intros x y [n [Hx _]] [n' [Hy _]] Hc.
      apply not_true_iff_false in Hc. rewrite (by_score_digits x y n n' Hx Hy) in Hc.
      rewrite Hx, Hy. cbn [digits_of]. lia.
    + intros x y [n [Hx _]] [n' [Hy _]] Hc.
      rewrite (by_score_digits x y n n' Hx Hy) in Hc.
      rewrite Hx, Hy. cbn [digits_of]. lia.
    + apply Forall_forall. intros p Hp. now apply Hrecords.
Qed.

(* ================================================================== *)
(** * [DataLoader.processKenoData] *)
(* ================================================================== *)

Lemma sub_positive (a b : Q) :
  Num.positive (Num.sub (Fin a) (Fin b)) = true <-> (b < a)%Q.
Proof.
  unfold Num.sub, Num.neg, Num.add, Num.positive, Num.Qpositive.
  rewrite negb_true_iff, <- not_true_iff_false, Qle_bool_iff, !Qred_correct.
  split; intros H; lra.
Qed.

Lemma DataLoader_newest_first_keeps (Date_getTime : key -> num) (parseInt_name : string -> num)
    (a b : DataLoader.game) :
  DataLoader.well_dated Date_getTime a -> DataLoader.well_dated Date_getTime b ->
  (Num.positive (DataLoader.newest_first Date_getTime parseInt_name a b) = true
   <-> ~ DataLoader.not_older Date_getTime a b).
Proof.
  intros [[ta Hta] [na Hna]] [[tb Htb] [nb Hnb]].
  unfold DataLoader.newest_first, DataLoader.not_older, DataLoader.time_of,
    DataLoader.number_of, DataLoader.parseInt.
  rewrite Hta, Htb, Hna, Hnb. cbn [DataLoader.differs].
  destruct (Qeq_bool ta tb) eqn:Heq; cbn [negb].
  - apply Qeq_bool_iff in Heq.
    change (Num.sub (Num.of_Z nb) (Num.of_Z na)) with (Num.sub (Fin (inject_Z nb)) (Fin (inject_Z na))).
    rewrite sub_positive, <- Zlt_Qlt. split.
    + intros Hlt [Hd | [_ Hn]]; [lra | lia].
    + intros Hnot. destruct (Z_lt_dec na nb) as [Hlt | Hge]; [exact Hlt |].
      exfalso. apply Hnot. right. split; [exact Heq | lia].
  - apply Qeq_bool_neq in Heq. rewrite sub_positive. split.
    + intros Hlt [Hd | [Hd _]]; [lra | contradiction].
    + intros Hnot. destruct (Qlt_le_dec ta tb) as [Hlt | Hle]; [exact Hlt |].
      exfalso. apply Hnot. left.
      destruct (Qlt_le_dec tb ta) as [Hlt' | Hle']; [exact Hlt' |].
      exfalso. apply Heq. lra.
Qed.

(** When every date parses and every game number is an array index,
    [DataLoader.processKenoData] returns the games of all the dates, each
    with its date, game number and numbers, none lost and none added, by
    date descending and, within a date, by game number descending. *)
Theorem DataLoader_processKenoData_sorted
    (Date_getTime : key -> num) (parseInt_name : string -> num)
    (jsonData : object (object draw)) :
  Forall (DataLoader.well_dated Date_getTime) (DataLoader.flattened jsonData) ->
  Permutation (DataLoader.processKenoData Date_getTime parseInt_name (Some jsonData))
              (DataLoader.flattened jsonData) /\
  StronglySorted (DataLoader.not_older Date_getTime)
    (DataLoader.processKenoData Date_getTime parseInt_name (Some jsonData)).
Proof.
  intros Hall. split; [apply Array_sort_perm |].
  unfold DataLoader.processKenoData.
  apply (Array_sort_ordered_on _ (DataLoader.well_dated Date_getTime)); [| | | exact Hall].
  - intros x y z _ _ _. unfold DataLoader.not_older.
    intros [H1 | [H1 N1]] [H2 | [H2 N2]].
    + left. lra.
    + left. lra.
    + left. lra.
    + right. split; [lra | lia].
  - intros x y Hx Hy Hc.
    destruct (DataLoader_newest_first_keeps Date_getTime parseInt_name x y Hx Hy) as [H1 H2].
    unfold DataLoader.not_older in *.
    destruct (Qlt_le_dec (DataLoader.time_of Date_getTime y) (DataLoader.time_of Date_getTime x))
      as [Hlt | Hle]; [now left |].
    destruct (Qlt_le_dec (DataLoader.time_of Date_getTime x) (DataLoader.time_of Date_getTime y))
      as [Hlt' | Hle'].
    + exfalso. apply not_true_iff_false in Hc. apply Hc, H2.
      intros [Hd | [Hd _]]; lra.
    + destruct (Z_lt_dec (DataLoader.number_of x) (DataLoader.number_of y)) as [Hn | Hn].
      * exfalso. apply not_true_iff_false in Hc. apply Hc, H2.
        intros [Hd | [_ Hd]]; [lra | lia].
      * right. split; [lra | lia].
  - intros x y Hx Hy Hc.
    apply (DataLoader_newest_first_keeps Date_getTime parseInt_name x y Hx Hy) in Hc.
    unfold DataLoader.not_older in *.
    destruct (Qlt_le_dec (DataLoader.time_of Date_getTime x) (DataLoader.time_of Date_getTime y))
      as [Hlt | Hle]; [now left |].
    right.
    destruct (Qlt_le_dec (DataLoader.time_of Date_getTime y) (DataLoader.time_of Date_getTime x))
      as [Hlt' | Hle']; [exfalso; apply Hc; now left |].
    split; [lra |].
    destruct (Z_lt_dec (DataLoader.number_of x) (DataLoader.number_of y)) as [Hn | Hn]; [lia |].
    exfalso. apply Hc. right. split; [lra | lia].
Qed.

Lemma DataLoader_processKenoData_sorted_witness :
  map DataLoader.numbers
      (DataLoader.processKenoData days_since_2025 (fun _ => NaN) (Some two_dates))
  = [ [10; 11; 12]; [7; 8; 9]; [4; 5; 6]; [1; 2; 3] ] /\
  StronglySorted (DataLoader.not_older days_since_2025)
    (DataLoader.processKenoData days_since_2025 (fun _ => NaN) (Some two_dates)).
Proof.
  split; [reflexivity |].
  apply (DataLoader_processKenoData_sorted days_since_2025 (fun _ => NaN) two_dates).
  apply Forall_forall. intros g Hg. vm_compute in Hg.
  destruct Hg as [<- | [<- | [<- | [<- | []]]]]; split; eexists; reflexivity.
Defined.

(* ================================================================== *)
(** * The payout probabilities at concrete bets *)
(* ================================================================== *)

Lemma Script_probability_invalid_witness :
  (3 > 2 \/ 3 > 20 \/ 2 > 80 \/ 2 - 3 > 60) /\
  PrimFloat.eqb (Script.probabilityOfHitting 3 2) 0 = true.
Proof.
  assert (Hinvalid : 3 > 2 \/ 3 > 20 \/ 2 > 80 \/ 2 - 3 > 60) by (left; lia).
  split; [exact Hinvalid |].
  exact (Script_probability_invalid 3 2 Hinvalid).
Defined.

Lemma Script_probability_unit_interval_witness :
  0 <= 5 /\ Binary64.in_unit_interval (Script.probabilityOfHitting 5 10) = true.
Proof.
  split; [lia |]. apply (Script_probability_unit_interval 5 10). lia.
Defined.

(* ================================================================== *)
(** * ArrayUtils.js *)
(* ================================================================== *)

Section SetFacts.
Context {A : Type} `{Key A}.

Lemma Set_of_snoc (arr : list A) (x : A) :
  ArrayUtils.Set_of (arr ++ [x]) = ArrayUtils.Set_add (ArrayUtils.Set_of arr) x.
Proof. unfold ArrayUtils.Set_of. now rewrite fold_left_app. Qed.

Lemma Set_of_In (arr : list A) (x : A) : In x (ArrayUtils.Set_of arr) <-> In x arr.
Proof.
  induction arr as [| y arr IH] using rev_ind; [reflexivity |].
  rewrite Set_of_snoc, in_app_iff. unfold ArrayUtils.Set_add. simpl.
  destruct (in_dec key_eq_dec y (ArrayUtils.Set_of arr)) as [Hin | Hnin].
  - rewrite IH. split; [now left | intros [? | [<- | []]]; [assumption | now apply IH]].
  - rewrite in_app_iff, IH. simpl. tauto.
Qed.

Lemma Set_of_NoDup (arr : list A) : NoDup (ArrayUtils.Set_of arr).
Proof.
  induction arr as [| y arr IH] using rev_ind; [constructor |].
  rewrite Set_of_snoc. unfold ArrayUtils.Set_add.
  destruct (in_dec key_eq_dec y (ArrayUtils.Set_of arr)) as [Hin | Hnin]; [exact IH |].
  apply NoDup_app; [exact IH | repeat constructor; intros [] |].
  intros x Hx [<- | []]. contradiction.
Qed.

Lemma Set_add_fresh (set : list A) (arr : list A) :
  NoDup (set ++ arr) -> fold_left ArrayUtils.Set_add arr set = set ++ arr.
Proof.
  revert set. induction arr as [| x arr IH]; intros set Hnd; cbn [fold_left].
  - now rewrite app_nil_r.
  - unfold ArrayUtils.Set_add at 2.
    destruct (in_dec key_eq_dec x set) as [Hin | Hnin].
    + exfalso. apply (NoDup_remove_2 _ _ _ Hnd), in_or_app. now left.
    + rewrite IH; rewrite <- app_assoc; [reflexivity | exact Hnd].
Qed.

Lemma has_In (set : list A) (x : A) : ArrayUtils.has set x = true <-> In x set.
Proof.
  unfold ArrayUtils.has. destruct (in_dec key_eq_dec x set); split; try tauto; discriminate.
Qed.

Lemma has_Set_of (arr : list A) (x : A) :
  ArrayUtils.has (ArrayUtils.Set_of arr) x = true <-> In x arr.
Proof. now rewrite has_In, Set_of_In. Qed.

(** A [Set] filled from [set] on: the values of [arr] that [set] does not
    hold are added in the order of their first copies. *)
Lemma Set_of_from (arr set : list A) :
  fold_left ArrayUtils.Set_add arr set
  = (set ++ filter (fun y => negb (ArrayUtils.has set y)) (ArrayUtils.Set_of arr))%list.
Proof.
  induction arr as [| a arr IH] using rev_ind.
  - cbn. now rewrite app_nil_r.
  - rewrite fold_left_app. cbn [fold_left]. rewrite IH, Set_of_snoc.
    unfold ArrayUtils.Set_add.
    destruct (in_dec key_eq_dec a (ArrayUtils.Set_of arr)) as [Hin | Hnin].
    + destruct (in_dec key_eq_dec a _) as [_ | Hout]; [reflexivity |].
      exfalso. apply Hout. rewrite in_app_iff, filter_In, negb_true_iff.
      destruct (ArrayUtils.has set a) eqn:Hs; [left; now apply has_In | right; tauto].
    + rewrite filter_app. cbn [filter].
      destruct (in_dec key_eq_dec a _) as [Hthere | Hout].
      * apply in_app_iff in Hthere. destruct Hthere as [Hs | Hf].
        -- rewrite (proj2 (has_In set a) Hs). cbn. now rewrite app_nil_r.
        -- apply filter_In in Hf. tauto.
      * destruct (ArrayUtils.has set a) eqn:Hs.
        -- exfalso. apply Hout, in_app_iff. left. now apply has_In.
        -- cbn. now rewrite app_assoc.
Qed.

(** [unique] keeps the first copy of each value, in the order of the
    array: the result starts with the first element, followed by what
    [unique] keeps of the rest without that element. So it has no
    duplicates and the values of the array and nothing else, it returns an
    array without duplicates as it is, and it changes nothing when applied
    again. *)
Theorem ArrayUtils_unique_spec (arr : list A) :
  ArrayUtils.unique [] = [] /\
  (forall x rest,
     ArrayUtils.unique (x :: rest)
     = x :: filter (fun y => if key_eq_dec x y then false else true)
                   (ArrayUtils.unique rest)) /\
  NoDup (ArrayUtils.unique arr) /\
  (forall x, In x (ArrayUtils.unique arr) <-> In x arr) /\
  (NoDup arr -> ArrayUtils.unique arr = arr) /\
  ArrayUtils.unique (ArrayUtils.unique arr) = ArrayUtils.unique arr.
Proof.
  unfold ArrayUtils.unique.
  assert (Hfix : forall l : list A, NoDup l -> ArrayUtils.Set_of l = l).
  { intros l Hnd. unfold ArrayUtils.Set_of. now rewrite (Set_add_fresh [] l). }
  split; [reflexivity |]. split.
  - intros x rest. unfold ArrayUtils.Set_of at 1. cbn [fold_left].
    change (ArrayUtils.Set_add [] x) with [x].
    rewrite Set_of_from. cbn [app]. f_equal. apply filter_ext. intros y.
    unfold ArrayUtils.has. cbn [in_dec].
    destruct (in_dec key_eq_dec y [x]) as [Hin | Hnin];
      destruct (key_eq_dec x y) as [Heq | Hne]; try reflexivity.
    + destruct Hin as [Hin | []]. congruence.
    + exfalso. apply Hnin. now left.
  - split; [apply Set_of_NoDup |]. split; [apply Set_of_In |].
    split; [apply Hfix | apply Hfix, Set_of_NoDup].
Qed.

(** [intersection] of no array is empty; otherwise it holds, once each,
    the values that every array holds. *)
Theorem ArrayUtils_intersection_spec (arrays : list (list A)) :
  NoDup (ArrayUtils.intersection arrays) /\
  (arrays = [] -> ArrayUtils.intersection arrays = []) /\
  (arrays <> [] ->
   forall x, In x (ArrayUtils.intersection arrays) <-> forall arr, In arr arrays -> In x arr).
Proof.
  destruct arrays as [| first [| second rest]].
  - split; [constructor |]. split; [reflexivity | congruence].
  - cbn [ArrayUtils.intersection]. split; [apply Set_of_NoDup |].
    split; [discriminate |]. intros _ x. unfold ArrayUtils.unique. rewrite Set_of_In.
    split; [intros Hx arr [<- | []]; exact Hx | intros Hall; apply Hall; now left].
  - cbn [ArrayUtils.intersection]. split; [apply NoDup_filter, Set_of_NoDup |].
    split; [discriminate |]. intros _ x.
    rewrite filter_In, forallb_forall. unfold ArrayUtils.unique. rewrite Set_of_In. split.
    + intros [Hfirst Hrest] arr [<- | Harr]; [exact Hfirst |].
      apply has_In. now apply Hrest.
    + intros Hall. split; [apply Hall; now left |].
      intros arr Harr. apply has_In, Hall. now right.
Qed.

Lemma difference_In (arr1 arr2 : list A) (x : A) :
  In x (ArrayUtils.difference arr1 arr2) <-> In x arr1 /\ ~ In x arr2.
Proof.
  unfold ArrayUtils.difference. rewrite filter_In, negb_true_iff, <- not_true_iff_false.
  now rewrite has_Set_of.
Qed.

(** [difference] keeps, in order and with their repetitions, the items of
    the first array that the second does not hold; [symmetricDifference]
    holds the values that are in exactly one of the two arrays, and the two
    orders of its arguments give the same items. *)
Theorem ArrayUtils_symmetricDifference_spec (arr1 arr2 : list A) :
  ArrayUtils.difference arr1 arr2
  = filter (fun item => if in_dec key_eq_dec item arr2 then false else true) arr1 /\
  (forall x, In x (ArrayUtils.symmetricDifference arr1 arr2)
             <-> (In x arr1 /\ ~ In x arr2) \/ (In x arr2 /\ ~ In x arr1)) /\
  Permutation (ArrayUtils.symmetricDifference arr1 arr2)
              (ArrayUtils.symmetricDifference arr2 arr1).
Proof.
  split; [| split].
  - unfold ArrayUtils.difference. apply filter_ext. intros x.
    destruct (in_dec key_eq_dec x arr2) as [Hin | Hnin].
    + now rewrite (proj2 (has_Set_of arr2 x) Hin).
    + apply negb_true_iff, not_true_iff_false. now rewrite has_Set_of.
  - intros x. unfold ArrayUtils.symmetricDifference.
    now rewrite in_app_iff, !difference_In.
  - apply Permutation_app_comm.
Qed.

(** [findMatches]: [count] is the number of items of the first array, with
    their repetitions, that the second holds, while [matches] has each such
    value once; so [count] is at least the number of matches, and equal to
    it when the first array has no duplicates. *)
Theorem ArrayUtils_findMatches_spec (arr1 arr2 : list A) :
  let result := ArrayUtils.findMatches arr1 arr2 in
  NoDup (ArrayUtils.matches result) /\
  (forall x, In x (ArrayUtils.matches result) <-> In x arr1 /\ In x arr2) /\
  ArrayUtils.count result
  = Z.of_nat (List.length (filter (fun item => if in_dec key_eq_dec item arr2 then true else false)
                                  arr1)) /\
  Z.of_nat (List.length (ArrayUtils.matches result)) <= ArrayUtils.count result /\
  (NoDup arr1 ->
   ArrayUtils.count result = Z.of_nat (List.length (ArrayUtils.matches result))).
Proof.
  cbn zeta. unfold ArrayUtils.findMatches. cbn [ArrayUtils.matches ArrayUtils.count].
  set (kept := filter (fun item => ArrayUtils.has (ArrayUtils.Set_of arr2) item) arr1).
  assert (Hkept : kept = filter (fun item => if in_dec key_eq_dec item arr2 then true else false)
                                arr1).
  { unfold kept. apply filter_ext. intros x.
    destruct (in_dec key_eq_dec x arr2) as [Hin | Hnin].
    - now apply has_Set_of.
    - apply not_true_iff_false. now rewrite has_Set_of. }
  split; [apply Set_of_NoDup |]. split; [| split; [| split]].
  - intros x. unfold ArrayUtils.unique. rewrite Set_of_In. unfold kept.
    now rewrite filter_In, has_Set_of.
  - now rewrite Hkept.
  - apply inj_le. apply NoDup_incl_length; [apply Set_of_NoDup |].
    intros x Hx. unfold ArrayUtils.unique in Hx. rewrite Set_of_In in Hx. exact Hx.
  - intros Hnd. unfold ArrayUtils.unique, ArrayUtils.Set_of.
    rewrite (Set_add_fresh [] kept); [reflexivity |].
    unfold kept. now apply NoDup_filter.
Qed.
End SetFacts.

Section Slices.
Context {A : Type}.

Lemma Array_slice_window (arr : list A) (i w : Z) :
  0 <= i -> 0 <= w ->
  Array_slice arr i (i + w) = firstn (Z.to_nat w) (skipn (Z.to_nat i) arr).
Proof.
  intros Hi Hw. unfold Array_slice, slice_index.
  destruct (Z.ltb_spec i 0) as [? | _]; [lia |].
  destruct (Z.ltb_spec (i + w) 0) as [? | _]; [lia |].
  destruct (Z_lt_le_dec i (Z.of_nat (List.length arr))) as [Hlt | Hge].
  - rewrite (Z.min_l i) by lia.
    destruct (Z_le_gt_dec (i + w) (Z.of_nat (List.length arr))) as [Hin | Hout].
    + rewrite Z.min_l by lia. f_equal. lia.
    + rewrite Z.min_r by lia.
      rewrite !firstn_all2; [reflexivity | |]; rewrite length_skipn; lia.
  - rewrite (Z.min_r i) by lia. rewrite Z.min_r by lia.
    rewrite Z.sub_diag. cbn [Z.to_nat firstn].
    rewrite (skipn_all2 (n := Z.to_nat i)) by lia. now rewrite firstn_nil.
Qed.

Lemma Array_slice_tail (arr : list A) (k : Z) :
  0 < k <= Z.of_nat (List.length arr) ->
  Array_slice arr (- k) (Z.of_nat (List.length arr))
  = skipn (List.length arr - Z.to_nat k) arr.
Proof.
  intros Hk. unfold Array_slice, slice_index.
  destruct (Z.ltb_spec (- k) 0) as [_ | ?]; [| lia].
  destruct (Z.ltb_spec (Z.of_nat (List.length arr)) 0) as [? | _]; [lia |].
  rewrite Z.max_l by lia. rewrite Z.min_id.
  replace (Z.to_nat (Z.of_nat (List.length arr) + - k))
    with (List.length arr - Z.to_nat k)%nat by lia.
  apply firstn_all2. rewrite length_skipn. lia.
Qed.

Lemma Array_slice_head (arr : list A) (k : Z) :
  0 < k <= Z.of_nat (List.length arr) ->
  Array_slice arr 0 (- k) = firstn (List.length arr - Z.to_nat k) arr.
Proof.
  intros Hk. unfold Array_slice, slice_index.
  destruct (Z.ltb_spec (- k) 0) as [_ | ?]; [| lia].
  cbn [Z.ltb Z.compare]. rewrite Z.max_l by lia. rewrite Z.min_l by lia.
  cbn [Z.to_nat skipn]. f_equal. lia.
Qed.
End Slices.

(* ------------------------------------------------------------------ *)
(** ** chunk *)

Section Chunks.
Context {A : Type}.

Lemma chunk_loop_spec (arr : list A) (size : Z) (m : nat) :
  0 < size ->
  forall (i : Z) (chunks : list (list A)),
    0 <= i ->
    (List.length (skipn (Z.to_nat i) arr) <= m)%nat ->
    exists cs,
      (forall fuel, (List.length (skipn (Z.to_nat i) arr) < fuel)%nat ->
                    ArrayUtils.chunk_loop fuel arr size i chunks = Some (chunks ++ cs)%list) /\
      List.concat cs = skipn (Z.to_nat i) arr /\
      chunked (Z.to_nat size) cs /\
      Z.of_nat (List.length cs)
      = (Z.of_nat (List.length (skipn (Z.to_nat i) arr)) + size - 1) / size.
Proof.
  intros Hsize.
  assert (Hdone : forall (i : Z) (chunks : list (list A)),
             Z.of_nat (List.length arr) <= i ->
             exists cs,
               (forall fuel, (List.length (skipn (Z.to_nat i) arr) < fuel)%nat ->
                             ArrayUtils.chunk_loop fuel arr size i chunks = Some (chunks ++ cs)%list) /\
               List.concat cs = skipn (Z.to_nat i) arr /\
               chunked (Z.to_nat size) cs /\
               Z.of_nat (List.length cs)
               = (Z.of_nat (List.length (skipn (Z.to_nat i) arr)) + size - 1) / size).
  { intros i chunks Hge. exists []. rewrite length_skipn.
    split; [| split; [| split; [exact I |]]].
    - intros [| fuel] Hfuel; [lia |]. cbn [ArrayUtils.chunk_loop].
      destruct (Z.ltb_spec i (Z.of_nat (List.length arr))) as [? | _]; [lia |].
      now rewrite app_nil_r.
    - symmetry. apply skipn_all2. lia.
    - replace (List.length arr - Z.to_nat i)%nat with 0%nat by lia.
      cbn [List.length Z.of_nat]. symmetry. apply Z.div_small. lia. }
  induction m as [| m IH]; intros i chunks Hi Hm.
  - apply Hdone. rewrite length_skipn in Hm. lia.
  - destruct (Z_lt_le_dec i (Z.of_nat (List.length arr))) as [Hlt | Hge].
    + set (rest := skipn (Z.to_nat i) arr) in *.
      assert (Hrest : (0 < List.length rest)%nat).
      { unfold rest. rewrite length_skipn. lia. }
      assert (Hnext : skipn (Z.to_nat (i + size)) arr = skipn (Z.to_nat size) rest).
      { unfold rest. rewrite skipn_skipn. f_equal. lia. }
      destruct (IH (i + size) (chunks ++ [Array_slice arr i (i + size)])) as
        (cs & Hrun & Hcat & Hchunked & Hcount); [lia | |].
      { rewrite Hnext, length_skipn. lia. }
      rewrite Hnext in Hrun, Hcat, Hcount.
      rewrite Array_slice_window in Hrun by lia. fold rest in Hrun.
      exists (firstn (Z.to_nat size) rest :: cs).
      split; [| split; [| split]].
      * intros [| fuel] Hfuel; [lia |]. cbn [ArrayUtils.chunk_loop].
        destruct (Z.ltb_spec i (Z.of_nat (List.length arr))) as [_ | ?]; [| lia].
        rewrite Array_slice_window by lia. fold rest.
        rewrite Hrun; [now rewrite <- app_assoc |].
        rewrite length_skipn. lia.
      * cbn [List.concat]. rewrite Hcat. apply firstn_skipn.
      * cbn [chunked]. destruct cs as [| c cs].
        -- rewrite length_firstn. lia.
        -- split; [| exact Hchunked].
           rewrite length_firstn. apply Nat.min_l.
           destruct (le_lt_dec (Z.to_nat size) (List.length rest)) as [? | Hshort]; [assumption |].
           exfalso. rewrite length_skipn in Hcount.
           replace (List.length rest - Z.to_nat size)%nat with 0%nat in Hcount by lia.
           cbn [List.length Z.of_nat] in Hcount.
           rewrite Z.div_small in Hcount by lia. lia.
      * cbn [List.length]. rewrite Nat2Z.inj_succ, Hcount, length_skipn.
        destruct (le_lt_dec (Z.to_nat size) (List.length rest)) as [Hfull | Hshort].
        -- replace (Z.of_nat (List.length rest) + size - 1)
             with (Z.of_nat (List.length rest - Z.to_nat size) + size - 1 + 1 * size) by lia.
           rewrite Z.div_add by lia. lia.
        -- replace (List.length rest - Z.to_nat size)%nat with 0%nat by lia.
           cbn [Z.of_nat]. rewrite Z.div_small by lia.
           replace (Z.of_nat (List.length rest) + size - 1)
             with (Z.of_nat (List.length rest) - 1 + 1 * size) by lia.
           rewrite Z.div_add by lia. rewrite Z.div_small by lia. lia.
    + now apply Hdone.
Qed.

Lemma chunk_loop_endless (arr : list A) (size : Z) :
  size <= 0 -> arr <> [] ->
  forall (fuel : nat) (i : Z) (chunks : list (list A)),
    i <= 0 -> ArrayUtils.chunk_loop fuel arr size i chunks = None.
Proof.
  intros Hsize Harr. induction fuel as [| fuel IH]; intros i chunks Hi; [reflexivity |].
  cbn [ArrayUtils.chunk_loop].
  destruct (Z.ltb_spec i (Z.of_nat (List.length arr))) as [_ | Hge].
  - apply IH. lia.
  - destruct arr; [congruence | cbn [List.length] in Hge; lia].
Qed.

(** [chunk] with a positive size cuts the array into consecutive chunks:
    joined again they give the array, every chunk but the last has [size]
    elements and the last between 1 and [size], so there are
    ceil(length / size) of them. With a size of 0 or below the loop never
    ends on an array that is not empty; an empty array gives no chunk
    whatever the size. *)
Theorem ArrayUtils_chunk_spec (arr : list A) (size : Z) :
  (0 < size ->
   exists chunks,
     (forall fuel, (List.length arr < fuel)%nat ->
                   ArrayUtils.chunk fuel arr size = Some chunks) /\
     List.concat chunks = arr /\
     chunked (Z.to_nat size) chunks /\
     Z.of_nat (List.length chunks) = (Z.of_nat (List.length arr) + size - 1) / size) /\
  (size <= 0 -> arr <> [] -> forall fuel, ArrayUtils.chunk fuel arr size = None) /\
  (arr = [] -> forall fuel, ArrayUtils.chunk (S fuel) arr size = Some []).
Proof.
  split; [| split].
  - intros Hsize.
    destruct (chunk_loop_spec arr size (List.length arr) Hsize 0 []) as
      (cs & Hrun & Hcat & Hchunked & Hcount); [lia | cbn [Z.to_nat skipn]; lia |].
    cbn [Z.to_nat skipn] in *. exists cs. repeat split; assumption.
  - intros Hsize Harr fuel. now apply chunk_loop_endless.
  - intros -> fuel. reflexivity.
Qed.
End Chunks.

(* ------------------------------------------------------------------ *)
(** ** rotate *)

Section Rotation.
Context {A : Type}.

Lemma rotate_offset (n len : Z) : 0 < len -> Z.rem (Z.rem n len + len) len = n mod len.
Proof.
  intros Hlen.
  assert (Hrem : - len < Z.rem n len < len).
  { destruct (Z_lt_le_dec n 0) as [Hneg | Hpos].
    - pose proof (Z.rem_bound_pos_neg n len Hlen ltac:(lia)). lia.
    - pose proof (Z.rem_bound_pos_pos n len Hlen Hpos). lia. }
  rewrite Z.rem_mod_nonneg by lia.
  replace (Z.rem n len + len) with (Z.rem n len + 1 * len) by lia.
  rewrite Z.mod_add by lia.
  transitivity ((Z.rem n len + Z.quot n len * len) mod len); [now rewrite Z.mod_add by lia |].
  f_equal. pose proof (Z.quot_rem' n len). lia.
Qed.

(** The rotated array, by the mathematical remainder of [n]. *)
Lemma rotate_split (arr : list A) (n : Z) :
  arr <> [] ->
  ArrayUtils.rotate arr n
  = skipn (List.length arr - Z.to_nat (n mod Z.of_nat (List.length arr))) arr
    ++ firstn (List.length arr - Z.to_nat (n mod Z.of_nat (List.length arr))) arr.
Proof.
  intros Harr. unfold ArrayUtils.rotate.
  assert (Hlen : 0 < Z.of_nat (List.length arr)).
  { destruct arr; [congruence | cbn [List.length]; lia]. }
  destruct (Z.eqb_spec (Z.of_nat (List.length arr)) 0) as [? | _]; [lia |].
  rewrite rotate_offset by exact Hlen.
  pose proof (Z.mod_pos_bound n _ Hlen) as Hbound.
  destruct (Z.eq_dec (n mod Z.of_nat (List.length arr)) 0) as [-> | Hpos].
  - cbn [Z.opp Z.to_nat]. rewrite Nat.sub_0_r, skipn_all, firstn_all.
    unfold Array_slice, slice_index. cbn [Z.ltb Z.compare].
    destruct (Z.ltb_spec (Z.of_nat (List.length arr)) 0) as [? | _]; [lia |].
    rewrite Z.min_id, (Z.min_l 0) by lia.
    cbn [Z.to_nat skipn Z.sub Z.opp Z.add firstn].
    rewrite Z.sub_0_r, Nat2Z.id, firstn_all. now rewrite app_nil_r.
  - rewrite Array_slice_tail, Array_slice_head by lia.
    reflexivity.
Qed.

Lemma rotate_length (arr : list A) (n : Z) :
  List.length (ArrayUtils.rotate arr n) = List.length arr.
Proof.
  destruct arr as [| a arr]; [reflexivity |].
  rewrite rotate_split by discriminate.
  rewrite length_app, length_skipn, length_firstn. lia.
Qed.

Lemma rotate_nth (arr : list A) (n : Z) (i : nat) :
  (i < List.length arr)%nat ->
  nth_error (ArrayUtils.rotate arr n) i
  = nth_error arr (Z.to_nat ((Z.of_nat i - n) mod Z.of_nat (List.length arr))).
Proof.
  intros Hi.
  assert (Harr : arr <> []) by (destruct arr; [cbn in Hi; lia | discriminate]).
  assert (Hlen : 0 < Z.of_nat (List.length arr)) by lia.
  rewrite rotate_split by exact Harr.
  pose proof (Z.mod_pos_bound n _ Hlen) as Hbound.
  set (len := List.length arr) in *. set (o := n mod Z.of_nat len) in *.
  assert (Hmod : (Z.of_nat i - n) mod Z.of_nat len = (Z.of_nat i - o) mod Z.of_nat len).
  { unfold o. now rewrite Zminus_mod_idemp_r. }
  rewrite Hmod.
  destruct (le_lt_dec (Z.to_nat o) i) as [Hge | Hlt].
  - rewrite nth_error_app2; rewrite length_skipn; fold len; [| lia].
    rewrite nth_error_firstn.
    destruct (Nat.ltb_spec (i - (len - (len - Z.to_nat o))) (len - Z.to_nat o)) as [_ | ?]; [| lia].
    f_equal. rewrite Z.mod_small by lia. lia.
  - rewrite nth_error_app1; [| rewrite length_skipn; fold len; lia].
    rewrite nth_error_skipn. f_equal.
    replace (Z.of_nat i - o) with (Z.of_nat i - o + Z.of_nat len + (-1) * Z.of_nat len) by lia.
    rewrite Z.mod_add by lia. rewrite Z.mod_small by lia. lia.
Qed.

Lemma rotate_compose (arr : list A) (n m : Z) :
  ArrayUtils.rotate (ArrayUtils.rotate arr n) m = ArrayUtils.rotate arr (n + m).
Proof.
  apply nth_error_ext. intros i.
  destruct (le_lt_dec (List.length arr) i) as [Hout | Hin].
  - rewrite !(proj2 (nth_error_None _ _)); [reflexivity | |]; rewrite ?rotate_length; exact Hout.
  - assert (Hlen : 0 < Z.of_nat (List.length arr)) by lia.
    rewrite rotate_nth by (rewrite rotate_length; exact Hin).
    rewrite rotate_length.
    pose proof (Z.mod_pos_bound (Z.of_nat i - m) _ Hlen) as Hbound.
    rewrite rotate_nth by lia.
    rewrite rotate_nth by exact Hin.
    rewrite Z2Nat.id by lia. rewrite Zminus_mod_idemp_l.
    do 2 f_equal. f_equal. lia.
Qed.

Lemma rotate_zero (arr : list A) (k : Z) :
  ArrayUtils.rotate arr (k * Z.of_nat (List.length arr)) = arr.
Proof.
  destruct arr as [| a arr]; [reflexivity |].
  rewrite rotate_split by discriminate.
  rewrite Z.mod_mul by (cbn [List.length]; lia).
  cbn [Z.to_nat]. rewrite Nat.sub_0_r, skipn_all, firstn_all. reflexivity.
Qed.

(** [rotate(arr, n)] moves every element [n] places to the right, around
    the end of the array (to the left for a negative [n]): the element at
    index [i] of the result is the one at index [(i - n) mod length] of the
    array. So the result has the elements of the array, rotating by a
    multiple of the length changes nothing, rotating by [n] and then by [m]
    is rotating by [n + m], and rotating by [- n] undoes rotating by [n].
    An empty array stays empty. *)
Theorem ArrayUtils_rotate_spec (arr : list A) (n : Z) :
  List.length (ArrayUtils.rotate arr n) = List.length arr /\
  (forall i, (i < List.length arr)%nat ->
             nth_error (ArrayUtils.rotate arr n) i
             = nth_error arr (Z.to_nat ((Z.of_nat i - n) mod Z.of_nat (List.length arr)))) /\
  Permutation (ArrayUtils.rotate arr n) arr /\
  (forall k, ArrayUtils.rotate arr (k * Z.of_nat (List.length arr)) = arr) /\
  (forall m, ArrayUtils.rotate (ArrayUtils.rotate arr n) m = ArrayUtils.rotate arr (n + m)) /\
  ArrayUtils.rotate (ArrayUtils.rotate arr n) (- n) = arr.
Proof.
  split; [apply rotate_length |]. split; [apply rotate_nth |].
  split; [| split; [apply rotate_zero | split; [apply rotate_compose |]]].
  - destruct arr as [| a arr]; [constructor |].
    rewrite rotate_split by discriminate.
    rewrite Permutation_app_comm. now rewrite firstn_skipn.
  - rewrite rotate_compose, Z.add_opp_diag_r.
    exact (rotate_zero arr 0).
Qed.
End Rotation.

(* ------------------------------------------------------------------ *)
(** ** slidingWindow *)

Section Windows.
Context {A : Type}.

Lemma seq_map_S {B : Type} (f : nat -> B) (n : nat) :
  map f (seq 0 (S n)) = f 0%nat :: map (fun k => f (S k)) (seq 0 n).
Proof. cbn [seq map]. now rewrite <- seq_shift, map_map. Qed.

Lemma slidingWindow_loop_spec (arr : list A) (windowSize step : Z) :
  0 < step -> 0 <= windowSize ->
  forall (fuel : nat) (i : Z) (windows : list (list A)),
    0 <= i ->
    (Z.to_nat ((Z.of_nat (List.length arr) - windowSize - i + step) / step) < fuel)%nat ->
    ArrayUtils.slidingWindow_loop fuel arr windowSize step i windows
    = Some (windows ++
            map (fun k => firstn (Z.to_nat windowSize)
                            (skipn (Z.to_nat (i + Z.of_nat k * step)) arr))
                (seq 0 (Z.to_nat ((Z.of_nat (List.length arr) - windowSize - i + step) / step))))%list.
Proof.
  intros Hstep Hw. induction fuel as [| fuel IH]; intros i windows Hi Hfuel; [lia |].
  cbn [ArrayUtils.slidingWindow_loop].
  set (len := Z.of_nat (List.length arr)) in *.
  destruct (Z.leb_spec i (len - windowSize)) as [Hin | Hout].
  - assert (Hcount : Z.to_nat ((len - windowSize - i + step) / step)
                     = S (Z.to_nat ((len - windowSize - (i + step) + step) / step))).
    { replace (len - windowSize - i + step)
        with (len - windowSize - (i + step) + step + 1 * step) by lia.
      rewrite Z.div_add by lia.
      replace (len - windowSize - (i + step) + step) with (len - windowSize - i) by lia.
      pose proof (Z.div_pos (len - windowSize - i) step ltac:(lia) Hstep). lia. }
    rewrite Hcount in Hfuel |- *.
    rewrite IH by lia. rewrite seq_map_S, <- app_assoc. cbn [app].
    rewrite Array_slice_window by lia. do 3 f_equal.
    + do 3 f_equal. lia.
    + apply map_ext. intros k. do 3 f_equal. lia.
  - replace (Z.to_nat ((len - windowSize - i + step) / step)) with 0%nat.
    + cbn [seq map]. now rewrite app_nil_r.
    + pose proof (Z.div_lt_upper_bound (len - windowSize - i + step) step 1 Hstep ltac:(lia)). lia.
Qed.

Lemma slidingWindow_loop_endless (arr : list A) (windowSize step : Z) :
  step <= 0 -> windowSize <= Z.of_nat (List.length arr) ->
  forall (fuel : nat) (i : Z) (windows : list (list A)),
    i <= 0 -> ArrayUtils.slidingWindow_loop fuel arr windowSize step i windows = None.
Proof.
  intros Hstep Hw. induction fuel as [| fuel IH]; intros i windows Hi; [reflexivity |].
  cbn [ArrayUtils.slidingWindow_loop].
  destruct (Z.leb_spec i (Z.of_nat (List.length arr) - windowSize)) as [_ | ?]; [| lia].
  apply IH. lia.
Qed.

(** [slidingWindow] with a positive step and a window size between 0 and
    the length of the array returns floor((length - windowSize) / step) + 1
    windows; window [k] holds the [windowSize] elements from index
    [k * step] on, so every window is full and the elements after the last
    full window are left out. A window larger than the array gives no
    window. With a step of 0 or below the loop never ends, unless the
    window is larger than the array. *)
Theorem ArrayUtils_slidingWindow_spec (arr : list A) (windowSize step : Z) :
  (0 < step -> 0 <= windowSize <= Z.of_nat (List.length arr) ->
   exists windows,
     (forall fuel, (List.length arr + 1 < fuel)%nat ->
                   ArrayUtils.slidingWindow fuel arr windowSize step = Some windows) /\
     Z.of_nat (List.length windows) = (Z.of_nat (List.length arr) - windowSize) / step + 1 /\
     (forall k, (k < List.length windows)%nat ->
                nth_error windows k
                = Some (firstn (Z.to_nat windowSize) (skipn (Z.to_nat (Z.of_nat k * step)) arr))) /\
     Forall (fun window => Z.of_nat (List.length window) = windowSize) windows) /\
  (Z.of_nat (List.length arr) < windowSize ->
   forall fuel, ArrayUtils.slidingWindow (S fuel) arr windowSize step = Some []) /\
  (step <= 0 -> windowSize <= Z.of_nat (List.length arr) ->
   forall fuel, ArrayUtils.slidingWindow fuel arr windowSize step = None).
Proof.
  set (len := Z.of_nat (List.length arr)).
  split; [| split].
  - intros Hstep Hw.
    set (count := Z.to_nat ((len - windowSize - 0 + step) / step)).
    assert (Hcount : Z.of_nat count = (len - windowSize) / step + 1).
    { unfold count. replace (len - windowSize - 0 + step) with (len - windowSize + 1 * step) by lia.
      rewrite Z.div_add by lia.
      pose proof (Z.div_pos (len - windowSize) step ltac:(lia) Hstep). lia. }
    assert (Hle : (len - windowSize) / step <= len).
    { apply Z.div_le_upper_bound; [exact Hstep | nia]. }
    exists (map (fun k => firstn (Z.to_nat windowSize) (skipn (Z.to_nat (0 + Z.of_nat k * step)) arr))
                (seq 0 count)).
    split; [| split; [| split]].
    + intros fuel Hfuel. unfold ArrayUtils.slidingWindow.
      rewrite slidingWindow_loop_spec; [reflexivity | lia | lia | lia |].
      fold len. fold count. lia.
    + now rewrite length_map, length_seq.
    + intros k Hk. rewrite length_map, length_seq in Hk.
      rewrite nth_error_map, nth_error_seq.
      destruct (Nat.ltb_spec k count) as [_ | ?]; [| lia].
      reflexivity.
    + apply Forall_forall. intros window Hwin.
      apply in_map_iff in Hwin. destruct Hwin as (k & <- & Hk).
      apply in_seq in Hk. rewrite length_firstn, length_skipn.
      assert (Hstart : Z.of_nat k * step <= len - windowSize).
      { transitivity ((len - windowSize) / step * step); [| rewrite Z.mul_comm; apply Z.mul_div_le; lia].
        apply Z.mul_le_mono_nonneg_r; lia. }
      unfold len in *. rewrite Z.add_0_l. lia.
  - intros Hbig fuel. unfold ArrayUtils.slidingWindow. cbn [ArrayUtils.slidingWindow_loop].
    destruct (Z.leb_spec 0 (Z.of_nat (List.length arr) - windowSize)) as [? | _]; [unfold len in *; lia |].
    reflexivity.
  - intros Hstep Hw fuel. now apply slidingWindow_loop_endless.
Qed.
End Windows.

(* ------------------------------------------------------------------ *)
(** ** range *)

Lemma range_up_spec (end_ step : Z) :
  0 < step ->
  forall (fuel : nat) (i : Z) (result : list Z),
    (Z.to_nat ((end_ - i + step - 1) / step) < fuel)%nat ->
    ArrayUtils.range_up fuel i end_ step result
    = Some (result ++ map (fun k => i + Z.of_nat k * step)
                          (seq 0 (Z.to_nat ((end_ - i + step - 1) / step))))%list.
Proof.
  intros Hstep. induction fuel as [| fuel IH]; intros i result Hfuel; [lia |].
  cbn [ArrayUtils.range_up].
  destruct (Z.ltb_spec i end_) as [Hin | Hout].
  - assert (Hcount : Z.to_nat ((end_ - i + step - 1) / step)
                     = S (Z.to_nat ((end_ - (i + step) + step - 1) / step))).
    { replace (end_ - i + step - 1) with (end_ - (i + step) + step - 1 + 1 * step) by lia.
      rewrite Z.div_add by lia.
      pose proof (Z.div_pos (end_ - (i + step) + step - 1) step ltac:(lia) Hstep). lia. }
    rewrite Hcount in Hfuel |- *.
    rewrite IH by lia. rewrite seq_map_S, <- app_assoc. cbn [app].
    do 3 f_equal; [lia |]. apply map_ext. intros k. lia.
  - replace (Z.to_nat ((end_ - i + step - 1) / step)) with 0%nat.
    + cbn [seq map]. now rewrite app_nil_r.
    + pose proof (Z.div_lt_upper_bound (end_ - i + step - 1) step 1 Hstep ltac:(lia)). lia.
Qed.

Lemma range_down_spec (end_ step : Z) :
  step < 0 ->
  forall (fuel : nat) (i : Z) (result : list Z),
    (Z.to_nat ((i - end_ - step - 1) / (- step)) < fuel)%nat ->
    ArrayUtils.range_down fuel i end_ step result
    = Some (result ++ map (fun k => i + Z.of_nat k * step)
                          (seq 0 (Z.to_nat ((i - end_ - step - 1) / (- step)))))%list.
Proof.
  intros Hstep. induction fuel as [| fuel IH]; intros i result Hfuel; [lia |].
  cbn [ArrayUtils.range_down].
  destruct (Z.gtb_spec i end_) as [Hin | Hout].
  - assert (Hcount : Z.to_nat ((i - end_ - step - 1) / (- step))
                     = S (Z.to_nat ((i + step - end_ - step - 1) / (- step)))).
    { replace (i - end_ - step - 1) with (i + step - end_ - step - 1 + 1 * (- step)) by lia.
      rewrite Z.div_add by lia.
      pose proof (Z.div_pos (i + step - end_ - step - 1) (- step) ltac:(lia) ltac:(lia)). lia. }
    rewrite Hcount in Hfuel |- *.
    rewrite IH by lia. rewrite seq_map_S, <- app_assoc. cbn [app].
    do 3 f_equal; [lia |]. apply map_ext. intros k. lia.
  - replace (Z.to_nat ((i - end_ - step - 1) / (- step))) with 0%nat.
    + cbn [seq map]. now rewrite app_nil_r.
    + pose proof (Z.div_lt_upper_bound (i - end_ - step - 1) (- step) 1 ltac:(lia) ltac:(lia)). lia.
Qed.

Lemma range_down_endless (end_ : Z) :
  forall (fuel : nat) (i : Z) (result : list Z),
    end_ < i -> ArrayUtils.range_down fuel i end_ 0 result = None.
Proof.
  induction fuel as [| fuel IH]; intros i result Hi; [reflexivity |].
  cbn [ArrayUtils.range_down].
  destruct (Z.gtb_spec i end_) as [_ | ?]; [| lia].
  rewrite Z.add_0_r. now apply IH.
Qed.

(** [range(start, end, step)] with a positive step counts up from [start]
    in steps of [step] while below [end]; with a negative step it counts
    down while above [end]. In both directions [end] is left out, and the
    range is empty when [start] is already at or past [end]. With a step of
    0 the range is empty when [start <= end], and the loop never ends when
    [start > end]. *)
Theorem ArrayUtils_range_spec (start end_ step : Z) :
  (0 < step ->
   let count := Z.to_nat ((end_ - start + step - 1) / step) in
   (forall fuel, (count < fuel)%nat ->
                 ArrayUtils.range fuel start end_ step
                 = Some (map (fun k => start + Z.of_nat k * step) (seq 0 count))) /\
   (forall k, (k < count)%nat -> start <= start + Z.of_nat k * step < end_) /\
   (end_ <= start -> count = 0%nat)) /\
  (step < 0 ->
   let count := Z.to_nat ((start - end_ - step - 1) / (- step)) in
   (forall fuel, (count < fuel)%nat ->
                 ArrayUtils.range fuel start end_ step
                 = Some (map (fun k => start + Z.of_nat k * step) (seq 0 count))) /\
   (forall k, (k < count)%nat -> end_ < start + Z.of_nat k * step <= start) /\
   (start <= end_ -> count = 0%nat)) /\
  (step = 0 -> start <= end_ ->
   forall fuel, ArrayUtils.range (S fuel) start end_ step = Some []) /\
  (step = 0 -> end_ < start ->
   forall fuel, ArrayUtils.range fuel start end_ step = None).
Proof.
  split; [| split; [| split]].
  - intros Hstep count. split; [| split].
    + intros fuel Hfuel. unfold ArrayUtils.range.
      destruct (Z.gtb_spec step 0) as [_ | ?]; [| lia].
      now rewrite range_up_spec.
    + intros k Hk. split; [nia |].
      assert (Hlt : Z.of_nat k < (end_ - start + step - 1) / step) by (unfold count in Hk; lia).
      pose proof (Z.mul_div_le (end_ - start + step - 1) step Hstep). nia.
    + intros Hempty. unfold count.
      pose proof (Z.div_lt_upper_bound (end_ - start + step - 1) step 1 Hstep ltac:(lia)). lia.
  - intros Hstep count. split; [| split].
    + intros fuel Hfuel. unfold ArrayUtils.range.
      destruct (Z.gtb_spec step 0) as [? | _]; [lia |].
      now rewrite range_down_spec.
    + intros k Hk. split; [| nia].
      assert (Hlt : Z.of_nat k < (start - end_ - step - 1) / (- step)) by (unfold count in Hk; lia).
      pose proof (Z.mul_div_le (start - end_ - step - 1) (- step) ltac:(lia)). nia.
    + intros Hempty. unfold count.
      pose proof (Z.div_lt_upper_bound (start - end_ - step - 1) (- step) 1 ltac:(lia) ltac:(lia)). lia.
  - intros -> Hle fuel. unfold ArrayUtils.range. cbn [Z.gtb Z.compare ArrayUtils.range_down].
    destruct (Z.gtb_spec start end_) as [? | _]; [lia | reflexivity].
  - intros -> Hgt fuel. unfold ArrayUtils.range. cbn [Z.gtb Z.compare].
    now apply range_down_endless.
Qed.

(* ------------------------------------------------------------------ *)
(** ** countOccurrences, frequencyDistribution, filterByFrequency *)

Section Frequencies.
Context {A : Type} `{Key A}.

Lemma counter_key_order (arr : list A) (m : Map A Z) :
  map fst (fold_left (fun counts item => Map_set counts item (get_or_0 counts item + 1)) arr m)
  = fold_left ArrayUtils.Set_add arr (map fst m).
Proof.
  revert m. induction arr as [| x arr IH]; intros m; [reflexivity |].
  cbn [fold_left]. rewrite IH. f_equal. apply Map_set_keys.
Qed.

Lemma countOccurrences_get (arr : list A) (x : A) :
  Map_get (ArrayUtils.countOccurrences arr) x
  = if ArrayUtils.has arr x then Some (key_count arr x) else None.
Proof.
  unfold ArrayUtils.countOccurrences, ArrayUtils.has.
  pose proof (counter_get 1 arr [] x) as Hget.
  pose proof (counter_keys 1 arr [] x) as Hkeys.
  destruct (in_dec key_eq_dec x arr) as [Hin | Hnin].
  - destruct (Map_get _ x) as [c |] eqn:Hc.
    + unfold get_or_0 at 1 in Hget. rewrite Hc in Hget. unfold get_or_0 in Hget.
      cbn [Map_get] in Hget. f_equal. lia.
    + apply Map_get_None in Hc. exfalso. apply Hc, Hkeys. now right.
  - apply Map_get_None. rewrite Hkeys. cbn [map]. tauto.
Qed.

Lemma key_count_In (arr : list A) (x : A) : In x arr <-> 1 <= key_count arr x.
Proof.
  unfold key_count. rewrite (count_occ_In key_eq_dec). lia.
Qed.

Lemma key_count_filter (p : A -> bool) (arr : list A) (x : A) :
  key_count (filter p arr) x = if p x then key_count arr x else 0.
Proof.
  unfold key_count. induction arr as [| y arr IH]; cbn [filter count_occ].
  - now destruct (p x).
  - destruct (p y) eqn:Hy; cbn [count_occ]; destruct (key_eq_dec y x) as [-> | Hne].
    + rewrite Hy in *. rewrite !Nat2Z.inj_succ. lia.
    + exact IH.
    + rewrite Hy in *. exact IH.
    + exact IH.
Qed.

Lemma filter_all (p : A -> bool) (arr : list A) :
  (forall x, In x arr -> p x = true) -> filter p arr = arr.
Proof.
  induction arr as [| y arr IH]; intros Hall; [reflexivity |].
  cbn [filter]. rewrite (Hall y) by now left.
  f_equal. apply IH. intros x Hx. apply Hall. now right.
Qed.

Lemma filterByFrequency_filter (arr : list A) (minCount : Z) :
  ArrayUtils.filterByFrequency arr minCount
  = filter (fun item => minCount <=? key_count arr item) arr.
Proof.
  unfold ArrayUtils.filterByFrequency. apply filter_ext_in. intros x Hx.
  rewrite countOccurrences_get.
  now rewrite (proj2 (has_In arr x) Hx).
Qed.

(** [countOccurrences] has one key for each value of the array, in the
    order of first appearance, with the number of its occurrences;
    [frequencyDistribution] lists these values once each with that count
    (at least 1), the counts add up to the length of the array, and the
    records are ordered by count, descending or ascending as asked. *)
Theorem ArrayUtils_frequencyDistribution_spec (arr : list A) (descending : bool) :
  let counts := ArrayUtils.countOccurrences arr in
  let distribution := ArrayUtils.frequencyDistribution arr descending in
  map fst counts = ArrayUtils.unique arr /\
  (forall x, Map_get counts x
             = if ArrayUtils.has arr x then Some (key_count arr x) else None) /\
  Permutation (map ArrayUtils.Frequency.value distribution) (ArrayUtils.unique arr) /\
  (forall f, In f distribution ->
             ArrayUtils.Frequency.count f = key_count arr (ArrayUtils.Frequency.value f) /\
             1 <= ArrayUtils.Frequency.count f) /\
  total (map ArrayUtils.Frequency.count distribution) = Z.of_nat (List.length arr) /\
  StronglySorted
    (fun a b => if descending
                then ArrayUtils.Frequency.count b <= ArrayUtils.Frequency.count a
                else ArrayUtils.Frequency.count a <= ArrayUtils.Frequency.count b)
    distribution.
Proof.
  cbn zeta.
  assert (Hkeys : map fst (ArrayUtils.countOccurrences arr) = ArrayUtils.unique arr).
  { unfold ArrayUtils.countOccurrences. now rewrite counter_key_order. }
  split; [exact Hkeys |]. split; [apply countOccurrences_get |].
  unfold ArrayUtils.frequencyDistribution.
  set (distribution := map _ (ArrayUtils.countOccurrences arr)).
  assert (Hperm : Permutation (Array_sort (ArrayUtils.by_count descending) distribution)
                              distribution) by apply Array_sort_perm.
  split; [| split; [| split]].
  - rewrite (Permutation_map ArrayUtils.Frequency.value Hperm).
    unfold distribution. rewrite map_map. cbn [ArrayUtils.Frequency.value].
    change (Permutation (map fst (ArrayUtils.countOccurrences arr)) (ArrayUtils.unique arr)).
    now rewrite Hkeys.
  - intros f Hf. apply (Permutation_in _ Hperm) in Hf.
    unfold distribution in Hf. apply in_map_iff in Hf. destruct Hf as [[x c] [<- He]].
    cbn [ArrayUtils.Frequency.value ArrayUtils.Frequency.count fst snd].
    apply (counter_entries 1) in He. destruct He as [-> Hin].
    apply key_count_In in Hin. lia.
  - rewrite (total_perm _ _ (Permutation_map ArrayUtils.Frequency.count Hperm)).
    unfold distribution. rewrite map_map. cbn [ArrayUtils.Frequency.count].
    change (total (map snd (ArrayUtils.countOccurrences arr)) = Z.of_nat (List.length arr)).
    unfold ArrayUtils.countOccurrences. rewrite counter_total.
    unfold total. cbn [map fold_right]. lia.
  - apply Array_sort_ordered.
    + intros x y z. destruct descending; lia.
    + intros x y Hc. unfold ArrayUtils.by_count in Hc.
      destruct descending; apply positive_of_Z_false in Hc; lia.
    + intros x y Hc. unfold ArrayUtils.by_count in Hc.
      destruct descending; apply positive_of_Z in Hc; lia.
Qed.

(** [filterByFrequency] keeps, in order, the items that occur at least
    [minCount] times in the array: an item stays with all its copies or
    not at all. So a [minCount] of 1 or below keeps the whole array, and
    filtering the result again with the same [minCount] changes nothing. *)
Theorem ArrayUtils_filterByFrequency_spec (arr : list A) (minCount : Z) :
  let kept := ArrayUtils.filterByFrequency arr minCount in
  kept = filter (fun item => minCount <=? key_count arr item) arr /\
  (forall x, key_count kept x
             = if minCount <=? key_count arr x then key_count arr x else 0) /\
  (minCount <= 1 -> kept = arr) /\
  ArrayUtils.filterByFrequency kept minCount = kept.
Proof.
  cbn zeta. rewrite !filterByFrequency_filter.
  set (p := fun item => minCount <=? key_count arr item).
  split; [reflexivity |]. split; [intros x; apply (key_count_filter p) |].
  split.
  - intros Hmin. apply filter_all. intros x Hx. unfold p.
    apply key_count_In in Hx. apply Z.leb_le. lia.
  - apply filter_all. intros x Hx. apply filter_In in Hx. destruct Hx as [_ Hp].
    rewrite (key_count_filter p), Hp. exact Hp.
Qed.
End Frequencies.

(* ------------------------------------------------------------------ *)
(** ** jaccardSimilarity *)

Lemma quotient_of_sizes (a b : nat) :
  (0 < b)%nat ->
  Num.div (Num.of_Z (Z.of_nat a)) (Num.of_Z (Z.of_nat b))
  = Fin (Qred (Z.of_nat a # Pos.of_nat b)).
Proof.
  intros Hb. unfold Num.div, Num.of_Z.
  destruct (Qeq_bool (inject_Z (Z.of_nat b)) 0) eqn:Hz.
  - apply Qeq_bool_eq in Hz. unfold Qeq, inject_Z in Hz. cbn in Hz. lia.
  - f_equal. apply Qred_complete.
    destruct b as [| b]; [lia |].
    unfold Qeq, Qdiv, Qmult, Qinv, inject_Z. cbn [Qnum Qden].
    rewrite <- Pos.of_nat_succ. cbn [Z.of_nat Z.mul].
    change (Z.pos (Pos.of_succ_nat b)) with (Z.of_nat (S b)).
    cbn. lia.
Qed.

Section Similarity.
Context {A : Type} `{Key A}.

Lemma jaccard_sizes (set1 set2 : list A) :
  let common := ArrayUtils.Set_of
                  (filter (fun x => ArrayUtils.has (ArrayUtils.Set_of set2) x)
                          (ArrayUtils.Set_of set1)) in
  let all := ArrayUtils.Set_of (ArrayUtils.Set_of set1 ++ ArrayUtils.Set_of set2) in
  NoDup common /\ NoDup all /\
  (forall x, In x common <-> In x set1 /\ In x set2) /\
  (forall x, In x all <-> In x set1 \/ In x set2).
Proof.
  cbn zeta. split; [apply Set_of_NoDup |]. split; [apply Set_of_NoDup |]. split.
  - intros x. now rewrite Set_of_In, filter_In, Set_of_In, has_Set_of.
  - intros x. now rewrite Set_of_In, in_app_iff, !Set_of_In.
Qed.

Lemma same_size (l l' : list A) :
  NoDup l -> NoDup l' -> (forall x, In x l <-> In x l') -> List.length l = List.length l'.
Proof.
  intros Hl Hl' Hsame. apply Permutation_length. now apply NoDup_Permutation.
Qed.

(** [jaccardSimilarity] of two arrays is the number of values that both
    hold over the number of values that either holds, a quotient between 0
    and 1 that does not depend on the order of the arguments. It is 0
    exactly when the arrays share no value, which includes two empty
    arrays, and 1 exactly when the arrays are not empty and hold the same
    values. *)
Theorem jaccardSimilarity_spec (set1 set2 : list A) :
  (exists q, jaccardSimilarity set1 set2 = Fin q /\ (0 <= q <= 1)%Q) /\
  jaccardSimilarity set1 set2 = jaccardSimilarity set2 set1 /\
  (jaccardSimilarity set1 set2 = Num.of_Z 0 <-> forall x, In x set1 -> ~ In x set2) /\
  (jaccardSimilarity set1 set2 = Num.of_Z 1
   <-> set1 <> [] /\ forall x, In x set1 <-> In x set2).
Proof.
  destruct (jaccard_sizes set1 set2) as (Hc & Ha & Hcommon & Hall).
  destruct (jaccard_sizes set2 set1) as (Hc' & Ha' & Hcommon' & Hall').
  cbn zeta in *. unfold jaccardSimilarity.
  set (common := ArrayUtils.Set_of (filter _ (ArrayUtils.Set_of set1))) in *.
  set (all := ArrayUtils.Set_of (ArrayUtils.Set_of set1 ++ ArrayUtils.Set_of set2)) in *.
  set (common' := ArrayUtils.Set_of (filter _ (ArrayUtils.Set_of set2))) in *.
  set (all' := ArrayUtils.Set_of (ArrayUtils.Set_of set2 ++ ArrayUtils.Set_of set1)) in *.
  assert (Hlen_common : List.length common = List.length common').
  { apply same_size; [assumption | assumption |].
    intros x. rewrite Hcommon, Hcommon'. tauto. }
  assert (Hlen_all : List.length all = List.length all').
  { apply same_size; [assumption | assumption |].
    intros x. rewrite Hall, Hall'. tauto. }
  assert (Hle : (List.length common <= List.length all)%nat).
  { apply NoDup_incl_length; [exact Hc |].
    intros x Hx. apply Hall. apply Hcommon in Hx. tauto. }
  rewrite <- Hlen_common, <- Hlen_all.
  destruct (Z.eqb_spec (Z.of_nat (List.length all)) 0) as [Hzero | Hpos].
  - assert (Hempty : all = []) by (apply length_zero_iff_nil; lia).
    assert (Hnone : forall x, ~ In x set1 /\ ~ In x set2).
    { intros x. split; intros Hx; [assert (Hin : In x all) by (apply Hall; now left)
                                  | assert (Hin : In x all) by (apply Hall; now right)];
        rewrite Hempty in Hin; exact Hin. }
    split; [exists 0%Q; split; [reflexivity | split; [apply Qle_refl | discriminate]] |].
    split; [reflexivity |]. split.
    + split; [intros _ x Hx; now apply (Hnone x) in Hx | reflexivity].
    + split; [discriminate |]. intros [Hne _].
      destruct set1 as [| x set1]; [congruence |].
      exfalso. apply (proj1 (Hnone x)). now left.
  - assert (Hb : (0 < List.length all)%nat) by lia.
    rewrite quotient_of_sizes by exact Hb.
    set (a := List.length common) in *. set (b := List.length all) in *.
    assert (Hq : (Qred (Z.of_nat a # Pos.of_nat b) == Z.of_nat a # Pos.of_nat b)%Q)
      by apply Qred_correct.
    assert (Hden : Z.pos (Pos.of_nat b) = Z.of_nat b).
    { destruct b as [| b]; [lia |]. rewrite <- Pos.of_nat_succ. lia. }
    split; [| split; [reflexivity | split]].
    + eexists. split; [reflexivity |]. rewrite Hq.
      unfold Qle. cbn [Qnum Qden]. rewrite Hden. lia.
    + assert (Hiff : Fin (Qred (Z.of_nat a # Pos.of_nat b)) = Num.of_Z 0 <-> a = 0%nat).
      { split.
        - intros Heq.
          assert (Heq' : Qred (Z.of_nat a # Pos.of_nat b) = inject_Z 0)
            by (unfold Num.of_Z in Heq; congruence).
          pose proof Hq as Hz. rewrite Heq' in Hz.
          unfold Qeq in Hz. cbn in Hz. lia.
        - intros ->. reflexivity. }
      rewrite Hiff. unfold a. rewrite length_zero_iff_nil. split.
      * intros Hnil x H1 H2.
        assert (Hin : In x common) by (apply Hcommon; tauto).
        rewrite Hnil in Hin. exact Hin.
      * intros Hdisjoint. destruct common as [| x rest] eqn:Hshape; [reflexivity |].
        exfalso. assert (Hin : In x (x :: rest)) by now left.
        apply Hcommon in Hin. destruct Hin as [H1 H2]. exact (Hdisjoint x H1 H2).
    + assert (Hiff : Fin (Qred (Z.of_nat a # Pos.of_nat b)) = Num.of_Z 1 <-> a = b).
      { split.
        - intros Heq.
          assert (Heq' : Qred (Z.of_nat a # Pos.of_nat b) = inject_Z 1)
            by (unfold Num.of_Z in Heq; congruence).
          pose proof Hq as Hz. rewrite Heq' in Hz.
          unfold Qeq, inject_Z in Hz. cbn [Qnum Qden] in Hz. lia.
        - intros Heq. unfold Num.of_Z. f_equal.
          change (inject_Z 1) with (Qred 1). apply Qred_complete.
          unfold Qeq. cbn [Qnum Qden]. lia. }
      rewrite Hiff. split.
      * intros Heq.
        assert (Hincl : incl all common).
        { apply NoDup_length_incl; [exact Hc | fold a; fold b; lia |].
          intros x Hx. apply Hall. apply Hcommon in Hx. tauto. }
        assert (Hboth : forall x, In x set1 \/ In x set2 -> In x set1 /\ In x set2).
        { intros x Hx. apply Hcommon, Hincl, Hall. exact Hx. }
        split.
        -- intros ->. destruct all as [| x rest] eqn:Hshape; [cbn in Hb; lia |].
           assert (Hin : In x (x :: rest)) by now left.
           apply Hall, Hboth in Hin. destruct Hin as [[] _].
        -- intros x. split; intros Hx; apply Hboth; tauto.
      * intros [_ Hsame]. apply same_size; [exact Hc | exact Ha |].
        intros x. rewrite Hcommon, Hall, Hsame. tauto.
Qed.
End Similarity.
